(** * Crossword CSP solver (HW3/crossword/generate.py)

    A shallow embedding of [CrosswordCreator] and the verification of its
    node consistency, arc consistency (AC-3), consistency check, ordering
    heuristics and backtracking search. *)

From Stdlib Require Import Ascii String.
From stdpp Require Import base decidable option list sorting gmap strings fin_maps.

Local Open Scope nat_scope.

(** ** Variables of the puzzle *)

Inductive Direction := ACROSS | DOWN.

#[global] Instance Direction_eq_dec : EqDecision Direction.
Proof. solve_decision. Defined.

Module Var.
(** Modelled from the spec: the [Variable] class of crossword.py (start
    cell, direction, length), a value type compared structurally. *)
Record t := mk { i : nat; j : nat; direction : Direction; length : nat }.

#[global] Instance eq_dec : EqDecision t.
Proof. solve_decision. Defined.

Definition to_tuple (v : t) : nat * nat * bool * nat :=
  (i v, j v, match direction v with ACROSS => true | DOWN => false end, length v).

Definition of_tuple (p : nat * nat * bool * nat) : t :=
  match p with
  | (a, b, d, n) => mk a b (if d then ACROSS else DOWN) n
  end.

#[global] Instance countable : Countable t.
Proof.
  apply (inj_countable' to_tuple of_tuple).
  by intros [a b [] n].
Defined.
End Var.

(** ** Python outcomes: a value, a raised exception, or the fuel of a loop
    of the model used up. *)

Inductive exn := KeyError | TypeError | IndexError.

Inductive Res (A : Type) :=
  | Ok (a : A)
  | Raise (e : exn)
  | OutOfFuel.
Arguments Ok {A} a.
Arguments Raise {A} e.
Arguments OutOfFuel {A}.

Definition bind {A B : Type} (m : Res A) (f : A → Res B) : Res B :=
  match m with
  | Ok a => f a
  | Raise e => Raise e
  | OutOfFuel => OutOfFuel
  end.

Notation "'let!' x ':=' m 'in' k" := (bind m (λ x, k))
  (at level 10, x name, m at level 100, k at level 200).

(** [w[k]] on a Python string: [IndexError] past the end. *)
Definition getitem (w : string) (k : nat) : Res ascii :=
  match String.get k w with
  | Some c => Ok c
  | None => Raise IndexError
  end.

(** ** The structure model *)

(** Modelled from the spec: the structure model [Crossword] of
    crossword.py, an external collaborator of the solver: the set of
    variables, the vocabulary, the dict [overlaps] from pairs of variables
    to an optional pair of indices, and the method [neighbors].  A Python
    set is the list of its elements in iteration order; a comprehension or a
    difference of sets keeps that order.  Python does not fix the order: the
    theorems hold for every order of the sets of the structure, and only the
    evaluations at the example structures depend on the one chosen there. *)
Record Crossword := mkCrossword {
  variables : list Var.t;
  words : list string;
  overlaps : gmap (Var.t * Var.t) (option (nat * nat));
  neighbors : Var.t → list Var.t
}.

(** [first_index, second_index = self.crossword.overlaps[x, y]]: a missing
    key raises [KeyError], unpacking [None] raises [TypeError]. *)
Definition unpack_overlap (cw : Crossword) (x y : Var.t) : Res (nat * nat) :=
  match overlaps cw !! (x, y) with
  | None => Raise KeyError
  | Some None => Raise TypeError
  | Some (Some ij) => Ok ij
  end.

(** ** Dicts and the solver's state *)

(** The domain store [self.domains]: a dict from variables to sets of
    words. *)
Abbreviation Domains := (gmap Var.t (list string)).

(** [self.domains[x]] *)
Definition domain_of (D : Domains) (x : Var.t) : Res (list string) :=
  match D !! x with
  | Some ws => Ok ws
  | None => Raise KeyError
  end.

(** An assignment: a Python dict, in insertion order. *)
Abbreviation Dict := (list (Var.t * string)).

Fixpoint dict_get (a : Dict) (v : Var.t) : option string :=
  match a with
  | [] => None
  | (k, w) :: a' => if decide (k = v) then Some w else dict_get a' v
  end.

(** [a[v] = w] *)
Fixpoint dict_set (a : Dict) (v : Var.t) (w : string) : Dict :=
  match a with
  | [] => [(v, w)]
  | (k, x) :: a' =>
      if decide (k = v) then (k, w) :: a' else (k, x) :: dict_set a' v w
  end.

(** [a.pop(v, None)] *)
Fixpoint dict_pop (a : Dict) (v : Var.t) : Dict :=
  match a with
  | [] => []
  | (k, x) :: a' => if decide (k = v) then a' else (k, x) :: dict_pop a' v
  end.

Definition dict_keys (a : Dict) : list Var.t := a.*1.
Definition dict_values (a : Dict) : list string := a.*2.

(** Assignments are mutable objects that [backtrack] copies, extends and
    passes on: they live in a heap, addressed by location. *)
Abbreviation loc := nat.

Record State := mkState {
  domains : Domains;
  heap : list Dict
}.

(** The dict at a location.  Every location that [alloc] hands out is in
    the heap; a location that is not reads as the empty dict. *)
Definition deref (st : State) (l : loc) : Dict := default [] (heap st !! l).

Definition alloc (a : Dict) (st : State) : loc * State :=
  (List.length (heap st), mkState (domains st) (heap st ++ [a])).

Definition store (l : loc) (a : Dict) (st : State) : State :=
  mkState (domains st) (<[l := a]> (heap st)).

Definition with_domains (D : Domains) (st : State) : State :=
  mkState D (heap st).

(** [__init__]: every variable starts with a copy of the vocabulary. *)
Definition init_domains (cw : Crossword) : Domains :=
  list_to_map ((λ var, (var, words cw)) <$> variables cw).

Definition init (cw : Crossword) : State := mkState (init_domains cw) [].

(** ** Node consistency *)

Definition node_filter (var : Var.t) (ws : list string) : list string :=
  filter (λ w, String.length w = Var.length var) ws.

(** [for var, words in self.domains.items(): self.domains[var] = {...}] *)
Definition enforce_node_consistency (D : Domains) : Domains :=
  foldl (λ acc item, <[item.1 := node_filter item.1 item.2]> acc) D (map_to_list D).

(** ** Arc consistency *)

(** The inner loop of [revise]: does [word_x] agree with some word of
    [domains[y]]?  The loop breaks at the first match. *)
Fixpoint has_match (first_index second_index : nat) (word_x : string)
    (dy : list string) : Res bool :=
  match dy with
  | [] => Ok false
  | word_y :: dy' =>
      let! cx := getitem word_x first_index in
      let! cy := getitem word_y second_index in
      if decide (cx = cy) then Ok true
      else has_match first_index second_index word_x dy'
  end.

(** The outer loop of [revise]: the set [to_remove]. *)
Fixpoint collect_to_remove (first_index second_index : nat) (D : Domains)
    (y : Var.t) (dx : list string) : Res (list string) :=
  match dx with
  | [] => Ok []
  | word_x :: dx' =>
      let! dy := domain_of D y in
      let! m := has_match first_index second_index word_x dy in
      let! rest := collect_to_remove first_index second_index D y dx' in
      Ok (if m then rest else word_x :: rest)
  end.

Definition revise (cw : Crossword) (x y : Var.t) (D : Domains)
    : Res bool * Domains :=
  match unpack_overlap cw x y with
  | Raise e => (Raise e, D)
  | OutOfFuel => (OutOfFuel, D)
  | Ok (first_index, second_index) =>
      match domain_of D x with
      | Raise e => (Raise e, D)
      | OutOfFuel => (OutOfFuel, D)
      | Ok dx =>
          match collect_to_remove first_index second_index D y dx with
          | Raise e => (Raise e, D)
          | OutOfFuel => (OutOfFuel, D)
          | Ok to_remove =>
              (Ok (bool_decide (to_remove ≠ [])),
               <[x := list_difference dx to_remove]> D)
          end
      end
  end.

Abbreviation arc := (Var.t * Var.t)%type.

(** [[(x, y) for x in variables for y in neighbors(x)]] *)
Definition all_arcs (cw : Crossword) : list arc :=
  x ← variables cw; (λ y, (x, y)) <$> neighbors cw x.

(** The [while arcs:] loop of [ac3]. *)
Fixpoint ac3_loop (fuel : nat) (cw : Crossword) (arcs : list arc) (D : Domains)
    : Res bool * Domains :=
  match arcs with
  | [] => (Ok true, D)
  | (x, y) :: arcs' =>
      match fuel with
      | 0 => (OutOfFuel, D)
      | S n =>
          match revise cw x y D with
          | (Ok true, D') =>
              match domain_of D' x with
              | Ok dx =>
                  if decide (List.length dx = 0) then (Ok false, D')
                  else ac3_loop n cw
                         (arcs' ++ ((λ z, (z, x)) <$> filter (.≠ y) (neighbors cw x))) D'
              | Raise e => (Raise e, D')
              | OutOfFuel => (OutOfFuel, D')
              end
          | (Ok false, D') => ac3_loop n cw arcs' D'
          | (Raise e, D') => (Raise e, D')
          | (OutOfFuel, D') => (OutOfFuel, D')
          end
      end
  end.

(** Every revision that changes something removes a word, and enqueues at
    most [max_degree] arcs: the loop runs at most [ac3_fuel] times. *)
Definition total_size (D : Domains) : nat :=
  sum_list_with (λ item, List.length item.2) (map_to_list D).

Definition max_degree (cw : Crossword) (D : Domains) : nat :=
  max_list ((λ x, List.length (neighbors cw x)) <$> (map_to_list D).*1).

Definition ac3_fuel (cw : Crossword) (arcs : list arc) (D : Domains) : nat :=
  S (List.length arcs + S (max_degree cw D) * total_size D).

Definition ac3 (cw : Crossword) (arcs : option (list arc)) (D : Domains)
    : Res bool * Domains :=
  let arcs := match arcs with
              | None => all_arcs cw
              | Some arcs => arcs
              end in
  ac3_loop (ac3_fuel cw arcs D) cw arcs D.

(** ** Assignments: completeness and consistency *)

(** [set(assignment.keys()) == self.crossword.variables] *)
Definition assignment_complete (cw : Crossword) (assignment : Dict) : bool :=
  bool_decide (Forall (λ v, v ∈ variables cw) (dict_keys assignment) ∧
               Forall (λ v, v ∈ dict_keys assignment) (variables cw)).

(** The loop over [self.crossword.neighbors(var)] in [consistent]. *)
Fixpoint check_neighbors (cw : Crossword) (assignment : Dict) (var : Var.t)
    (word : string) (ns : list Var.t) : Res bool :=
  match ns with
  | [] => Ok true
  | neighbor :: ns' =>
      match dict_get assignment neighbor with
      | None => check_neighbors cw assignment var word ns'
      | Some neighbor_word =>
          let! ij := unpack_overlap cw var neighbor in
          let! c1 := getitem word ij.1 in
          let! c2 := getitem neighbor_word ij.2 in
          if decide (c1 ≠ c2) then Ok false
          else check_neighbors cw assignment var word ns'
      end
  end.

(** The loop over [assignment.items()] in [consistent]. *)
Fixpoint check_items (cw : Crossword) (assignment : Dict) (items : Dict)
    : Res bool :=
  match items with
  | [] => Ok true
  | (var, word) :: items' =>
      if decide (String.length word ≠ Var.length var) then Ok false
      else
        let! ok := check_neighbors cw assignment var word (neighbors cw var) in
        if ok then check_items cw assignment items' else Ok false
  end.

Definition consistent (cw : Crossword) (assignment : Dict) : Res bool :=
  let words := dict_values assignment in
  if decide (List.length words ≠ List.length (remove_dups words)) then Ok false
  else check_items cw assignment assignment.

(** ** Python's [sorted(l, key=...)]: the keys are computed once, in order,
    and the sort is stable. *)

Fixpoint insert_by_key {A : Type} (k : nat) (x : A) (l : list (nat * A))
    : list (nat * A) :=
  match l with
  | [] => [(k, x)]
  | (k', y) :: l' =>
      if decide (k ≤ k') then (k, x) :: (k', y) :: l'
      else (k', y) :: insert_by_key k x l'
  end.

Fixpoint sort_by_key {A : Type} (l : list (nat * A)) : list (nat * A) :=
  match l with
  | [] => []
  | (k, x) :: l' => insert_by_key k x (sort_by_key l')
  end.

Fixpoint with_keys {A : Type} (key : A → Res nat) (l : list A)
    : Res (list (nat * A)) :=
  match l with
  | [] => Ok []
  | x :: l' =>
      let! k := key x in
      let! rest := with_keys key l' in
      Ok ((k, x) :: rest)
  end.

Definition sorted {A : Type} (key : A → Res nat) (l : list A) : Res (list A) :=
  let! kl := with_keys key l in
  Ok ((sort_by_key kl).*2).

(** ** Ordering heuristics *)

(** The loop over [self.domains[neighbor]] in [count_conflicts]. *)
Fixpoint count_in_domain (word : string) (w_index n_index : nat)
    (dn : list string) (conflicts : nat) : Res nat :=
  match dn with
  | [] => Ok conflicts
  | neighbor_word :: dn' =>
      let! c1 := getitem word w_index in
      let! c2 := getitem neighbor_word n_index in
      count_in_domain word w_index n_index dn'
        (if decide (c1 ≠ c2) then S conflicts else conflicts)
  end.

(** The loop over [unassigned_neighbors] in [count_conflicts]. *)
Fixpoint count_over_neighbors (cw : Crossword) (D : Domains) (var : Var.t)
    (word : string) (unassigned_neighbors : list Var.t) (conflicts : nat)
    : Res nat :=
  match unassigned_neighbors with
  | [] => Ok conflicts
  | neighbor :: ns =>
      let! ij := unpack_overlap cw var neighbor in
      let! dn := domain_of D neighbor in
      let! conflicts' := count_in_domain word ij.1 ij.2 dn conflicts in
      count_over_neighbors cw D var word ns conflicts'
  end.

Definition count_conflicts (cw : Crossword) (D : Domains) (assignment : Dict)
    (var : Var.t) (word : string) : Res nat :=
  let assigned := dict_keys assignment in
  let unassigned_neighbors := list_difference (neighbors cw var) assigned in
  count_over_neighbors cw D var word unassigned_neighbors 0.

Definition order_domain_values (cw : Crossword) (D : Domains) (var : Var.t)
    (assignment : Dict) : Res (list string) :=
  let! dv := domain_of D var in
  sorted (count_conflicts cw D assignment var) dv.

Definition select_unassigned_variable (cw : Crossword) (D : Domains)
    (assignment : Dict) : Res Var.t :=
  let unassigned := list_difference (variables cw) (dict_keys assignment) in
  let! l := sorted (λ var, let! d := domain_of D var in Ok (List.length d)) unassigned in
  match l with
  | [] => Raise IndexError
  | var :: _ => Ok var
  end.

(** ** Backtracking search *)

(** [if result:] on the value a recursive call returned: [None] and the
    empty dict are false. *)
Definition truthy (st : State) (result : option loc) : bool :=
  match result with
  | None => false
  | Some l => bool_decide (deref st l ≠ [])
  end.

(** The body of the [for value in ...] loop of [backtrack]; [rec] is the
    recursive call.  [Ok (Some l)] returns [l] from [backtrack], [Ok None]
    goes on with the next value. *)
Definition try_value (cw : Crossword)
    (rec : loc → State → Res (option loc) * State)
    (assignment : loc) (var : Var.t) (value : string) (st : State)
    : Res (option loc) * State :=
  let (new_assignment, st1) := alloc (deref st assignment) st in
  let st2 := store new_assignment
               (dict_set (deref st1 new_assignment) var value) st1 in
  match ac3 cw (Some ((λ neighbor, (neighbor, var)) <$> neighbors cw var))
            (domains st2) with
  | (Ok inferences, D') =>
      let st3 := with_domains D' st2 in
      match consistent cw (deref st3 new_assignment) with
      | Ok c =>
          if c && inferences then
            match rec new_assignment st3 with
            | (Ok result, st4) =>
                if truthy st4 result then (Ok result, st4)
                else (Ok None,
                      store new_assignment
                        (dict_pop (deref st4 new_assignment) var) st4)
            | (Raise e, st4) => (Raise e, st4)
            | (OutOfFuel, st4) => (OutOfFuel, st4)
            end
          else (Ok None, st3)
      | Raise e => (Raise e, st3)
      | OutOfFuel => (OutOfFuel, st3)
      end
  | (Raise e, D') => (Raise e, with_domains D' st2)
  | (OutOfFuel, D') => (OutOfFuel, with_domains D' st2)
  end.

Fixpoint backtrack_values (cw : Crossword)
    (rec : loc → State → Res (option loc) * State)
    (assignment : loc) (var : Var.t) (values : list string) (st : State)
    : Res (option loc) * State :=
  match values with
  | [] => (Ok None, st)
  | value :: values' =>
      match try_value cw rec assignment var value st with
      | (Ok None, st') => backtrack_values cw rec assignment var values' st'
      | (r, st') => (r, st')
      end
  end.

Fixpoint backtrack (fuel : nat) (cw : Crossword) (assignment : loc) (st : State)
    : Res (option loc) * State :=
  match fuel with
  | 0 => (OutOfFuel, st)
  | S n =>
      if assignment_complete cw (deref st assignment) then (Ok (Some assignment), st)
      else
        match select_unassigned_variable cw (domains st) (deref st assignment) with
        | Ok var =>
            match order_domain_values cw (domains st) var (deref st assignment) with
            | Ok values =>
                backtrack_values cw (backtrack n cw) assignment var values st
            | Raise e => (Raise e, st)
            | OutOfFuel => (OutOfFuel, st)
            end
        | Raise e => (Raise e, st)
        | OutOfFuel => (OutOfFuel, st)
        end
  end.

(** [solve]: the result of [self.ac3()] is dropped; [dict()] is a fresh
    object.  Every recursive call of [backtrack] assigns one more variable,
    so the recursion is at most [length variables + 1] deep. *)
Definition solve (cw : Crossword) (st : State) : Res (option loc) * State :=
  let D1 := enforce_node_consistency (domains st) in
  match ac3 cw None D1 with
  | (Ok _, D2) =>
      let (assignment, st') := alloc [] (with_domains D2 st) in
      backtrack (S (List.length (variables cw))) cw assignment st'
  | (Raise e, D2) => (Raise e, with_domains D2 st)
  | (OutOfFuel, D2) => (OutOfFuel, with_domains D2 st)
  end.

(** ** The grid of letters *)

Abbreviation Grid := (list (list (option ascii))).

(** [letters[i][j] = c]: [IndexError] outside the grid. *)
Definition set_cell (letters : Grid) (i j : nat) (c : ascii) : Res Grid :=
  match letters !! i with
  | None => Raise IndexError
  | Some row =>
      if decide (j < List.length row)
      then Ok (<[i := <[j := Some c]> row]> letters)
      else Raise IndexError
  end.

(** The cell of the [k]-th letter of a variable: [k] rows down or [k]
    columns across from its start. *)
Definition cell_of (variable : Var.t) (k : nat) : nat * nat :=
  (Var.i variable + match Var.direction variable with DOWN => k | ACROSS => 0 end,
   Var.j variable + match Var.direction variable with ACROSS => k | DOWN => 0 end).

(** The loop [for k in range(len(word))] of [letter_grid]. *)
Fixpoint write_letters (variable : Var.t) (word : string) (ks : list nat)
    (letters : Grid) : Res Grid :=
  match ks with
  | [] => Ok letters
  | k :: ks' =>
      let! c := getitem word k in
      let! letters' := set_cell letters (cell_of variable k).1
                         (cell_of variable k).2 c in
      write_letters variable word ks' letters'
  end.

(** The loop over [assignment.items()] of [letter_grid]. *)
Fixpoint place_words (items : Dict) (letters : Grid) : Res Grid :=
  match items with
  | [] => Ok letters
  | (variable, word) :: items' =>
      let! letters' := write_letters variable word
                         (seq 0 (String.length word)) letters in
      place_words items' letters'
  end.

(** [letter_grid]: [height] and [width] are those of the structure. *)
Definition letter_grid (height width : nat) (assignment : Dict) : Res Grid :=
  place_words assignment (replicate height (replicate width None)).

(** [letters[r][c]], when the cell is in the grid. *)
Definition grid_get (letters : Grid) (r c : nat) : option (option ascii) :=
  letters !! r ≫= (λ row, row !! c).

(** The domain store with which [solve] starts the search on a fresh
    [CrosswordCreator]. *)
Definition search_domains (cw : Crossword) : Domains :=
  (ac3 cw None (enforce_node_consistency (init_domains cw))).2.

(** ** Well-formed structures *)

(** Modelled from the spec: what the structure model guarantees about the
    values it supplies.  [variables] is a set; [neighbors x] are the
    variables that intersect [x], that is those with overlap indices for
    [(x, y)]; overlaps relate two distinct variables of the structure, are
    the same cell seen from both sides, and index a cell of the slot. *)
Record wf_crossword (cw : Crossword) : Prop := {
  wf_nodup : NoDup (variables cw);
  wf_neighbors : ∀ x y, x ∈ variables cw →
    (y ∈ neighbors cw x ↔ ∃ ij, overlaps cw !! (x, y) = Some (Some ij));
  wf_overlap_vars : ∀ x y ij, overlaps cw !! (x, y) = Some (Some ij) →
    x ∈ variables cw ∧ y ∈ variables cw;
  wf_sym : ∀ x y i j, overlaps cw !! (x, y) = Some (Some (i, j)) →
    overlaps cw !! (y, x) = Some (Some (j, i));
  wf_bounds : ∀ x y i j, overlaps cw !! (x, y) = Some (Some (i, j)) →
    i < Var.length x;
  wf_irrefl : ∀ x ij, overlaps cw !! (x, x) ≠ Some (Some ij)
}.

Definition overlapping (cw : Crossword) (x y : Var.t) : bool :=
  match overlaps cw !! (x, y) with
  | Some (Some _) => true
  | _ => false
  end.

(** A decision procedure for [wf_crossword], for concrete structures. *)
Definition check_overlap (cw : Crossword)
    (e : Var.t * Var.t * option (nat * nat)) : bool :=
  match e with
  | (_, None) => true
  | ((x, y), Some (i, j)) =>
      bool_decide (x ∈ variables cw) && bool_decide (y ∈ variables cw)
      && bool_decide (overlaps cw !! (y, x) = Some (Some (j, i)))
      && bool_decide (i < Var.length x) && bool_decide (x ≠ y)
  end.

Definition check_neighbors_of (cw : Crossword) (x : Var.t) : bool :=
  forallb (overlapping cw x) (neighbors cw x)
  && forallb (λ y, implb (overlapping cw x y) (bool_decide (y ∈ neighbors cw x)))
       (variables cw).

Definition check_crossword (cw : Crossword) : bool :=
  bool_decide (NoDup (variables cw))
  && forallb (check_neighbors_of cw) (variables cw)
  && forallb (check_overlap cw) (map_to_list (overlaps cw)).

(** Modelled from the spec: a structure built from its variables,
    vocabulary and overlaps; the neighbours of [var] are the other variables
    that have overlap indices with it. *)
Definition crossword_of (vars : list Var.t) (vocabulary : list string)
    (ovl : list (Var.t * Var.t * option (nat * nat))) : Crossword :=
  let m : gmap (Var.t * Var.t) (option (nat * nat)) := list_to_map ovl in
  mkCrossword vars vocabulary m
    (λ var, filter (λ v, v ≠ var ∧ is_Some (m !! (v, var) ≫= id)) vars).

(** ** Example structures *)

Module Examples.

(** Two crossing slots of length 3: [across] is the first row, [down] the
    middle column. *)
Definition across : Var.t := Var.mk 0 0 ACROSS 3.
Definition down : Var.t := Var.mk 0 1 DOWN 3.

Definition cross_overlaps : list (Var.t * Var.t * option (nat * nat)) :=
  [((across, down), Some (1, 0)); ((down, across), Some (0, 1))].

Definition cross (vocabulary : list string) : Crossword :=
  crossword_of [across; down] vocabulary cross_overlaps.

(** The crossing slots with a vocabulary that fills them, one way to fill
    them, and a vocabulary without any word of length 3. *)
Definition puzzle : Crossword := cross ["TEN"; "ANT"; "EEL"; "NET"]%string.

Definition puzzle_solution : Dict := [(across, "TEN"); (down, "EEL")]%string.

Definition short_words : Crossword := cross ["AT"; "TO"]%string.

(** The crossing slots with a single word, which cannot fill both. *)
Definition lone : Crossword := cross ["EEL"]%string.

(** The grid of [puzzle_solution], and the domains of [puzzle] after node
    consistency alone. *)
Definition puzzle_grid : Grid :=
  [[Some "T"; Some "E"; Some "N"]; [None; Some "E"; None];
   [None; Some "L"; None]]%char.

Definition puzzle_domains : Domains :=
  enforce_node_consistency (init_domains puzzle).

(** The crossing slots with a word that fits neither crossing, with no
    word at all, and a structure without slots. *)
Definition stuck : Crossword := cross ["CAT"]%string.

Definition no_words : Crossword := cross [].

Definition no_slots : Crossword := crossword_of [] ["CAT"; "DOG"]%string [].

(** One row of length 3 with a column of length 2 hanging from each end. *)
Definition top : Var.t := Var.mk 0 0 ACROSS 3.
Definition left : Var.t := Var.mk 0 0 DOWN 2.
Definition right : Var.t := Var.mk 0 2 DOWN 2.

Definition bridge : Crossword :=
  crossword_of [left; top; right] ["CAT"; "DOG"; "CX"; "DY"; "TX"; "GY"]%string
    [((top, left), Some (0, 0)); ((left, top), Some (0, 0));
     ((top, right), Some (2, 0)); ((right, top), Some (0, 2));
     ((left, right), None); ((right, left), None)].

(** Two parallel rows of length 3, which do not intersect. *)
Definition row0 : Var.t := Var.mk 0 0 ACROSS 3.
Definition row2 : Var.t := Var.mk 2 0 ACROSS 3.

Definition rows : Crossword :=
  crossword_of [row0; row2] ["CAT"; "DOG"]%string
    [((row0, row2), None); ((row2, row0), None)].

End Examples.

(** * Specification predicates *)

(** What [consistent] checks, in the words of its specification: the
    words are pairwise distinct, each has the length of its variable, and
    assigned neighbours agree at their overlap. *)
Definition consistent_spec (cw : Crossword) (a : Dict) : Prop :=
  NoDup (dict_values a) ∧
  (∀ v w, (v, w) ∈ a → String.length w = Var.length v) ∧
  (∀ v w n wn, (v, w) ∈ a → n ∈ neighbors cw v → dict_get a n = Some wn →
     ∃ i j c, overlaps cw !! (v, n) = Some (Some (i, j)) ∧
              String.get i w = Some c ∧ String.get j wn = Some c).

(** The order that [sort_by_key] establishes on the keyed elements, and the
    one [sorted] establishes on the elements themselves. *)
Definition key_le {A : Type} (p q : nat * A) : Prop := p.1 ≤ q.1.

Definition by_key {A : Type} (key : A → Res nat) (x y : A) : Prop :=
  ∃ kx ky, key x = Ok kx ∧ key y = Ok ky ∧ kx ≤ ky.

(** Two words agree at the overlap indices [(i, j)]. *)
Definition agree (i j : nat) (w w' : string) : Prop :=
  ∃ c, String.get i w = Some c ∧ String.get j w' = Some c.

(** [w] has a word of [domain[y]] that agrees with it at [(i, j)]. *)
Definition supported (D : Domains) (y : Var.t) (i j : nat) (w : string) : Prop :=
  ∃ dy w', D !! y = Some dy ∧ w' ∈ dy ∧ agree i j w w'.

(** The arc [(x, y)] is consistent: every word of [domain[x]] is supported
    in [domain[y]]. *)
Definition arc_consistent_at (cw : Crossword) (D : Domains) (x y : Var.t) : Prop :=
  ∀ i j dx w, overlaps cw !! (x, y) = Some (Some (i, j)) →
    D !! x = Some dx → w ∈ dx → supported D y i j w.

Definition arc_consistent (cw : Crossword) (D : Domains) : Prop :=
  ∀ x y, x ∈ variables cw → y ∈ variables cw → arc_consistent_at cw D x y.

(** An arc of the structure: [y] is a neighbour of the variable [x]. *)
Definition valid_arc (cw : Crossword) (a : arc) : Prop :=
  a.1 ∈ variables cw ∧ a.2 ∈ neighbors cw a.1.

(** The domain store has every variable as a key and is node consistent. *)
Definition domains_ok (cw : Crossword) (D : Domains) : Prop :=
  (∀ v, v ∈ variables cw → is_Some (D !! v)) ∧
  (∀ v dv w, D !! v = Some dv → w ∈ dv → String.length w = Var.length v).

(** [D'] has the keys of [D], with domains that only lost words. *)
Definition shrinks (D D' : Domains) : Prop :=
  ∀ v, match D !! v, D' !! v with
       | Some d, Some d' => d' ⊆ d
       | None, None => True
       | _, _ => False
       end.

(** The invariant of the loop of [ac3]: an arc of the structure that is not
    in the worklist is consistent. *)
Definition worklist_invariant (cw : Crossword) (arcs : list arc) (D : Domains)
    : Prop :=
  ∀ x y, valid_arc cw (x, y) → (x, y) ∈ arcs ∨ arc_consistent_at cw D x y.

(** The least-constraining-value score, in the words of the
    specification: over every unassigned neighbour [n] of [var] and every
    word of [domain[n]], the number of neighbour words whose letter at the
    overlap differs from the letter of [word] there. *)
Definition conflicts_with (cw : Crossword) (D : Domains) (var : Var.t)
    (word : string) (n : Var.t) : nat :=
  match overlaps cw !! (var, n) with
  | Some (Some (i, j)) =>
      List.length (filter (λ w', String.get i word ≠ String.get j w')
                     (default [] (D !! n)))
  | _ => 0
  end.

Definition lcv_score (cw : Crossword) (D : Domains) (a : Dict) (var : Var.t)
    (word : string) : nat :=
  sum_list_with (conflicts_with cw D var word)
    (filter (λ n, n ∉ dict_keys a) (neighbors cw var)).

(** A satisfying assignment, in the words of the specification: every
    variable has a word of the vocabulary of its length, the words are
    pairwise distinct, and the words of two intersecting variables agree at
    their overlap. *)
Definition satisfying (cw : Crossword) (a : Dict) : Prop :=
  (∀ v, v ∈ variables cw →
     ∃ w, dict_get a v = Some w ∧ w ∈ words cw ∧
          String.length w = Var.length v) ∧
  (∀ v1 v2 w, v1 ∈ variables cw → v2 ∈ variables cw →
     dict_get a v1 = Some w → dict_get a v2 = Some w → v1 = v2) ∧
  (∀ x y i j wx wy, x ∈ variables cw → y ∈ variables cw →
     overlaps cw !! (x, y) = Some (Some (i, j)) →
     dict_get a x = Some wx → dict_get a y = Some wy → agree i j wx wy).

(** Every word of the assignment is in the domain of its variable. *)
Definition from_domains (D : Domains) (a : Dict) : Prop :=
  ∀ v w, (v, w) ∈ a → ∃ dv, D !! v = Some dv ∧ w ∈ dv.

(** The assignments that [backtrack] passes on during a search over the
    domain store [D]. *)
Definition search_assignment (cw : Crossword) (D : Domains) (a : Dict) : Prop :=
  NoDup (dict_keys a) ∧
  (∀ v, v ∈ dict_keys a → v ∈ variables cw) ∧
  consistent cw a = Ok true ∧
  from_domains D a.

(** The partial assignment [a] is a part of the full assignment [sol]. *)
Definition part_of (a sol : Dict) : Prop :=
  ∀ v w, (v, w) ∈ a → dict_get sol v = Some w.

(** The domain store still has the words of the assignment [sol]. *)
Definition keeps_solution (cw : Crossword) (sol : Dict) (D : Domains) : Prop :=
  ∀ v, v ∈ variables cw →
    ∃ w dv, dict_get sol v = Some w ∧ D !! v = Some dv ∧ w ∈ dv.

(** The variables that [a] leaves unassigned. *)
Definition unassigned (cw : Crossword) (a : Dict) : list Var.t :=
  list_difference (variables cw) (dict_keys a).

(** What a call in the search leaves behind: the domain store as it was, a
    heap that extends the old one, and as result, if any, a complete
    assignment of the search. *)
Definition search_post (cw : Crossword) (st : State) (r : option loc)
    (st' : State) : Prop :=
  domains st' = domains st ∧
  heap st `prefix_of` heap st' ∧
  ∀ l, r = Some l →
    search_assignment cw (domains st) (deref st' l) ∧
    assignment_complete cw (deref st' l) = true.

(** The grid has [height] rows of [width] cells. *)
Definition grid_shape (height width : nat) (letters : Grid) : Prop :=
  List.length letters = height ∧
  Forall (λ row, List.length row = width) letters.

(** The [k]-th letter of the entry [(v, word)] of the assignment falls on
    the cell [(r, c)]. *)
Definition covers (item : Var.t * string) (k r c : nat) : Prop :=
  k < String.length item.2 ∧ cell_of item.1 k = (r, c).

(** Every letter of every word of the assignment falls inside the grid. *)
Definition fits (height width : nat) (a : Dict) : Prop :=
  ∀ item k, item ∈ a → k < String.length item.2 →
    (cell_of item.1 k).1 < height ∧ (cell_of item.1 k).2 < width.

(** Every word of every domain, and every word of the assignment, is a
    word of the vocabulary. *)
Definition vocabulary_store (cw : Crossword) (D : Domains) : Prop :=
  ∀ v dv w, D !! v = Some dv → w ∈ dv → w ∈ words cw.

Definition vocabulary_assignment (cw : Crossword) (a : Dict) : Prop :=
  ∀ v w, (v, w) ∈ a → w ∈ words cw.

(** Decides a closed decidable proposition by evaluation. *)
Ltac by_evaluation := apply (bool_decide_unpack _); vm_compute; exact I.

(** * Verification *)

(** ** Outcomes *)

Lemma bind_Ok {A B : Type} (m : Res A) (f : A → Res B) (b : B) :
  bind m f = Ok b ↔ ∃ a, m = Ok a ∧ f a = Ok b.
Proof.
  destruct m as [a| |]; simpl.
  - split; [eauto | by intros (a' & [= <-] & Hf)].
  - split; [done | by intros (a' & Heq & _)].
  - split; [done | by intros (a' & Heq & _)].
Qed.

Lemma getitem_Ok (w : string) (k : nat) (c : ascii) :
  getitem w k = Ok c ↔ String.get k w = Some c.
Proof. unfold getitem. destruct (String.get k w); naive_solver. Qed.

Lemma get_is_Some (w : string) (k : nat) :
  k < String.length w → ∃ c, String.get k w = Some c.
Proof.
  revert k. induction w as [|a w IH]; intros k Hk; simpl in *; [lia|].
  destruct k as [|k]; [by eexists|]. apply IH. lia.
Qed.

Lemma getitem_in_bounds (w : string) (k : nat) :
  k < String.length w → ∃ c, getitem w k = Ok c.
Proof.
  intros [c Hc]%get_is_Some. exists c. by apply getitem_Ok.
Qed.

Lemma unpack_overlap_Ok (cw : Crossword) (x y : Var.t) (ij : nat * nat) :
  unpack_overlap cw x y = Ok ij ↔ overlaps cw !! (x, y) = Some (Some ij).
Proof.
  unfold unpack_overlap.
  destruct (overlaps cw !! (x, y)) as [[?|]|]; naive_solver.
Qed.

Lemma domain_of_Ok (D : Domains) (x : Var.t) (ws : list string) :
  domain_of D x = Ok ws ↔ D !! x = Some ws.
Proof. unfold domain_of. destruct (D !! x); naive_solver. Qed.

(** ** Node consistency *)

Lemma foldl_insert_lookup {V : Type} (f : Var.t → V → V)
    (l : list (Var.t * V)) (acc : gmap Var.t V) (v : Var.t) :
  NoDup l.*1 →
  (∀ ws, (v, ws) ∈ l →
     foldl (λ acc item, <[item.1 := f item.1 item.2]> acc) acc l !! v
     = Some (f v ws)) ∧
  (v ∉ l.*1 →
     foldl (λ acc item, <[item.1 := f item.1 item.2]> acc) acc l !! v = acc !! v).
Proof.
  revert acc. induction l as [|[k ws0] l IH]; intros acc Hnd; simpl.
  - split; [by intros ? ?%elem_of_nil | done].
  - apply NoDup_cons in Hnd as [Hk Hnd]. simpl in Hk.
    destruct (IH (<[k := f k ws0]> acc) Hnd) as [IH1 IH2]. split.
    + intros ws [Heq|Hin]%elem_of_cons.
      * inversion Heq; subst. rewrite IH2 by done. apply lookup_insert_eq.
      * by apply IH1.
    + intros Hv. apply not_elem_of_cons in Hv as [Hne Hv].
      rewrite IH2 by done. by rewrite lookup_insert_ne.
Qed.

Lemma enforce_node_consistency_lookup (D : Domains) (v : Var.t) :
  enforce_node_consistency D !! v = node_filter v <$> D !! v.
Proof.
  unfold enforce_node_consistency.
  pose proof (NoDup_fst_map_to_list D) as Hnd.
  destruct (foldl_insert_lookup node_filter (map_to_list D) D v Hnd) as [H1 H2].
  destruct (D !! v) as [ws|] eqn:Hv; simpl.
  - apply H1. by apply elem_of_map_to_list.
  - rewrite H2; [done|]. intros [[k ws] [Hk Hin]]%list_elem_of_fmap.
    simpl in Hk; subst k. apply elem_of_map_to_list in Hin. congruence.
Qed.

(** C8: after [enforce_node_consistency], every word left in [domain[v]]
    has the length of [v], and the words removed from [domain[v]] are
    exactly those of a different length. *)
Theorem enforce_node_consistency_spec (D : Domains) (v : Var.t) (ws : list string) :
  D !! v = Some ws →
  ∃ ws', enforce_node_consistency D !! v = Some ws' ∧
    (∀ w, w ∈ ws' → w ∈ ws ∧ String.length w = Var.length v) ∧
    (∀ w, w ∈ ws → (w ∉ ws' ↔ String.length w ≠ Var.length v)).
Proof.
  intros Hv. exists (node_filter v ws).
  rewrite enforce_node_consistency_lookup, Hv. split; [done|].
  unfold node_filter. split.
  - intros w Hw. apply list_elem_of_filter in Hw. tauto.
  - intros w Hw. rewrite list_elem_of_filter. split; [tauto|].
    intros Hne [Hlen _]. done.
Qed.

(** ** Dicts *)

Lemma dict_get_Some_elem (a : Dict) (v : Var.t) (w : string) :
  dict_get a v = Some w → (v, w) ∈ a.
Proof.
  induction a as [|[k x] a IH]; simpl; [done|].
  case_decide; subst.
  - intros [= ->]. by left.
  - intros H1. right. by apply IH.
Qed.

Lemma dict_get_None (a : Dict) (v : Var.t) :
  dict_get a v = None ↔ v ∉ dict_keys a.
Proof.
  unfold dict_keys. induction a as [|[k x] a IH]; simpl.
  - split; [intros _; apply not_elem_of_nil | done].
  - rewrite not_elem_of_cons. case_decide; subst; split; try done.
    + intros [Hne _]. done.
    + intros Hg. split; [done|]. by apply IH.
    + intros [_ Hg]. by apply IH.
Qed.

Lemma dict_get_is_Some (a : Dict) (v : Var.t) :
  is_Some (dict_get a v) ↔ v ∈ dict_keys a.
Proof.
  destruct (dict_get a v) eqn:Hg.
  - split; [|by eauto]. intros _.
    apply dict_get_Some_elem in Hg. unfold dict_keys.
    apply list_elem_of_fmap. by exists (v, s).
  - apply dict_get_None in Hg. split; [by intros [? ?]|done].
Qed.

Lemma dict_set_fresh (a : Dict) (v : Var.t) (w : string) :
  v ∉ dict_keys a → dict_set a v w = a ++ [(v, w)].
Proof.
  unfold dict_keys. induction a as [|[k x] a IH]; simpl; [done|].
  intros [Hne Hv]%not_elem_of_cons.
  rewrite decide_False by done. by rewrite IH.
Qed.

(** ** [sorted] returns a stable, ascending permutation *)

Lemma insert_by_key_perm {A : Type} (k : nat) (x : A) (l : list (nat * A)) :
  insert_by_key k x l ≡ₚ (k, x) :: l.
Proof.
  induction l as [|[k' y] l IH]; simpl; [done|].
  case_decide; [done|]. rewrite IH. apply Permutation_swap.
Qed.

Lemma sort_by_key_perm {A : Type} (l : list (nat * A)) : sort_by_key l ≡ₚ l.
Proof.
  induction l as [|[k x] l IH]; simpl; [done|].
  by rewrite insert_by_key_perm, IH.
Qed.

Lemma insert_by_key_sorted {A : Type} (k : nat) (x : A) (l : list (nat * A)) :
  StronglySorted key_le l → StronglySorted key_le (insert_by_key k x l).
Proof.
  induction l as [|[k' y] l IH]; simpl; intros Hs.
  - by repeat constructor.
  - apply StronglySorted_inv in Hs as [Hs Hall]. case_decide.
    + constructor; [by constructor|]. constructor; [done|].
      eapply Forall_impl; [exact Hall|]. unfold key_le. simpl. intros ? ?. lia.
    + constructor; [by apply IH|].
      rewrite insert_by_key_perm. constructor; [|done].
      unfold key_le. simpl. lia.
Qed.

Lemma sort_by_key_sorted {A : Type} (l : list (nat * A)) :
  StronglySorted key_le (sort_by_key l).
Proof.
  induction l as [|[k x] l IH]; simpl; [constructor|].
  by apply insert_by_key_sorted.
Qed.

Lemma with_keys_Ok {A : Type} (key : A → Res nat) (l : list A)
    (kl : list (nat * A)) :
  with_keys key l = Ok kl → kl.*2 = l ∧ Forall (λ p, key p.2 = Ok p.1) kl.
Proof.
  revert kl. induction l as [|x l IH]; simpl; intros kl.
  - intros [= <-]. by split.
  - intros (k & Hk & (rest & Hrest & [= <-])%bind_Ok)%bind_Ok.
    destruct (IH _ Hrest) as [<- Hall]. split; [done|]. by constructor.
Qed.

Lemma with_keys_total {A : Type} (key : A → Res nat) (l : list A) :
  Forall (λ x, ∃ k, key x = Ok k) l → ∃ kl, with_keys key l = Ok kl.
Proof.
  induction 1 as [|x l [k Hk] _ [kl IH]]; simpl; [by eexists|].
  rewrite Hk, IH. simpl. by eexists.
Qed.

Lemma sorted_Ok {A : Type} (key : A → Res nat) (l l' : list A) :
  sorted key l = Ok l' →
  l' ≡ₚ l ∧ Forall (λ x, ∃ k, key x = Ok k) l' ∧ StronglySorted (by_key key) l'.
Proof.
  unfold sorted. intros (kl & Hkl & [= <-])%bind_Ok.
  destruct (with_keys_Ok _ _ _ Hkl) as [<- Hall].
  assert (Forall (λ p, key p.2 = Ok p.1) (sort_by_key kl)) as Hall'
    by by rewrite sort_by_key_perm.
  split; [by rewrite sort_by_key_perm|]. split.
  - rewrite Forall_fmap. eapply Forall_impl; [exact Hall'|]. simpl. eauto.
  - pose proof (sort_by_key_sorted kl) as Hs.
    induction Hs as [|p l Hs IH Hp]; csimpl; [constructor|].
    apply Forall_cons in Hall' as [Hkp Hall'].
    constructor; [by apply IH|].
    rewrite Forall_fmap. rewrite Forall_forall in Hp, Hall'. apply Forall_forall.
    intros q Hq. exists p.1, q.1. simpl.
    repeat split; [done|by apply Hall'|by apply Hp].
Qed.

Lemma sorted_total {A : Type} (key : A → Res nat) (l : list A) :
  Forall (λ x, ∃ k, key x = Ok k) l → ∃ l', sorted key l = Ok l'.
Proof.
  intros [kl Hkl]%with_keys_total. unfold sorted. rewrite Hkl. simpl. by eexists.
Qed.

(** ** [consistent] decides its specification *)

Lemma length_remove_dups_le {A : Type} `{EqDecision A} (l : list A) :
  List.length (remove_dups l) ≤ List.length l.
Proof.
  induction l as [|x l IH]; simpl; [done|].
  destruct (decide_rel _ x l); simpl; lia.
Qed.

Lemma length_remove_dups_NoDup {A : Type} `{EqDecision A} (l : list A) :
  List.length (remove_dups l) = List.length l ↔ NoDup l.
Proof.
  induction l as [|x l IH]; simpl.
  - split; [constructor|done].
  - pose proof (length_remove_dups_le l) as Hle.
    rewrite NoDup_cons. destruct (decide_rel _ x l); simpl.
    + split; [lia|]. intros [? _]. done.
    + rewrite <- IH. split; [intros [=]; done | intros [_ ->]; done].
Qed.

Lemma check_neighbors_Ok_true (cw : Crossword) (a : Dict) (var : Var.t)
    (word : string) (ns : list Var.t) :
  check_neighbors cw a var word ns = Ok true ↔
  ∀ n wn, n ∈ ns → dict_get a n = Some wn →
    ∃ i j c, overlaps cw !! (var, n) = Some (Some (i, j)) ∧
             String.get i word = Some c ∧ String.get j wn = Some c.
Proof.
  induction ns as [|neighbor ns IH]; simpl.
  - split; [by intros _ ? ? ?%elem_of_nil | done].
  - destruct (dict_get a neighbor) as [nw|] eqn:Hg.
    + split.
      * intros ([i j] & Hij & (c1 & Hc1 & (c2 & Hc2 & Hrest)%bind_Ok)%bind_Ok)%bind_Ok.
        simpl in *. case_decide as Hne; [done|].
        try apply dec_stable in Hne. subst c2.
        intros n wn [->|Hin]%elem_of_cons Hn.
        -- rewrite Hg in Hn. injection Hn as <-. exists i, j, c1.
           by rewrite <- unpack_overlap_Ok, <- !getitem_Ok.
        -- by apply (proj1 IH Hrest).
      * intros H1.
        destruct (H1 neighbor nw) as (i & j & c & Hij & Hc1 & Hc2);
          [by left|done|].
        apply unpack_overlap_Ok in Hij. apply getitem_Ok in Hc1, Hc2.
        rewrite Hij. simpl. rewrite Hc1. simpl. rewrite Hc2. simpl.
        rewrite decide_False by (intros Hne; by apply Hne).
        apply IH. intros n wn Hin. apply H1. by right.
    + rewrite IH. split.
      * intros H1 n wn [->|Hin]%elem_of_cons Hn; [congruence|by apply H1].
      * intros H1 n wn Hin. apply H1. by right.
Qed.

Lemma check_items_Ok_true (cw : Crossword) (a items : Dict) :
  check_items cw a items = Ok true ↔
  ∀ v w, (v, w) ∈ items →
    String.length w = Var.length v ∧
    ∀ n wn, n ∈ neighbors cw v → dict_get a n = Some wn →
      ∃ i j c, overlaps cw !! (v, n) = Some (Some (i, j)) ∧
               String.get i w = Some c ∧ String.get j wn = Some c.
Proof.
  induction items as [|[var word] items IH]; simpl.
  - split; [by intros _ ? ? ?%elem_of_nil | done].
  - case_decide as Hlen.
    + split; [done|]. intros H1. destruct (H1 var word) as [Hl _]; [by left|done].
    + try apply dec_stable in Hlen. split.
      * intros (ok & Hok & Hrest)%bind_Ok. destruct ok; [|done].
        intros v w [Heq|Hin]%elem_of_cons.
        -- inversion Heq; subst. split; [done|].
           by apply check_neighbors_Ok_true.
        -- by apply (proj1 IH Hrest).
      * intros H1. destruct (H1 var word) as [_ Hn]; [by left|].
        apply check_neighbors_Ok_true in Hn. rewrite Hn. simpl.
        apply IH. intros v w Hin. apply H1. by right.
Qed.

Lemma consistent_Ok_true (cw : Crossword) (a : Dict) :
  consistent cw a = Ok true ↔ consistent_spec cw a.
Proof.
  unfold consistent, consistent_spec. case_decide as Hlen.
  - split; [done|]. intros [Hnd _].
    apply length_remove_dups_NoDup in Hnd. congruence.
  - try apply dec_stable in Hlen. symmetry in Hlen.
    apply length_remove_dups_NoDup in Hlen.
    rewrite check_items_Ok_true. split.
    + intros H1. split; [done|]. split.
      * intros v w Hin. by apply H1.
      * intros v w n wn Hin. by apply H1.
    + intros (_ & H1 & H2) v w Hin. split; [by apply H1|].
      intros n wn. by apply H2.
Qed.

Lemma consistent_empty (cw : Crossword) : consistent cw [] = Ok true.
Proof. reflexivity. Qed.

Lemma assignment_complete_true (cw : Crossword) (a : Dict) :
  assignment_complete cw a = true ↔
  ∀ v, v ∈ variables cw ↔ v ∈ dict_keys a.
Proof.
  unfold assignment_complete. rewrite bool_decide_eq_true, !Forall_forall.
  split.
  - intros [H1 H2] v. split; [apply H2 | apply H1].
  - intros H1. split; intros v Hv; by apply H1.
Qed.

(** ** [select_unassigned_variable] *)

Lemma select_unassigned_variable_Ok (cw : Crossword) (D : Domains)
    (a : Dict) (var : Var.t) :
  select_unassigned_variable cw D a = Ok var →
  var ∈ variables cw ∧ (var ∉ dict_keys a) ∧
  ∃ dv, D !! var = Some dv ∧
    ∀ v, v ∈ variables cw → v ∉ dict_keys a →
      ∃ d, D !! v = Some d ∧ List.length dv ≤ List.length d.
Proof.
  unfold select_unassigned_variable.
  intros (l & Hl & Hhd)%bind_Ok.
  destruct l as [|var' l]; [done|]. injection Hhd as ->.
  apply sorted_Ok in Hl as (Hperm & Hkeys & Hsorted).
  assert (∀ v, v ∈ var :: l ↔ v ∈ variables cw ∧ v ∉ dict_keys a) as Hmem.
  { intros v. by rewrite Hperm, list_elem_of_difference. }
  destruct (proj1 (Hmem var)) as [Hvar Hfresh]; [by left|].
  split; [done|]. split; [done|].
  apply Forall_cons in Hkeys as [[k (dv & Hdv & [= <-])%bind_Ok] Hkeys].
  apply domain_of_Ok in Hdv. exists dv. split; [done|].
  intros v Hv Hv'. assert (v ∈ var :: l) as Hin by by apply Hmem.
  apply elem_of_cons in Hin as [->|Hin].
  - exists dv. by split.
  - apply StronglySorted_inv in Hsorted as [_ Hle].
    rewrite Forall_forall in Hle.
    destruct (Hle v Hin) as (kx & ky & Hkx & Hky & Hxy).
    apply bind_Ok in Hkx as (dx & Hdx & [= <-]).
    apply bind_Ok in Hky as (d & Hd & [= <-]).
    apply domain_of_Ok in Hdx, Hd. exists d. split; [done|]. congruence.
Qed.

Lemma select_unassigned_variable_total (cw : Crossword) (D : Domains) (a : Dict) :
  (∀ v, v ∈ variables cw → is_Some (D !! v)) →
  (∃ v, v ∈ variables cw ∧ v ∉ dict_keys a) →
  ∃ var, select_unassigned_variable cw D a = Ok var.
Proof.
  intros Hkeys (v & Hv & Hfresh). unfold select_unassigned_variable.
  destruct (sorted_total (λ var, let! d := domain_of D var in Ok (List.length d))
              (list_difference (variables cw) (dict_keys a))) as [l Hl].
  { apply Forall_forall. intros x [Hx _]%list_elem_of_difference.
    destruct (Hkeys x Hx) as [d Hd]. apply domain_of_Ok in Hd.
    rewrite Hd. simpl. by eexists. }
  rewrite Hl. simpl. destruct l as [|var l]; [|by eexists].
  apply sorted_Ok in Hl as (Hperm & _).
  assert (v ∈ list_difference (variables cw) (dict_keys a)) as Hin
    by by apply list_elem_of_difference.
  rewrite <- Hperm in Hin. by apply elem_of_nil in Hin.
Qed.

(** ** [revise] on a pair without overlap *)

Lemma revise_no_overlap (cw : Crossword) (x y : Var.t) (D : Domains) :
  overlaps cw !! (x, y) = Some None → revise cw x y D = (Raise TypeError, D).
Proof. intros H1. unfold revise, unpack_overlap. by rewrite H1. Qed.

Lemma revise_missing_overlap (cw : Crossword) (x y : Var.t) (D : Domains) :
  overlaps cw !! (x, y) = None → revise cw x y D = (Raise KeyError, D).
Proof. intros H1. unfold revise, unpack_overlap. by rewrite H1. Qed.

(** C4: for two variables that do not intersect, [revise] is claimed to
    return [False] without raising.  On two parallel rows, whose overlap
    entry is [None], the call raises [TypeError] when it unpacks the entry
    (and leaves the domains as they were). *)
Theorem revise_not_intersecting_raises :
  overlaps Examples.rows !! (Examples.row0, Examples.row2) = Some None ∧
  ∀ D, revise Examples.rows Examples.row0 Examples.row2 D = (Raise TypeError, D).
Proof.
  assert (overlaps Examples.rows !! (Examples.row0, Examples.row2) = Some None)
    as H1 by by vm_compute.
  split; [done|]. intros D. by apply revise_no_overlap.
Qed.

(** C5: among the variables tied on the smallest domain,
    [select_unassigned_variable] is claimed to return one with the most
    neighbours.  On the structure [bridge], with the domains that [solve]
    has pruned, the three variables have two words each; the call returns
    [left], which has one neighbour, although [top] has two. *)
Theorem select_unassigned_variable_ignores_degree :
  let D := (ac3 Examples.bridge None
              (enforce_node_consistency (init_domains Examples.bridge))).2 in
  select_unassigned_variable Examples.bridge D [] = Ok Examples.left ∧
  List.length <$> D !! Examples.left = Some 2 ∧
  List.length <$> D !! Examples.top = Some 2 ∧
  List.length <$> D !! Examples.right = Some 2 ∧
  List.length (neighbors Examples.bridge Examples.left) = 1 ∧
  List.length (neighbors Examples.bridge Examples.top) = 2.
Proof. by vm_compute. Qed.

(** ** The heap: [backtrack] only writes to the dicts it allocates *)

Lemma prefix_insert_ge (h h' : list Dict) (k : nat) (a : Dict) :
  h `prefix_of` h' → List.length h ≤ k → h `prefix_of` <[k := a]> h'.
Proof.
  intros [t ->] Hk. rewrite insert_app_r_alt by done. by eexists.
Qed.

Lemma prefix_deref (st st' : State) (l : loc) :
  heap st `prefix_of` heap st' → l < List.length (heap st) →
  deref st' l = deref st l.
Proof.
  intros [t Ht] Hl. unfold deref. rewrite Ht. by rewrite lookup_app_l.
Qed.

Lemma deref_alloc (a : Dict) (st : State) :
  deref (alloc a st).2 (alloc a st).1 = a.
Proof.
  unfold deref, alloc. simpl. by rewrite list_lookup_middle.
Qed.

(** [try_value] with the heap operations carried out: the copy extended
    with [var := value] sits at the first free location. *)
Lemma try_value_unfold (cw : Crossword)
    (rec : loc → State → Res (option loc) * State)
    (asg : loc) (var : Var.t) (value : string) (st : State) :
  let new := List.length (heap st) in
  let a' := dict_set (deref st asg) var value in
  try_value cw rec asg var value st =
  match ac3 cw (Some ((λ neighbor, (neighbor, var)) <$> neighbors cw var))
            (domains st) with
  | (Ok inferences, D') =>
      let st3 := mkState D' (heap st ++ [a']) in
      match consistent cw a' with
      | Ok c =>
          if c && inferences then
            match rec new st3 with
            | (Ok result, st4) =>
                if truthy st4 result then (Ok result, st4)
                else (Ok None, store new (dict_pop (deref st4 new) var) st4)
            | (Raise e, st4) => (Raise e, st4)
            | (OutOfFuel, st4) => (OutOfFuel, st4)
            end
          else (Ok None, st3)
      | Raise e => (Raise e, st3)
      | OutOfFuel => (OutOfFuel, st3)
      end
  | (Raise e, D') => (Raise e, mkState D' (heap st ++ [a']))
  | (OutOfFuel, D') => (OutOfFuel, mkState D' (heap st ++ [a']))
  end.
Proof.
  assert (∀ a b : Dict,
    <[List.length (heap st) := b]> (heap st ++ [a]) = heap st ++ [b]) as Hins.
  { intros a b. rewrite insert_app_r_alt by done. by rewrite Nat.sub_diag. }
  assert (∀ D (a : Dict),
    deref (mkState D (heap st ++ [a])) (List.length (heap st)) = a) as Hnew.
  { intros D a. unfold deref. simpl. by rewrite list_lookup_middle. }
  assert (∀ D (a b : Dict),
    store (List.length (heap st)) b (mkState D (heap st ++ [a]))
    = mkState D (heap st ++ [b])) as Hstore.
  { intros D a b. unfold store. simpl. by rewrite Hins. }
  unfold try_value, alloc. cbv beta iota zeta.
  rewrite !Hnew, !Hstore. unfold with_domains. cbn [domains heap].
  destruct (ac3 _ _ _) as [[inferences|e|] D']; by rewrite ?Hnew.
Qed.

Section frame.
Context (cw : Crossword) (rec : loc → State → Res (option loc) * State).
Hypothesis rec_prefix : ∀ l st r st',
  rec l st = (r, st') → heap st `prefix_of` heap st'.

Lemma try_value_heap_prefix (asg : loc) (var : Var.t) (value : string)
    (st : State) (r : Res (option loc)) (st' : State) :
  try_value cw rec asg var value st = (r, st') → heap st `prefix_of` heap st'.
Proof.
  rewrite try_value_unfold. cbv zeta.
  set (h2 := heap st ++ [dict_set (deref st asg) var value]).
  assert (heap st `prefix_of` h2) as Hh2 by by apply prefix_app_r.
  destruct (ac3 _ _ _) as [[inferences|e|] D'];
    [|by intros [= <- <-]|by intros [= <- <-]].
  destruct (consistent _ _) as [c|e|];
    [|by intros [= <- <-]|by intros [= <- <-]].
  destruct (c && inferences); [|by intros [= <- <-]].
  destruct (rec _ _) as [[result|e|] st4] eqn:Hrec;
    apply rec_prefix in Hrec; simpl in Hrec;
    [|intros [= <- <-]; by etrans|intros [= <- <-]; by etrans].
  destruct (truthy st4 result); intros [= <- <-]; [by etrans|].
  simpl. apply prefix_insert_ge; [by etrans|done].
Qed.

Lemma backtrack_values_heap_prefix (asg : loc) (var : Var.t)
    (values : list string) (st : State) (r : Res (option loc)) (st' : State) :
  backtrack_values cw rec asg var values st = (r, st') →
  heap st `prefix_of` heap st'.
Proof.
  revert st. induction values as [|value values IH]; simpl; intros st.
  - by intros [= <- <-].
  - destruct (try_value _ _ _ _ _ _) as [r1 st1] eqn:Htry.
    apply try_value_heap_prefix in Htry.
    destruct r1 as [[l|]|e|]; try (intros [= <- <-]; done).
    intros Hrest%IH. by etrans.
Qed.
End frame.

Lemma backtrack_heap_prefix (fuel : nat) (cw : Crossword) (asg : loc)
    (st : State) (r : Res (option loc)) (st' : State) :
  backtrack fuel cw asg st = (r, st') → heap st `prefix_of` heap st'.
Proof.
  revert asg st r st'. induction fuel as [|n IH]; simpl; intros asg st r st'.
  - by intros [= <- <-].
  - destruct (assignment_complete _ _); [by intros [= <- <-]|].
    destruct (select_unassigned_variable _ _ _) as [var|e|];
      [|by intros [= <- <-]|by intros [= <- <-]].
    destruct (order_domain_values _ _ _ _) as [values|e|];
      [|by intros [= <- <-]|by intros [= <- <-]].
    by apply backtrack_values_heap_prefix.
Qed.

(** C10: [backtrack] does not change the dict it is given: whatever the
    call does and returns, the assignment at the location passed to it
    holds the same entries afterwards. *)
Theorem backtrack_preserves_assignment (fuel : nat) (cw : Crossword)
    (asg : loc) (st : State) (r : Res (option loc)) (st' : State) :
  asg < List.length (heap st) →
  backtrack fuel cw asg st = (r, st') →
  heap st' !! asg = heap st !! asg ∧ deref st' asg = deref st asg.
Proof.
  intros Hasg Hbt. apply backtrack_heap_prefix in Hbt.
  split; [|by apply prefix_deref].
  destruct Hbt as [t ->]. by rewrite lookup_app_l.
Qed.

(** ** Soundness of the search *)

Section sound.
Context (cw : Crossword) (rec : loc → State → Res (option loc) * State).
Hypothesis rec_sound : ∀ l st l' st',
  consistent cw (deref st l) = Ok true →
  rec l st = (Ok (Some l'), st') →
  assignment_complete cw (deref st' l') = true ∧
  consistent cw (deref st' l') = Ok true.

Lemma try_value_sound (asg : loc) (var : Var.t) (value : string)
    (st : State) (l' : loc) (st' : State) :
  try_value cw rec asg var value st = (Ok (Some l'), st') →
  assignment_complete cw (deref st' l') = true ∧
  consistent cw (deref st' l') = Ok true.
Proof.
  rewrite try_value_unfold. cbv zeta.
  destruct (ac3 _ _ _) as [[inferences|e|] D']; [|done|done].
  destruct (consistent _ _) as [c|e|] eqn:Hc; [|done|done].
  destruct c, inferences; simpl; try done.
  destruct (rec _ _) as [[result|e|] st4] eqn:Hrec; [|done|done].
  destruct (truthy st4 result) eqn:Ht; [|done].
  intros [= -> ->]. eapply rec_sound; [|exact Hrec].
  unfold deref. simpl. by rewrite list_lookup_middle.
Qed.

Lemma backtrack_values_sound (asg : loc) (var : Var.t) (values : list string)
    (st : State) (l' : loc) (st' : State) :
  backtrack_values cw rec asg var values st = (Ok (Some l'), st') →
  assignment_complete cw (deref st' l') = true ∧
  consistent cw (deref st' l') = Ok true.
Proof.
  revert st. induction values as [|value values IH]; simpl; intros st; [done|].
  destruct (try_value _ _ _ _ _ _) as [r1 st1] eqn:Htry.
  destruct r1 as [[l|]|e|]; try done.
  - intros [= -> ->]. by eapply try_value_sound.
  - apply IH.
Qed.
End sound.

Lemma backtrack_sound (fuel : nat) (cw : Crossword) (asg : loc) (st : State)
    (l' : loc) (st' : State) :
  consistent cw (deref st asg) = Ok true →
  backtrack fuel cw asg st = (Ok (Some l'), st') →
  assignment_complete cw (deref st' l') = true ∧
  consistent cw (deref st' l') = Ok true.
Proof.
  revert asg st l' st'. induction fuel as [|n IH]; simpl; intros asg st l' st' Hc;
    [done|].
  destruct (assignment_complete _ _) eqn:Hcomplete; [by intros [= <- <-]|].
  destruct (select_unassigned_variable _ _ _) as [var|e|]; [|done|done].
  destruct (order_domain_values _ _ _ _) as [values|e|]; [|done|done].
  apply backtrack_values_sound. intros l st0 l0 st0'. apply IH.
Qed.

(** C2: whatever [solve] returns other than [None] is a dict that maps
    every variable of the structure to a word and passes [consistent]: its
    words are pairwise distinct, each has the length of its variable, and
    assigned neighbours agree at their overlap. *)
Theorem solve_sound (cw : Crossword) (st : State) (l : loc) (st' : State) :
  solve cw st = (Ok (Some l), st') →
  assignment_complete cw (deref st' l) = true ∧
  (∀ v, v ∈ variables cw → ∃ w, dict_get (deref st' l) v = Some w) ∧
  consistent cw (deref st' l) = Ok true ∧
  consistent_spec cw (deref st' l).
Proof.
  unfold solve.
  destruct (ac3 _ _ _) as [[b|e|] D2]; [|done|done].
  destruct (alloc [] (with_domains D2 st)) as [asg st0] eqn:Halloc.
  intros Hbt. apply backtrack_sound in Hbt as [Hcomplete Hcons].
  - split; [done|]. split; [|split; [done|by apply consistent_Ok_true]].
    intros v Hv.
    apply (proj1 (assignment_complete_true _ _) Hcomplete) in Hv.
    by apply dict_get_is_Some in Hv.
  - pose proof (deref_alloc [] (with_domains D2 st)) as Hd.
    rewrite Halloc in Hd. simpl in Hd. rewrite Hd. apply consistent_empty.
Qed.

(** ** [revise] *)

Lemma agree_sym (i j : nat) (w w' : string) : agree i j w w' → agree j i w' w.
Proof. intros (c & H1 & H2). by exists c. Qed.

Lemma has_match_Ok (i j : nat) (wx : string) (dy : list string) (m : bool) :
  has_match i j wx dy = Ok m →
  (m = true ↔ ∃ w', w' ∈ dy ∧ agree i j wx w').
Proof.
  induction dy as [|wy dy IH]; simpl.
  - intros [= <-]. split; [done|]. by intros (w' & ?%elem_of_nil & _).
  - intros (cx & Hcx%getitem_Ok & (cy & Hcy%getitem_Ok & Hrest)%bind_Ok)%bind_Ok.
    case_decide as Hc.
    + injection Hrest as <-. split; [|done]. intros _. exists wy.
      split; [by left|]. exists cx. by subst.
    + rewrite (IH Hrest). split.
      * intros (w' & Hin & Hag). exists w'. split; [by right|done].
      * intros (w' & [->|Hin]%elem_of_cons & Hag); [|by exists w'].
        destruct Hag as (c & H1 & H2). congruence.
Qed.

Lemma has_match_total (i j : nat) (wx : string) (dy : list string) :
  i < String.length wx → Forall (λ w', j < String.length w') dy →
  ∃ m, has_match i j wx dy = Ok m.
Proof.
  intros [cx Hcx]%getitem_in_bounds. induction 1 as [|wy dy Hj _ [m IH]]; simpl.
  - by eexists.
  - apply getitem_in_bounds in Hj as [cy Hcy]. rewrite Hcx, Hcy. simpl.
    case_decide; by eexists.
Qed.

Lemma has_match_fuel (i j : nat) (wx : string) (dy : list string) :
  has_match i j wx dy ≠ OutOfFuel.
Proof.
  induction dy as [|wy dy IH]; simpl; [done|].
  unfold getitem. destruct (String.get i wx); simpl; [|done].
  destruct (String.get j wy); simpl; [|done]. by case_decide.
Qed.

Lemma collect_to_remove_Ok (i j : nat) (D : Domains) (y : Var.t)
    (dx rem : list string) :
  collect_to_remove i j D y dx = Ok rem →
  (∀ w, w ∈ rem → w ∈ dx ∧ ¬ supported D y i j w) ∧
  (∀ w, w ∈ dx → w ∉ rem → supported D y i j w).
Proof.
  revert rem. induction dx as [|wx dx IH]; simpl; intros rem.
  - intros [= <-]. split; [by intros w ?%elem_of_nil|by intros w ?%elem_of_nil].
  - intros (dy & Hdy%domain_of_Ok &
            (m & Hm%has_match_Ok & (rest & Hrest & [= <-])%bind_Ok)%bind_Ok)%bind_Ok.
    destruct (IH _ Hrest) as [IH1 IH2].
    assert (m = true ↔ supported D y i j wx) as Hsup.
    { rewrite Hm. unfold supported. split.
      - intros (w' & Hin & Hag). by exists dy, w'.
      - intros (dy' & w' & Hdy' & Hin & Hag). exists w'.
        rewrite Hdy in Hdy'. by injection Hdy' as <-. }
    destruct m.
    + split.
      * intros w Hw. destruct (IH1 w Hw). split; [by right|done].
      * intros w [->|Hin]%elem_of_cons Hw; [by apply Hsup|by apply IH2].
    + split.
      * intros w [->|Hw]%elem_of_cons.
        -- split; [by left|]. intros Hs. by apply Hsup in Hs.
        -- destruct (IH1 w Hw). split; [by right|done].
      * intros w [->|Hin]%elem_of_cons Hw.
        -- exfalso. apply Hw. by left.
        -- apply IH2; [done|]. intros Hr. apply Hw. by right.
Qed.

Lemma collect_to_remove_total (i j : nat) (D : Domains) (y : Var.t)
    (dx dy : list string) :
  D !! y = Some dy →
  Forall (λ w, i < String.length w) dx →
  Forall (λ w', j < String.length w') dy →
  ∃ rem, collect_to_remove i j D y dx = Ok rem.
Proof.
  intros Hdy Hdx Hj. apply domain_of_Ok in Hdy.
  induction Hdx as [|wx dx Hi _ [rest IH]]; simpl; [by eexists|].
  rewrite Hdy. simpl.
  destruct (has_match_total i j wx dy Hi Hj) as [m ->]. simpl.
  rewrite IH. simpl. by eexists.
Qed.

Lemma collect_to_remove_fuel (i j : nat) (D : Domains) (y : Var.t)
    (dx : list string) :
  collect_to_remove i j D y dx ≠ OutOfFuel.
Proof.
  induction dx as [|wx dx IH]; simpl; [done|].
  unfold domain_of. destruct (D !! y) as [dy|]; simpl; [|done].
  pose proof (has_match_fuel i j wx dy) as Hm.
  destruct (has_match i j wx dy); simpl; [|done|done].
  destruct (collect_to_remove i j D y dx); simpl; done.
Qed.

Lemma list_difference_nil_r (l : list string) : list_difference l [] = l.
Proof.
  induction l as [|x l IH]; simpl; [done|].
  destruct (decide_rel (∈) x []) as [Hx|_]; [by apply elem_of_nil in Hx|].
  by rewrite IH.
Qed.

Lemma length_list_difference_le {A : Type} `{EqDecision A} (l k : list A) :
  List.length (list_difference l k) ≤ List.length l.
Proof.
  induction l as [|x l IH]; simpl; [done|].
  destruct (decide_rel (∈) x k); simpl; lia.
Qed.

Lemma length_list_difference_lt (l k : list string) (w : string) :
  w ∈ l → w ∈ k → List.length (list_difference l k) < List.length l.
Proof.
  induction l as [|x l IH]; simpl; [by intros ?%elem_of_nil|].
  pose proof (length_list_difference_le l k).
  intros [->|Hin]%elem_of_cons Hk.
  - destruct (decide_rel (∈) x k); [lia|done].
  - specialize (IH Hin Hk). destruct (decide_rel (∈) x k); simpl; lia.
Qed.

(** What a call of [revise] that returns has done. *)
Lemma revise_Ok (cw : Crossword) (x y : Var.t) (D : Domains) (b : bool)
    (D' : Domains) :
  revise cw x y D = (Ok b, D') →
  ∃ i j dx dx',
    overlaps cw !! (x, y) = Some (Some (i, j)) ∧
    D !! x = Some dx ∧ D' = <[x := dx']> D ∧
    (∀ w, w ∈ dx' ↔ w ∈ dx ∧ supported D y i j w) ∧
    (b = false → dx' = dx) ∧
    (b = true → List.length dx' < List.length dx ∧
                ∃ w, w ∈ dx ∧ ¬ supported D y i j w).
Proof.
  unfold revise.
  destruct (unpack_overlap cw x y) as [[i j]|e|] eqn:Hij; [|done|done].
  destruct (domain_of D x) as [dx|e|] eqn:Hdx; [|done|done].
  destruct (collect_to_remove i j D y dx) as [rem|e|] eqn:Hrem; [|done|done].
  intros [= <- <-]. apply unpack_overlap_Ok in Hij. apply domain_of_Ok in Hdx.
  apply collect_to_remove_Ok in Hrem as [Hrem1 Hrem2].
  exists i, j, dx, (list_difference dx rem).
  split; [done|]. split; [done|]. split; [done|]. split; [|split].
  - intros w. rewrite list_elem_of_difference. split.
    + intros [Hin Hnot]. split; [done|]. by apply Hrem2.
    + intros [Hin Hs]. split; [done|]. intros Hr. by destruct (Hrem1 w Hr).
  - intros Hb. apply bool_decide_eq_false in Hb. apply dec_stable in Hb.
    subst rem. apply list_difference_nil_r.
  - intros Hb. apply bool_decide_eq_true in Hb.
    destruct rem as [|w rem]; [done|].
    destruct (Hrem1 w) as [Hin Hns]; [by left|]. split; [|by exists w].
    apply (length_list_difference_lt _ _ w); [done|by left].
Qed.

Lemma revise_Raise (cw : Crossword) (x y : Var.t) (D : Domains) (e : exn)
    (D' : Domains) :
  revise cw x y D = (Raise e, D') → D' = D.
Proof.
  unfold revise.
  destruct (unpack_overlap cw x y) as [[i j]|e'|]; [|by intros [= _ <-]|done].
  destruct (domain_of D x) as [dx|e'|]; [|by intros [= _ <-]|done].
  destruct (collect_to_remove i j D y dx) as [rem|e'|]; [done|by intros [= _ <-]|done].
Qed.

Lemma revise_fuel (cw : Crossword) (x y : Var.t) (D : Domains) :
  (revise cw x y D).1 ≠ OutOfFuel.
Proof.
  unfold revise, unpack_overlap, domain_of.
  destruct (overlaps cw !! (x, y)) as [[[i j]|]|]; simpl; [|done|done].
  destruct (D !! x) as [dx|]; simpl; [|done].
  pose proof (collect_to_remove_fuel i j D y dx).
  by destruct (collect_to_remove i j D y dx).
Qed.

(** On a consistent arc, [revise] changes nothing and reports so (or
    raises). *)
Lemma revise_consistent (cw : Crossword) (x y : Var.t) (D : Domains)
    (r : Res bool) (D' : Domains) :
  arc_consistent_at cw D x y → revise cw x y D = (r, D') →
  D' = D ∧ r ≠ Ok true ∧ r ≠ OutOfFuel.
Proof.
  intros Hac Hrev. pose proof (revise_fuel cw x y D) as Hfuel.
  rewrite Hrev in Hfuel. simpl in Hfuel.
  destruct r as [[]|e|]; [| |by apply revise_Raise in Hrev|done].
  - apply revise_Ok in Hrev as (i & j & dx & dx' & Hij & Hdx & _ & _ & _ & Hb).
    destruct Hb as [_ (w & Hin & Hns)]; [done|].
    exfalso. apply Hns. by eapply Hac.
  - apply revise_Ok in Hrev as (i & j & dx & dx' & Hij & Hdx & -> & _ & Hb & _).
    rewrite Hb by done. split; [by apply insert_id|done].
Qed.

(** ** The loop of [ac3] *)

(** A property of the domain store that every revision keeps holds when
    the loop stops, however it stops. *)
Lemma ac3_loop_invariant (cw : Crossword) (I : Domains → Prop) :
  (∀ x y D b D', I D → revise cw x y D = (Ok b, D') → I D') →
  ∀ fuel arcs D r D', I D → ac3_loop fuel cw arcs D = (r, D') → I D'.
Proof.
  intros Hstep. induction fuel as [|n IH]; intros [|[x y] arcs] D r D' HI; simpl;
    try by intros [= <- <-].
  pose proof (revise_fuel cw x y D) as Hfuel.
  destruct (revise cw x y D) as [[[]|e|] D1] eqn:Hrev; simpl in Hfuel; [| | |done].
  - assert (I D1) as HI1 by by eapply Hstep.
    destruct (domain_of D1 x) as [dx|e|]; [|by intros [= <- <-]..].
    case_decide; [by intros [= <- <-]|]. by apply IH.
  - apply IH. by eapply Hstep.
  - apply revise_Raise in Hrev as ->. by intros [= <- <-].
Qed.

Lemma shrinks_refl (D : Domains) : shrinks D D.
Proof. intros v. by destruct (D !! v). Qed.

Lemma shrinks_trans (D1 D2 D3 : Domains) :
  shrinks D1 D2 → shrinks D2 D3 → shrinks D1 D3.
Proof.
  intros H12 H23 v. specialize (H12 v). specialize (H23 v).
  destruct (D1 !! v), (D2 !! v), (D3 !! v); try done. by etrans.
Qed.

Lemma shrinks_lookup (D D' : Domains) (v : Var.t) (d' : list string) :
  shrinks D D' → D' !! v = Some d' → ∃ d, D !! v = Some d ∧ d' ⊆ d.
Proof.
  intros Hs Hv. specialize (Hs v). rewrite Hv in Hs.
  destruct (D !! v) as [d|]; [by exists d|done].
Qed.

Lemma shrinks_lookup_inv (D D' : Domains) (v : Var.t) (d : list string) :
  shrinks D D' → D !! v = Some d → ∃ d', D' !! v = Some d' ∧ d' ⊆ d.
Proof.
  intros Hs Hv. specialize (Hs v). rewrite Hv in Hs.
  destruct (D' !! v) as [d'|]; [by exists d'|done].
Qed.

Lemma revise_shrinks (cw : Crossword) (x y : Var.t) (D : Domains) (b : bool)
    (D' : Domains) :
  revise cw x y D = (Ok b, D') → shrinks D D'.
Proof.
  intros (i & j & dx & dx' & _ & Hdx & -> & Hdx' & _)%revise_Ok v.
  destruct (decide (x = v)) as [->|Hne].
  - rewrite Hdx, lookup_insert_eq. intros w Hw. by apply Hdx'.
  - rewrite lookup_insert_ne by done. by destruct (D !! v).
Qed.

Lemma ac3_loop_shrinks (fuel : nat) (cw : Crossword) (arcs : list arc)
    (D : Domains) (r : Res bool) (D' : Domains) :
  ac3_loop fuel cw arcs D = (r, D') → shrinks D D'.
Proof.
  apply (ac3_loop_invariant cw (shrinks D)); [|apply shrinks_refl].
  intros x y D1 b D2 H1 H2%revise_shrinks. by eapply shrinks_trans.
Qed.

Lemma domains_ok_shrinks (cw : Crossword) (D D' : Domains) :
  domains_ok cw D → shrinks D D' → domains_ok cw D'.
Proof.
  intros [Hkeys Hnode] Hs. split.
  - intros v [d Hd]%Hkeys.
    destruct (shrinks_lookup_inv _ _ _ _ Hs Hd) as (d' & -> & _). by eexists.
  - intros v d' w Hd' Hw.
    destruct (shrinks_lookup _ _ _ _ Hs Hd') as (d & Hd & Hsub).
    eapply Hnode; [exact Hd|]. by apply Hsub.
Qed.

(** *** Termination: the fuel of [ac3] is enough *)

Lemma total_size_insert (D : Domains) (x : Var.t) (dx dx' : list string) :
  D !! x = Some dx →
  total_size (<[x := dx']> D) + List.length dx = total_size D + List.length dx'.
Proof.
  intros Hdx. unfold total_size.
  rewrite <- (map_to_list_delete D x dx Hdx).
  rewrite <- (insert_delete_eq D x dx').
  rewrite map_to_list_insert by apply lookup_delete_eq.
  simpl. lia.
Qed.

Section wf_structure.
Context (cw : Crossword) (Hwf : wf_crossword cw).

Lemma valid_arc_overlap (x y : Var.t) :
  valid_arc cw (x, y) →
  y ∈ variables cw ∧ x ≠ y ∧
  ∃ i j, overlaps cw !! (x, y) = Some (Some (i, j)) ∧
         overlaps cw !! (y, x) = Some (Some (j, i)) ∧
         i < Var.length x ∧ j < Var.length y.
Proof.
  intros [Hx Hy]. simpl in *.
  apply (wf_neighbors cw Hwf) in Hy as [[i j] Hij]; [|done].
  pose proof (wf_sym cw Hwf _ _ _ _ Hij) as Hji.
  split; [by eapply (wf_overlap_vars cw Hwf)|]. split.
  - intros ->. by eapply (wf_irrefl cw Hwf).
  - exists i, j. repeat split; try done; by eapply (wf_bounds cw Hwf).
Qed.

Lemma valid_arc_sym (x y : Var.t) : valid_arc cw (x, y) → valid_arc cw (y, x).
Proof.
  intros Harc. destruct (valid_arc_overlap x y Harc) as (Hy & _ & i & j & _ & Hji & _).
  split; [done|]. simpl. apply (wf_neighbors cw Hwf); [done|]. by eexists.
Qed.

Lemma new_arcs_valid (x y : Var.t) :
  x ∈ variables cw →
  Forall (valid_arc cw) ((λ z, (z, x)) <$> filter (.≠ y) (neighbors cw x)).
Proof.
  intros Hx. rewrite Forall_fmap. apply Forall_forall.
  intros z [_ Hz]%list_elem_of_filter. by apply valid_arc_sym.
Qed.

Lemma revise_total (x y : Var.t) (D : Domains) :
  domains_ok cw D → valid_arc cw (x, y) →
  ∃ b D', revise cw x y D = (Ok b, D').
Proof.
  intros [Hkeys Hnode] Harc.
  destruct (valid_arc_overlap x y Harc) as (Hy & _ & i & j & Hij & _ & Hi & Hj).
  destruct Harc as [Hx _]. simpl in Hx.
  destruct (Hkeys x Hx) as [dx Hdx]. destruct (Hkeys y Hy) as [dy Hdy].
  destruct (collect_to_remove_total i j D y dx dy) as [rem Hrem]; [done| | |].
  - apply Forall_forall. intros w Hw. by rewrite (Hnode _ _ _ Hdx Hw).
  - apply Forall_forall. intros w Hw. by rewrite (Hnode _ _ _ Hdy Hw).
  - unfold revise. apply unpack_overlap_Ok in Hij. apply domain_of_Ok in Hdx.
    rewrite Hij, Hdx, Hrem. by eexists _, _.
Qed.

Lemma ac3_loop_total (M : nat) :
  (∀ x, x ∈ variables cw → List.length (neighbors cw x) ≤ M) →
  ∀ fuel arcs D,
    domains_ok cw D → Forall (valid_arc cw) arcs →
    List.length arcs + S M * total_size D < fuel →
    ∃ b D', ac3_loop fuel cw arcs D = (Ok b, D').
Proof.
  intros HM. induction fuel as [|n IH]; intros arcs D Hok Harcs Hfuel; [lia|].
  destruct arcs as [|[x y] arcs]; [by eexists _, _|].
  cbn [ac3_loop]. rewrite length_cons in Hfuel.
  apply Forall_cons in Harcs as [Harc Harcs].
  destruct (revise_total x y D Hok Harc) as (b & D1 & Hrev). rewrite Hrev.
  pose proof (revise_shrinks _ _ _ _ _ _ Hrev) as Hs.
  pose proof (domains_ok_shrinks _ _ _ Hok Hs) as Hok1.
  apply revise_Ok in Hrev as (i & j & dx & dx' & _ & Hdx & -> & _ & Hf & Ht).
  pose proof (total_size_insert D x dx dx' Hdx) as Hsize.
  destruct Harc as [Hx _]. simpl in Hx. destruct b.
  - destruct Ht as [Hlt _]; [done|].
    unfold domain_of. rewrite lookup_insert_eq.
    case_decide; [by eexists _, _|].
    apply IH; [done| |].
    + apply Forall_app. split; [done|by apply new_arcs_valid].
    + rewrite length_app, length_fmap.
      pose proof (length_filter (.≠ y) (neighbors cw x)) as Hlen.
      specialize (HM x Hx). nia.
  - rewrite Hf by done. rewrite Hf in Hsize by done.
    rewrite insert_id by done. apply IH; [|done|lia].
    by rewrite Hf, insert_id in Hok1.
Qed.

Lemma max_degree_bound (D : Domains) (x : Var.t) :
  is_Some (D !! x) → List.length (neighbors cw x) ≤ max_degree cw D.
Proof.
  intros [dx Hdx]. unfold max_degree. apply max_list_elem_of_le.
  apply list_elem_of_fmap. exists x. split; [done|].
  apply list_elem_of_fmap. exists (x, dx). split; [done|].
  by apply elem_of_map_to_list.
Qed.

Lemma all_arcs_valid : Forall (valid_arc cw) (all_arcs cw).
Proof.
  apply Forall_forall. intros [x y]. unfold all_arcs.
  rewrite list_elem_of_bind. intros (x' & Hin & Hx').
  apply list_elem_of_fmap in Hin as (y' & [= -> ->] & Hy'). by split.
Qed.

(** On a node-consistent store with every variable as a key, [ac3]
    returns a boolean: it neither raises nor runs out of fuel. *)
Lemma ac3_total (arcs : option (list arc)) (D : Domains) :
  domains_ok cw D →
  match arcs with
  | Some arcs => Forall (valid_arc cw) arcs
  | None => True
  end →
  ∃ b D', ac3 cw arcs D = (Ok b, D').
Proof.
  intros Hok Harcs. unfold ac3.
  apply (ac3_loop_total (max_degree cw D)); [|done| |unfold ac3_fuel; lia].
  - intros x Hx. apply max_degree_bound. by apply Hok.
  - destruct arcs; [done|apply all_arcs_valid].
Qed.
End wf_structure.

(** *** Arc consistency when the loop ends *)

Lemma arc_consistent_at_revised (cw : Crossword) (D : Domains) (x y : Var.t)
    (i j : nat) (dx' : list string) :
  overlaps cw !! (x, y) = Some (Some (i, j)) → x ≠ y →
  (∀ w, w ∈ dx' → supported D y i j w) →
  arc_consistent_at cw (<[x := dx']> D) x y.
Proof.
  intros Hij Hne Hsup i' j' d w Hij' Hd Hw.
  rewrite Hij in Hij'. injection Hij' as <- <-.
  rewrite lookup_insert_eq in Hd. injection Hd as <-.
  destruct (Hsup w Hw) as (dy & w' & Hdy & Hw' & Hag).
  exists dy, w'. by rewrite lookup_insert_ne.
Qed.

Lemma arc_consistent_at_reverse (cw : Crossword) (D : Domains) (x y : Var.t)
    (i j : nat) (dx dx' : list string) :
  overlaps cw !! (y, x) = Some (Some (j, i)) → x ≠ y →
  D !! x = Some dx →
  (∀ w, w ∈ dx → supported D y i j w → w ∈ dx') →
  arc_consistent_at cw D y x →
  arc_consistent_at cw (<[x := dx']> D) y x.
Proof.
  intros Hji Hne Hdx Hkeep Hac j' i' dy w' Hji' Hdy Hw'.
  rewrite Hji in Hji'. injection Hji' as <- <-.
  rewrite lookup_insert_ne in Hdy by done.
  destruct (Hac j i dy w' Hji Hdy Hw') as (dx0 & w & Hdx0 & Hw & Hag).
  rewrite Hdx in Hdx0. injection Hdx0 as <-.
  exists dx', w. rewrite lookup_insert_eq. split; [done|]. split; [|done].
  apply Hkeep; [done|]. exists dy, w'. split; [done|]. split; [done|].
  by apply agree_sym.
Qed.

Lemma arc_consistent_at_other (cw : Crossword) (D : Domains) (x x0 y0 : Var.t)
    (dx dx' : list string) :
  y0 ≠ x → D !! x = Some dx → dx' ⊆ dx →
  arc_consistent_at cw D x0 y0 →
  arc_consistent_at cw (<[x := dx']> D) x0 y0.
Proof.
  intros Hne Hdx Hsub Hac i j d w Hij Hd Hw.
  assert (supported D y0 i j w) as (dy & w' & Hdy & Hw' & Hag).
  { destruct (decide (x = x0)) as [->|Hne0].
    - rewrite lookup_insert_eq in Hd. injection Hd as <-.
      eapply Hac; [done..|]. by apply Hsub.
    - rewrite lookup_insert_ne in Hd by done. by eapply Hac. }
  exists dy, w'. by rewrite lookup_insert_ne.
Qed.

Section wf_worklist.
Context (cw : Crossword) (Hwf : wf_crossword cw).

Lemma ac3_loop_arc_consistent (fuel : nat) (arcs : list arc) (D D' : Domains) :
  Forall (valid_arc cw) arcs →
  worklist_invariant cw arcs D →
  ac3_loop fuel cw arcs D = (Ok true, D') →
  worklist_invariant cw [] D'.
Proof.
  revert arcs D. induction fuel as [|n IH]; intros [|[x y] arcs] D Harcs Hinv;
    simpl; try done; try by intros [= <-].
  apply Forall_cons in Harcs as [Harc Harcs].
  destruct (valid_arc_overlap cw Hwf x y Harc)
    as (Hy & Hne & i & j & Hij & Hji & _).
  destruct (revise cw x y D) as [[b|e|] D1] eqn:Hrev; [|by destruct e|done].
  apply revise_Ok in Hrev as (i' & j' & dx & dx' & Hij' & Hdx & -> & Hchar & Hf & Ht).
  rewrite Hij in Hij'. injection Hij' as <- <-.
  assert (arc_consistent_at cw (<[x := dx']> D) x y) as Hxy.
  { apply (arc_consistent_at_revised _ _ _ _ i j); [done..|].
    intros w Hw. by apply Hchar. }
  destruct b.
  - unfold domain_of. rewrite lookup_insert_eq. case_decide; [done|].
    apply IH.
    { apply Forall_app. split; [done|]. apply new_arcs_valid; [done|apply Harc]. }
    intros x0 y0 Hv0. destruct (Hinv x0 y0 Hv0) as [Hin|Hac].
    + apply elem_of_cons in Hin as [[= -> ->]|Hin]; [by right|].
      left. apply elem_of_app. by left.
    + destruct (decide (y0 = x)) as [->|Hy0].
      * destruct (decide (x0 = y)) as [->|Hx0].
        -- right. apply (arc_consistent_at_reverse _ _ _ _ i j dx); try done.
           intros w Hw Hs. by apply Hchar.
        -- left. apply elem_of_app. right. apply list_elem_of_fmap.
           exists x0. split; [done|]. apply list_elem_of_filter. split; [done|].
           apply (valid_arc_sym cw Hwf) in Hv0. apply Hv0.
      * right. apply (arc_consistent_at_other _ _ _ _ _ dx); try done.
        intros w Hw. by apply Hchar.
  - rewrite Hf in * by done. rewrite insert_id in * by done.
    apply IH; [done|].
    intros x0 y0 Hv0. destruct (Hinv x0 y0 Hv0) as [Hin|Hac]; [|by right].
    apply elem_of_cons in Hin as [[= -> ->]|Hin]; [by right|by left].
Qed.

Lemma worklist_invariant_nil (D : Domains) :
  worklist_invariant cw [] D → arc_consistent cw D.
Proof.
  intros Hinv x y Hx Hy i j dx w Hij.
  destruct (Hinv x y) as [Hin|Hac]; [|by apply elem_of_nil in Hin|by apply Hac].
  split; [done|]. simpl. apply (wf_neighbors cw Hwf); [done|]. by eexists.
Qed.

Lemma ac3_full_arc_consistent (D D' : Domains) :
  ac3 cw None D = (Ok true, D') → arc_consistent cw D'.
Proof.
  intros Hac3. apply worklist_invariant_nil.
  eapply ac3_loop_arc_consistent; [| |exact Hac3].
  - by apply all_arcs_valid.
  - intros x y [Hx Hy]. left. simpl in *. unfold all_arcs.
    apply list_elem_of_bind. exists x. split; [|done].
    apply list_elem_of_fmap. by exists y.
Qed.
End wf_worklist.

(** C6: if [ac3()] without initial arcs returns [True], then for every pair
    of variables with an overlap [(i, j)], every word left in [domain[x]]
    has a word in [domain[y]] that agrees with it at the overlap. *)
Theorem ac3_arc_consistent (cw : Crossword) (D D' : Domains) :
  wf_crossword cw →
  ac3 cw None D = (Ok true, D') →
  ∀ x y i j dx w,
    x ∈ variables cw → y ∈ variables cw →
    overlaps cw !! (x, y) = Some (Some (i, j)) →
    D' !! x = Some dx → w ∈ dx →
    ∃ dy w' c, D' !! y = Some dy ∧ w' ∈ dy ∧
               String.get i w = Some c ∧ String.get j w' = Some c.
Proof.
  intros Hwf Hac3 x y i j dx w Hx Hy Hij Hdx Hw.
  destruct (ac3_full_arc_consistent cw Hwf D D' Hac3 x y Hx Hy i j dx w)
    as (dy & w' & Hdy & Hw' & c & Hc1 & Hc2); [done..|].
  by exists dy, w', c.
Qed.

(** *** On a consistent store, the loop changes nothing *)

Lemma ac3_loop_noop (fuel : nat) (cw : Crossword) (arcs : list arc)
    (D : Domains) (r : Res bool) (D' : Domains) :
  Forall (λ a, arc_consistent_at cw D a.1 a.2) arcs →
  ac3_loop fuel cw arcs D = (r, D') →
  D' = D ∧ r ≠ Ok false.
Proof.
  revert arcs. induction fuel as [|n IH]; intros [|[x y] arcs] Harcs; simpl;
    try by intros [= <- <-].
  apply Forall_cons in Harcs as [Harc Harcs]. simpl in Harc.
  destruct (revise cw x y D) as [r1 D1] eqn:Hrev.
  destruct (revise_consistent _ _ _ _ _ _ Harc Hrev) as (-> & Hr1 & Hr2).
  destruct r1 as [[]|e|]; try done.
  - by apply IH.
  - by intros [= <- <-].
Qed.

Lemma ac3_local_noop (cw : Crossword) (var : Var.t) (D : Domains)
    (r : Res bool) (D' : Domains) :
  wf_crossword cw → arc_consistent cw D → var ∈ variables cw →
  ac3 cw (Some ((λ neighbor, (neighbor, var)) <$> neighbors cw var)) D = (r, D') →
  D' = D ∧ r ≠ Ok false.
Proof.
  intros Hwf Hac Hvar. apply ac3_loop_noop.
  rewrite Forall_fmap. apply Forall_forall. intros n Hn. simpl.
  apply Hac; [|done].
  apply (wf_neighbors cw Hwf) in Hn as [ij Hij]; [|done].
  by eapply (wf_overlap_vars cw Hwf).
Qed.

(** ** The domain store during the search *)

Section domains_kept.
Context (cw : Crossword) (Hwf : wf_crossword cw).
Context (rec : loc → State → Res (option loc) * State).
Hypothesis rec_domains : ∀ l st r st',
  arc_consistent cw (domains st) → rec l st = (r, st') → domains st' = domains st.

Lemma try_value_domains (asg : loc) (var : Var.t) (value : string)
    (st : State) (r : Res (option loc)) (st' : State) :
  arc_consistent cw (domains st) → var ∈ variables cw →
  try_value cw rec asg var value st = (r, st') → domains st' = domains st.
Proof.
  intros Hac Hvar. rewrite try_value_unfold. cbv zeta.
  destruct (ac3 _ _ _) as [r0 D'] eqn:Hac3.
  destruct (ac3_local_noop _ _ _ _ _ Hwf Hac Hvar Hac3) as [-> _].
  destruct r0 as [inferences|e|]; [|by intros [= _ <-]..].
  destruct (consistent _ _) as [c|e|]; [|by intros [= _ <-]..].
  destruct (c && inferences); [|by intros [= _ <-]].
  destruct (rec _ _) as [r1 st4] eqn:Hrec. apply rec_domains in Hrec; [|done].
  destruct r1 as [result|e|]; [|by intros [= _ <-]..].
  destruct (truthy st4 result); by intros [= _ <-].
Qed.

Lemma backtrack_values_domains (asg : loc) (var : Var.t) (values : list string)
    (st : State) (r : Res (option loc)) (st' : State) :
  arc_consistent cw (domains st) → var ∈ variables cw →
  backtrack_values cw rec asg var values st = (r, st') →
  domains st' = domains st.
Proof.
  intros Hac Hvar. revert st Hac.
  induction values as [|value values IH]; simpl; intros st Hac.
  - by intros [= _ <-].
  - destruct (try_value _ _ _ _ _ _) as [r1 st1] eqn:Htry.
    apply try_value_domains in Htry; [|done..].
    destruct r1 as [[l|]|e|]; try by intros [= _ <-].
    intros Hrest. rewrite <- Htry. apply IH; [|done]. by rewrite Htry.
Qed.
End domains_kept.

Lemma backtrack_domains (fuel : nat) (cw : Crossword) (asg : loc) (st : State)
    (r : Res (option loc)) (st' : State) :
  wf_crossword cw → arc_consistent cw (domains st) →
  backtrack fuel cw asg st = (r, st') → domains st' = domains st.
Proof.
  intros Hwf. revert asg st r st'.
  induction fuel as [|n IH]; simpl; intros asg st r st' Hac.
  - by intros [= _ <-].
  - destruct (assignment_complete _ _); [by intros [= _ <-]|].
    destruct (select_unassigned_variable _ _ _) as [var|e|] eqn:Hsel;
      [|by intros [= _ <-]..].
    apply select_unassigned_variable_Ok in Hsel as [Hvar _].
    destruct (order_domain_values _ _ _ _) as [values|e|];
      [|by intros [= _ <-]..].
    apply backtrack_values_domains; done.
Qed.

(** On an arc-consistent domain store the localized inference removes
    nothing, so the store after the branch of a candidate value is the
    store before it, whether the branch fails or not. *)
Lemma try_value_keeps_domains (cw : Crossword) (n : nat) (asg : loc)
    (var : Var.t) (value : string) (st : State)
    (r : Res (option loc)) (st' : State) :
  wf_crossword cw → arc_consistent cw (domains st) → var ∈ variables cw →
  try_value cw (backtrack n cw) asg var value st = (r, st') →
  domains st' = domains st.
Proof.
  intros Hwf Hac Hvar. apply try_value_domains; try done.
  intros l st0 r0 st0'. by apply backtrack_domains.
Qed.

(** C1: in the search of [solve], the branch of a candidate value leaves the
    domain store as it found it.  The search runs on the store [D] that the
    global pass of [ac3] has left after node consistency.  When that pass
    has returned [True] (when it has returned [False], a domain is empty
    and [backtrack] tries no candidate), the branch of a candidate [value]
    for a variable [var] ends with the store [D], whether it fails, is
    rejected or succeeds: the localized inference removes nothing, so no
    mutation is visible to the sibling branches or after backtracking. *)
Theorem solve_branch_keeps_domains (cw : Crossword) (D0 D : Domains)
    (n : nat) (asg : loc) (var : Var.t) (value : string) (st : State)
    (r : Res (option loc)) (st' : State) :
  wf_crossword cw →
  ac3 cw None (enforce_node_consistency D0) = (Ok true, D) →
  domains st = D → var ∈ variables cw →
  try_value cw (backtrack n cw) asg var value st = (r, st') →
  domains st' = D.
Proof.
  intros Hwf Hpass Hst Hvar Htry.
  assert (arc_consistent cw (domains st)) as Hac.
  { rewrite Hst. by eapply ac3_full_arc_consistent. }
  rewrite <- Hst. revert Htry. apply try_value_domains; try done.
  intros l st0 r0 st0'. by apply backtrack_domains.
Qed.

(** Outside [solve], [backtrack] has no restore of its own: called on a
    store that the global pass of [ac3] has not made arc consistent (node
    consistency alone, two crossing slots, the vocabulary EEL, CAT), the
    branch of EEL for the row fails and has removed CAT from both domains
    for good.  [solve] never starts the search from such a store. *)
Lemma backtrack_branch_changes_domains :
  let cw := Examples.cross ["EEL"; "CAT"]%string in
  let st := mkState (enforce_node_consistency (init_domains cw)) [[]] in
  let out := try_value cw (backtrack 2 cw) 0 Examples.across "EEL" st in
  select_unassigned_variable cw (domains st) (deref st 0) = Ok Examples.across ∧
  order_domain_values cw (domains st) Examples.across (deref st 0)
    = Ok ["EEL"; "CAT"]%string ∧
  out.1 = Ok None ∧
  domains st !! Examples.down = Some ["EEL"; "CAT"]%string ∧
  domains out.2 !! Examples.down = Some ["EEL"]%string ∧
  domains out.2 ≠ domains st.
Proof.
  cbv zeta. repeat split; by vm_compute.
Qed.

(** ** The domain store before the search *)

Lemma init_domains_lookup (cw : Crossword) (v : Var.t) :
  init_domains cw !! v
  = if decide (v ∈ variables cw) then Some (words cw) else None.
Proof.
  unfold init_domains. destruct (decide (v ∈ variables cw)) as [Hin|Hnin].
  - induction (variables cw) as [|x l IH]; [by apply elem_of_nil in Hin|].
    csimpl. destruct (decide (x = v)) as [->|Hne].
    + by rewrite lookup_insert_eq.
    + rewrite lookup_insert_ne by done. apply IH.
      apply elem_of_cons in Hin as [->|Hin]; done.
  - induction (variables cw) as [|x l IH]; [done|].
    csimpl. apply not_elem_of_cons in Hnin as [Hne Hnin].
    rewrite lookup_insert_ne by done. by apply IH.
Qed.

Lemma pruned_lookup (cw : Crossword) (v : Var.t) :
  v ∈ variables cw →
  enforce_node_consistency (init_domains cw) !! v
  = Some (node_filter v (words cw)).
Proof.
  intros Hv. rewrite enforce_node_consistency_lookup, init_domains_lookup.
  by rewrite decide_True.
Qed.

Lemma pruned_domains_ok (cw : Crossword) :
  domains_ok cw (enforce_node_consistency (init_domains cw)).
Proof.
  split.
  - intros v Hv. rewrite pruned_lookup by done. by eexists.
  - intros v dv w. rewrite enforce_node_consistency_lookup.
    destruct (init_domains cw !! v) as [ws|]; simpl; [|done].
    intros [= <-] Hw. unfold node_filter in Hw.
    apply list_elem_of_filter in Hw. tauto.
Qed.

(** ** A variable without candidates ends the search at once *)

Lemma backtrack_empty_domain (n : nat) (cw : Crossword) (asg : loc)
    (st : State) (v : Var.t) :
  (∀ x, x ∈ variables cw → is_Some (domains st !! x)) →
  v ∈ variables cw → v ∉ dict_keys (deref st asg) →
  domains st !! v = Some [] →
  backtrack (S n) cw asg st = (Ok None, st).
Proof.
  intros Hkeys Hv Hfresh Hempty. simpl.
  destruct (assignment_complete cw (deref st asg)) eqn:Hc.
  { exfalso. apply Hfresh. by apply (proj1 (assignment_complete_true _ _) Hc). }
  destruct (select_unassigned_variable_total cw (domains st) (deref st asg))
    as [var Hsel]; [done|by exists v|].
  rewrite Hsel.
  apply select_unassigned_variable_Ok in Hsel as (_ & _ & dv & Hdv & Hmin).
  destruct (Hmin v Hv Hfresh) as (d & Hd & Hle).
  rewrite Hempty in Hd. injection Hd as <-.
  destruct dv as [|w dv]; [|simpl in Hle; lia].
  unfold order_domain_values. apply domain_of_Ok in Hdv. rewrite Hdv. simpl.
  done.
Qed.

(** C7: when some variable has the length of no word of the vocabulary,
    [solve] returns [None]: no exception leaves any of its calls. *)
Theorem solve_no_word_of_length (cw : Crossword) (v : Var.t) :
  wf_crossword cw →
  v ∈ variables cw →
  (∀ w, w ∈ words cw → String.length w ≠ Var.length v) →
  ∃ st', solve cw (init cw) = (Ok None, st').
Proof.
  intros Hwf Hv Hnone. unfold solve, init. cbn [domains].
  pose proof (pruned_domains_ok cw) as Hok.
  destruct (ac3_total cw Hwf None _ Hok I) as (b & D2 & Hac3). rewrite Hac3.
  pose proof (ac3_loop_shrinks _ _ _ _ _ _ Hac3) as Hs.
  pose proof (domains_ok_shrinks _ _ _ Hok Hs) as [Hkeys2 _].
  assert (D2 !! v = Some []) as Hempty.
  { destruct (shrinks_lookup_inv _ _ v _ Hs (pruned_lookup cw v Hv))
      as (d' & Hd' & Hsub).
    rewrite Hd'. f_equal. apply elem_of_nil_inv. intros w Hw.
    apply Hsub in Hw. unfold node_filter in Hw.
    apply list_elem_of_filter in Hw as [Hlen Hw]. by apply (Hnone w). }
  eexists. unfold alloc, with_domains. cbn [domains heap fst snd].
  apply (backtrack_empty_domain _ _ _ _ v); try done.
  apply not_elem_of_nil.
Qed.

(** ** [order_domain_values] sorts by the least-constraining-value score *)

Lemma list_difference_filter (l k : list Var.t) :
  list_difference l k = filter (λ n, n ∉ k) l.
Proof.
  induction l as [|x l IH]; [done|]. cbn [list_difference].
  rewrite filter_cons. destruct (decide_rel (∈) x k) as [Hin|Hnin].
  - by rewrite decide_False by (intros Hn; by apply Hn).
  - rewrite decide_True by done. by rewrite IH.
Qed.

Lemma count_in_domain_Ok (word : string) (i j : nat) (dn : list string)
    (c k : nat) :
  count_in_domain word i j dn c = Ok k →
  k = c + List.length (filter (λ w', String.get i word ≠ String.get j w') dn).
Proof.
  revert c. induction dn as [|w' dn IH]; simpl; intros c.
  - intros [= <-]. lia.
  - intros (c1 & Hc1%getitem_Ok & (c2 & Hc2%getitem_Ok & Hrest)%bind_Ok)%bind_Ok.
    apply IH in Hrest as ->. rewrite filter_cons, Hc1, Hc2.
    destruct (decide (c1 ≠ c2)) as [Hne|Heq].
    + rewrite decide_True by congruence. simpl. lia.
    + rewrite decide_False; [lia|]. intros Hne. apply Heq. congruence.
Qed.

Lemma count_in_domain_total (word : string) (i j : nat) (dn : list string)
    (c : nat) :
  i < String.length word → Forall (λ w', j < String.length w') dn →
  ∃ k, count_in_domain word i j dn c = Ok k.
Proof.
  intros [c1 Hc1]%getitem_in_bounds Hall. revert c.
  induction Hall as [|w' dn [c2 Hc2]%getitem_in_bounds _ IH]; simpl; intros c.
  - by eexists.
  - rewrite Hc1, Hc2. simpl. apply IH.
Qed.

Lemma count_over_neighbors_Ok (cw : Crossword) (D : Domains) (var : Var.t)
    (word : string) (ns : list Var.t) (c k : nat) :
  count_over_neighbors cw D var word ns c = Ok k →
  k = c + sum_list_with (conflicts_with cw D var word) ns.
Proof.
  revert c. induction ns as [|n ns IH]; simpl; intros c.
  - intros [= <-]. lia.
  - intros ([i j] & Hij%unpack_overlap_Ok &
            (dn & Hdn%domain_of_Ok & (c' & Hc' & Hrest)%bind_Ok)%bind_Ok)%bind_Ok.
    apply IH in Hrest as ->. apply count_in_domain_Ok in Hc' as ->.
    unfold conflicts_with at 2. rewrite Hij, Hdn. simpl. lia.
Qed.

Lemma count_conflicts_Ok (cw : Crossword) (D : Domains) (a : Dict)
    (var : Var.t) (word : string) (k : nat) :
  count_conflicts cw D a var word = Ok k → k = lcv_score cw D a var word.
Proof.
  unfold count_conflicts, lcv_score. rewrite list_difference_filter.
  intros Hk%count_over_neighbors_Ok. lia.
Qed.

Lemma count_conflicts_total (cw : Crossword) (D : Domains) (a : Dict)
    (var : Var.t) (word : string) :
  wf_crossword cw → domains_ok cw D → var ∈ variables cw →
  String.length word = Var.length var →
  ∃ k, count_conflicts cw D a var word = Ok k.
Proof.
  intros Hwf [Hkeys Hnode] Hvar Hlen. unfold count_conflicts.
  assert (Forall (λ n, n ∈ neighbors cw var)
            (list_difference (neighbors cw var) (dict_keys a))) as Hns.
  { apply Forall_forall. by intros n [Hn _]%list_elem_of_difference. }
  generalize 0 as c.
  induction Hns as [|n ns Hn _ IH]; simpl; intros c; [by eexists|].
  destruct (valid_arc_overlap cw Hwf var n)
    as (Hnv & _ & i & j & Hij & _ & Hi & Hj); [by split|].
  apply unpack_overlap_Ok in Hij. rewrite Hij. simpl.
  destruct (Hkeys n Hnv) as [dn Hdn]. pose proof Hdn as Hdn'.
  apply domain_of_Ok in Hdn'. rewrite Hdn'. simpl.
  destruct (count_in_domain_total word i j dn c) as [c' Hc'].
  - by rewrite Hlen.
  - apply Forall_forall. intros w' Hw'. by rewrite (Hnode _ _ _ Hdn Hw').
  - rewrite Hc'. simpl. apply IH.
Qed.

Lemma order_domain_values_Ok (cw : Crossword) (D : Domains) (var : Var.t)
    (a : Dict) (l : list string) :
  order_domain_values cw D var a = Ok l →
  ∃ dv, D !! var = Some dv ∧ l ≡ₚ dv ∧
    StronglySorted (λ w1 w2, lcv_score cw D a var w1 ≤ lcv_score cw D a var w2) l.
Proof.
  unfold order_domain_values.
  intros (dv & Hdv%domain_of_Ok & (Hperm & _ & Hsorted)%sorted_Ok)%bind_Ok.
  exists dv. split; [done|]. split; [done|].
  rewrite <- (list_fmap_id l).
  eapply (StronglySorted_fmap id); [|exact Hsorted].
  intros w1 w2 (k1 & k2 & Hk1%count_conflicts_Ok & Hk2%count_conflicts_Ok & Hle).
  simpl. lia.
Qed.

(** C9: [order_domain_values(var, assignment)] returns the words of
    [domain[var]], in ascending order of the number of words in the domains
    of the unassigned neighbours of [var] that disagree with the candidate
    at the overlap. *)
Theorem order_domain_values_spec (cw : Crossword) (D : Domains) (var : Var.t)
    (a : Dict) :
  wf_crossword cw → domains_ok cw D → var ∈ variables cw →
  ∃ dv l, D !! var = Some dv ∧ order_domain_values cw D var a = Ok l ∧
    l ≡ₚ dv ∧
    StronglySorted (λ w1 w2, lcv_score cw D a var w1 ≤ lcv_score cw D a var w2) l.
Proof.
  intros Hwf Hok Hvar. pose proof Hok as [Hkeys Hnode].
  destruct (Hkeys var Hvar) as [dv Hdv].
  destruct (sorted_total (count_conflicts cw D a var) dv) as [l Hl].
  { apply Forall_forall. intros w Hw. apply count_conflicts_total; try done.
    by eapply Hnode. }
  assert (order_domain_values cw D var a = Ok l) as Hodv.
  { unfold order_domain_values. apply domain_of_Ok in Hdv. by rewrite Hdv. }
  destruct (order_domain_values_Ok _ _ _ _ _ Hodv) as (dv' & Hdv' & Hperm & Hs).
  exists dv', l. done.
Qed.

(** ** Completeness of the search *)

Lemma dict_keys_snoc (a : Dict) (v : Var.t) (w : string) :
  dict_keys (a ++ [(v, w)]) = dict_keys a ++ [v].
Proof. unfold dict_keys. by rewrite fmap_app. Qed.

Lemma NoDup_snd_inj (a : Dict) (v1 v2 : Var.t) (w : string) :
  NoDup (dict_values a) → (v1, w) ∈ a → (v2, w) ∈ a → v1 = v2.
Proof.
  unfold dict_values. induction a as [|[k x] a IH]; simpl.
  - by intros _ ?%elem_of_nil.
  - intros [Hx Hnd]%NoDup_cons [H1|H1]%elem_of_cons [H2|H2]%elem_of_cons.
    + congruence.
    + inversion H1; subst. exfalso. apply Hx.
      apply list_elem_of_fmap. eexists. split; [|exact H2]. done.
    + inversion H2; subst. exfalso. apply Hx.
      apply list_elem_of_fmap. eexists. split; [|exact H1]. done.
    + by apply IH.
Qed.

Lemma unassigned_lt (cw : Crossword) (a : Dict) (var : Var.t) (value : string) :
  var ∈ variables cw → var ∉ dict_keys a →
  List.length (unassigned cw (a ++ [(var, value)]))
  < List.length (unassigned cw a).
Proof.
  unfold unassigned. rewrite dict_keys_snoc.
  generalize (dict_keys a) as k. intros k.
  induction (variables cw) as [|x l IH]; intros Hin Hk.
  - by apply elem_of_nil in Hin.
  - assert (∀ l', List.length (list_difference l' (k ++ [var]))
                  ≤ List.length (list_difference l' k)) as Hle.
    { induction l' as [|y l' IH']; [done|]. cbn [list_difference].
      destruct (decide_rel (∈) y k) as [Hy|Hy].
      - destruct (decide_rel (∈) y (k ++ [var])) as [_|Hy']; [done|].
        exfalso. apply Hy'. apply elem_of_app. by left.
      - destruct (decide_rel (∈) y (k ++ [var])); simpl; lia. }
    cbn [list_difference].
    destruct (decide (x = var)) as [->|Hne].
    + destruct (decide_rel (∈) var k) as [Hy|_]; [done|].
      destruct (decide_rel (∈) var (k ++ [var])) as [_|Hy'].
      * specialize (Hle l). simpl. lia.
      * exfalso. apply Hy'. apply elem_of_app. right. by left.
    + apply elem_of_cons in Hin as [->|Hin]; [done|].
      specialize (IH Hin Hk).
      destruct (decide_rel (∈) x k) as [Hy|Hy].
      * destruct (decide_rel (∈) x (k ++ [var])) as [_|Hy']; [done|].
        exfalso. apply Hy'. apply elem_of_app. by left.
      * destruct (decide_rel (∈) x (k ++ [var])) as [Hy'|_]; simpl; [|lia].
        apply elem_of_app in Hy' as [Hy'|Hy']; [done|].
        apply list_elem_of_singleton in Hy'. done.
Qed.

Lemma incomplete_unassigned (cw : Crossword) (a : Dict) :
  (∀ v, v ∈ dict_keys a → v ∈ variables cw) →
  assignment_complete cw a = false →
  ∃ v, v ∈ variables cw ∧ v ∉ dict_keys a.
Proof.
  intros Hkeys Hc.
  destruct (decide (Forall (λ v, v ∈ dict_keys a) (variables cw))) as [Hall|Hex].
  - exfalso. apply not_true_iff_false in Hc. apply Hc.
    apply assignment_complete_true. rewrite Forall_forall in Hall.
    intros v. split; [apply Hall|apply Hkeys].
  - apply not_Forall_Exists in Hex; [|apply _].
    apply Exists_exists in Hex as (v & Hv & Hnot). by exists v.
Qed.

Section wf_consistent.
Context (cw : Crossword) (Hwf : wf_crossword cw).

Lemma check_neighbors_total (a : Dict) (var : Var.t) (word : string)
    (ns : list Var.t) :
  var ∈ variables cw → String.length word = Var.length var →
  (∀ v w, (v, w) ∈ a → String.length w = Var.length v) →
  Forall (λ n, n ∈ neighbors cw var) ns →
  ∃ c, check_neighbors cw a var word ns = Ok c.
Proof.
  intros Hvar Hlen Hlens. induction 1 as [|n ns Hn _ [c IH]]; simpl.
  - by eexists.
  - destruct (dict_get a n) as [nw|] eqn:Hg; [|by eexists].
    destruct (valid_arc_overlap cw Hwf var n)
      as (_ & _ & i & j & Hij & _ & Hi & Hj); [by split|].
    apply unpack_overlap_Ok in Hij. rewrite Hij. simpl.
    destruct (getitem_in_bounds word i) as [c1 Hc1]; [by rewrite Hlen|].
    destruct (getitem_in_bounds nw j) as [c2 Hc2].
    { apply dict_get_Some_elem in Hg. by rewrite (Hlens _ _ Hg). }
    rewrite Hc1, Hc2. simpl. case_decide; by eexists.
Qed.

Lemma consistent_total (a : Dict) :
  (∀ v w, (v, w) ∈ a → v ∈ variables cw ∧ String.length w = Var.length v) →
  ∃ c, consistent cw a = Ok c.
Proof.
  intros Ha. unfold consistent. case_decide; [by eexists|].
  assert (∀ items, items ⊆ a → ∃ c, check_items cw a items = Ok c) as Hitems.
  { induction items as [|[var word] items IH]; intros Hsub; simpl; [by eexists|].
    destruct (Ha var word) as [Hvar Hlen]; [apply Hsub; by left|].
    case_decide; [by eexists|].
    destruct (check_neighbors_total a var word (neighbors cw var))
      as [c Hc]; try done.
    - intros v w Hin. by apply Ha.
    - by apply Forall_forall.
    - rewrite Hc. simpl. destruct c; [|by eexists].
      apply IH. intros p Hp. apply Hsub. by right. }
  by apply Hitems.
Qed.

Lemma part_of_consistent (a sol : Dict) :
  satisfying cw sol → NoDup (dict_keys a) →
  (∀ v, v ∈ dict_keys a → v ∈ variables cw) →
  part_of a sol → consistent cw a = Ok true.
Proof.
  intros (Hs1 & Hs2 & Hs3) Hnd Hkeys Hpart. apply consistent_Ok_true.
  assert (∀ v w, (v, w) ∈ a → v ∈ variables cw) as Hvars.
  { intros v w Hin. apply Hkeys. apply list_elem_of_fmap. by exists (v, w). }
  split; [|split].
  - unfold dict_values. apply NoDup_fmap_2_strong.
    + intros [v1 w1] [v2 w2] H1 H2. simpl. intros <-. f_equal.
      by apply (Hs2 v1 v2 w1); eauto.
    + by eapply NoDup_fmap_1.
  - intros v w Hin. destruct (Hs1 v) as (w' & Hw' & _ & Hlen); [by eauto|].
    rewrite (Hpart _ _ Hin) in Hw'. by injection Hw' as <-.
  - intros v w n wn Hin Hn Hg. apply dict_get_Some_elem in Hg.
    destruct (valid_arc_overlap cw Hwf v n)
      as (Hnv & _ & i & j & Hij & _); [split; by eauto|].
    destruct (Hs3 v n i j w wn) as (c & H1 & H2); eauto.
    by exists i, j, c.
Qed.

Lemma search_assignment_satisfying (D : Domains) (a : Dict) :
  (∀ v dv w, D !! v = Some dv → w ∈ dv → w ∈ words cw) →
  search_assignment cw D a → assignment_complete cw a = true →
  satisfying cw a.
Proof.
  intros Hwords (Hnd & Hkeys & Hcons & Hfrom) Hc.
  apply consistent_Ok_true in Hcons as (Hvals & Hlens & Hnb).
  pose proof (proj1 (assignment_complete_true _ _) Hc) as Hcomplete.
  split; [|split].
  - intros v Hv. apply Hcomplete in Hv.
    apply dict_get_is_Some in Hv as [w Hw]. exists w. split; [done|].
    apply dict_get_Some_elem in Hw. split; [|by apply Hlens].
    destruct (Hfrom _ _ Hw) as (dv & Hdv & Hin). by eapply Hwords.
  - intros v1 v2 w _ _ H1%dict_get_Some_elem H2%dict_get_Some_elem.
    by eapply NoDup_snd_inj.
  - intros x y i j wx wy Hx Hy Hij H1%dict_get_Some_elem H2.
    destruct (Hnb x wx y wy) as (i' & j' & c & Hij' & Hc1 & Hc2); try done.
    + apply (wf_neighbors cw Hwf); [done|]. by eexists.
    + rewrite Hij in Hij'. injection Hij' as <- <-. by exists c.
Qed.
End wf_consistent.

Section search.
Context (cw : Crossword) (Hwf : wf_crossword cw).
Context (D : Domains) (Hok : domains_ok cw D) (Hac : arc_consistent cw D).
Context (sol : Dict) (Hsat : satisfying cw sol).

Lemma search_assignment_lengths (a : Dict) :
  search_assignment cw D a →
  ∀ v w, (v, w) ∈ a → v ∈ variables cw ∧ String.length w = Var.length v.
Proof.
  intros (_ & Hkeys & _ & Hfrom) v w Hin. split.
  - apply Hkeys. apply list_elem_of_fmap. by exists (v, w).
  - destruct (Hfrom _ _ Hin) as (dv & Hdv & Hw). by eapply Hok.
Qed.

Lemma local_arcs_valid (var : Var.t) :
  var ∈ variables cw →
  Forall (valid_arc cw) ((λ neighbor, (neighbor, var)) <$> neighbors cw var).
Proof.
  intros Hvar. rewrite Forall_fmap. apply Forall_forall. intros n Hn.
  by apply (valid_arc_sym cw Hwf).
Qed.

Section step.
Context (n : nat) (rec : loc → State → Res (option loc) * State).
Hypothesis rec_search : ∀ l st,
  domains st = D → l < List.length (heap st) →
  search_assignment cw D (deref st l) →
  List.length (unassigned cw (deref st l)) < n →
  ∃ r st', rec l st = (Ok r, st') ∧ search_post cw st r st' ∧
           (part_of (deref st l) sol → is_Some r).

Lemma try_value_search (asg : loc) (var : Var.t) (value : string)
    (st : State) (dv : list string) :
  domains st = D → asg < List.length (heap st) →
  search_assignment cw D (deref st asg) →
  var ∈ variables cw → var ∉ dict_keys (deref st asg) →
  D !! var = Some dv → value ∈ dv →
  List.length (unassigned cw (deref st asg)) < S n →
  ∃ r st', try_value cw rec asg var value st = (Ok r, st') ∧
           search_post cw st r st' ∧
           (part_of (deref st asg) sol → dict_get sol var = Some value →
            is_Some r).
Proof.
  intros HD Hasg Ha Hvar Hfresh Hdv Hvalue Hfuel.
  rewrite try_value_unfold. cbv zeta. rewrite dict_set_fresh by done.
  set (a := deref st asg) in *. set (a' := a ++ [(var, value)]).
  rewrite HD.
  destruct (ac3_total cw Hwf
              (Some ((λ neighbor, (neighbor, var)) <$> neighbors cw var)) D Hok)
    as (b & D' & Hac3); [by apply local_arcs_valid|].
  rewrite Hac3.
  destruct (ac3_local_noop _ _ _ _ _ Hwf Hac Hvar Hac3) as [-> Hb].
  destruct b; [|done]. clear Hb Hac3.
  pose proof (search_assignment_lengths a Ha) as Hlens.
  pose proof Ha as (Hnd & Hkeys & Hcons & Hfrom).
  assert (∀ v w, (v, w) ∈ a' →
            v ∈ variables cw ∧ String.length w = Var.length v) as Hlens'.
  { intros v w [Hin|Hin]%elem_of_app; [by apply Hlens|].
    apply list_elem_of_singleton in Hin. injection Hin as -> ->.
    split; [done|]. by eapply Hok. }
  assert (part_of a sol → dict_get sol var = Some value → part_of a' sol)
    as Hpart'.
  { intros Hpart Hsol v w [Hin|Hin]%elem_of_app; [by apply Hpart|].
    apply list_elem_of_singleton in Hin. by injection Hin as -> ->. }
  assert (NoDup (dict_keys a') ∧ ∀ v, v ∈ dict_keys a' → v ∈ variables cw)
    as [Hnd' Hkeys'].
  { unfold a'. rewrite dict_keys_snoc. split.
    - apply NoDup_app. split; [done|]. split; [|apply NoDup_singleton].
      intros v Hv Hv'. apply list_elem_of_singleton in Hv' as ->. done.
    - intros v [Hv|Hv]%elem_of_app; [by apply Hkeys|].
      by apply list_elem_of_singleton in Hv as ->. }
  destruct (consistent_total cw Hwf a' Hlens') as [c Hc]. rewrite Hc.
  destruct c; simpl.
  - set (st3 := mkState D (heap st ++ [a'])).
    assert (deref st3 (List.length (heap st)) = a') as Hnew.
    { unfold deref. simpl. by rewrite list_lookup_middle. }
    destruct (rec_search (List.length (heap st)) st3)
      as (r1 & st4 & Hrec & (Hd4 & Hh4 & Hr1) & Hcomp); [done| | | |].
    { simpl. rewrite length_app. simpl. lia. }
    { rewrite Hnew. split; [done|]. split; [done|]. split; [done|].
      intros v w [Hin|Hin]%elem_of_app; [by apply Hfrom|].
      apply list_elem_of_singleton in Hin. injection Hin as -> ->.
      by exists dv. }
    { rewrite Hnew. pose proof (unassigned_lt cw a var value Hvar Hfresh).
      fold a' in H. lia. }
    rewrite Hrec. simpl in Hd4, Hh4, Hr1.
    assert (heap st `prefix_of` heap st4) as Hprefix.
    { etrans; [|exact Hh4]. by apply prefix_app_r. }
    destruct r1 as [l|]; simpl.
    + destruct (Hr1 l eq_refl) as [Hl Hcomplete].
      assert (deref st4 l ≠ []) as Hne.
      { pose proof (proj1 (assignment_complete_true _ _) Hcomplete var) as Hv.
        apply Hv in Hvar. unfold dict_keys in Hvar. intros Hnil.
        rewrite Hnil in Hvar. by apply elem_of_nil in Hvar. }
      rewrite bool_decide_eq_true_2 by done.
      exists (Some l), st4. split; [done|]. split; [|by eauto].
      split; [congruence|]. split; [done|].
      intros l' [= <-]. by rewrite HD.
    + eexists None, _. split; [done|]. split.
      * split; [simpl; congruence|]. split; [|done].
        simpl. by apply prefix_insert_ge.
      * intros Hpart Hsol. rewrite Hnew in Hcomp.
        destruct Hcomp as [? [=]]. by apply Hpart'.
  - eexists None, _. split; [done|]. split.
    + split; [simpl; congruence|]. split; [|done]. simpl. by apply prefix_app_r.
    + intros Hpart Hsol.
      rewrite (part_of_consistent cw Hwf a' sol) in Hc; try done.
      by apply Hpart'.
Qed.

Lemma backtrack_values_search (asg : loc) (var : Var.t) (dv : list string)
    (a : Dict) (values : list string) (st : State) :
  domains st = D → asg < List.length (heap st) → deref st asg = a →
  search_assignment cw D a →
  var ∈ variables cw → var ∉ dict_keys a →
  D !! var = Some dv → Forall (λ value, value ∈ dv) values →
  List.length (unassigned cw a) < S n →
  ∃ r st', backtrack_values cw rec asg var values st = (Ok r, st') ∧
           search_post cw st r st' ∧
           (part_of a sol →
            (∃ w, dict_get sol var = Some w ∧ w ∈ values) → is_Some r).
Proof.
  intros HD Hasg Hderef Ha Hvar Hfresh Hdv Hvalues Hfuel.
  revert st HD Hasg Hderef.
  induction Hvalues as [|value values Hvalue _ IH]; intros st HD Hasg Hderef;
    simpl.
  - eexists None, st. split; [done|]. split.
    + split; [done|]. by split.
    + intros _ (w & _ & Hw). by apply elem_of_nil in Hw.
  - destruct (try_value_search asg var value st dv)
      as (r1 & st1 & Htry & (Hd1 & Hh1 & Hr1) & Hcomp1); try done;
      try by rewrite Hderef.
    rewrite Htry. destruct r1 as [l|].
    + exists (Some l), st1. split; [done|]. split; [done|]. by eauto.
    + destruct (IH st1) as (r & st' & Hrest & (Hd & Hh & Hr) & Hcomp).
      * by rewrite Hd1.
      * apply prefix_length in Hh1. lia.
      * rewrite <- Hderef. by apply prefix_deref.
      * exists r, st'. split; [done|]. split.
        -- split; [by rewrite Hd|]. split; [by etrans|].
           intros l Hl. rewrite <- Hd1. by apply Hr.
        -- intros Hpart (w & Hsol & [->|Hw]%elem_of_cons).
           ++ rewrite Hderef in Hcomp1. by destruct Hcomp1 as [? [=]].
           ++ apply Hcomp; [done|]. by exists w.
Qed.
End step.
End search.

Lemma order_domain_values_total (cw : Crossword) (D : Domains) (var : Var.t)
    (a : Dict) :
  wf_crossword cw → domains_ok cw D → var ∈ variables cw →
  ∃ l, order_domain_values cw D var a = Ok l.
Proof.
  intros Hwf Hok Hvar. pose proof Hok as [Hkeys Hnode].
  destruct (Hkeys var Hvar) as [dv Hdv].
  destruct (sorted_total (count_conflicts cw D a var) dv) as [l Hl].
  { apply Forall_forall. intros w Hw. apply count_conflicts_total; try done.
    by eapply Hnode. }
  exists l. unfold order_domain_values. apply domain_of_Ok in Hdv.
  by rewrite Hdv.
Qed.

(** On an arc-consistent, node-consistent store, [backtrack] with enough
    fuel returns: a complete assignment of the search or [None], and not
    [None] when its assignment is a part of a satisfying one whose words
    are still in the domains. *)
Lemma backtrack_search (cw : Crossword) (D : Domains) (sol : Dict) :
  wf_crossword cw → domains_ok cw D → arc_consistent cw D →
  satisfying cw sol → keeps_solution cw sol D →
  ∀ n asg st,
    domains st = D → asg < List.length (heap st) →
    search_assignment cw D (deref st asg) →
    List.length (unassigned cw (deref st asg)) < n →
    ∃ r st', backtrack n cw asg st = (Ok r, st') ∧ search_post cw st r st' ∧
             (part_of (deref st asg) sol → is_Some r).
Proof.
  intros Hwf Hok Hac Hsat Hkeep.
  induction n as [|n IH]; intros asg st HD Hasg Ha Hfuel; [lia|].
  cbn [backtrack].
  destruct (assignment_complete cw (deref st asg)) eqn:Hc.
  - exists (Some asg), st. split; [done|]. split; [|by eauto].
    split; [done|]. split; [done|]. intros l [= <-]. by rewrite HD.
  - pose proof Ha as (Hnd & Hkeys & _).
    destruct (incomplete_unassigned cw _ Hkeys Hc) as (v & Hv & Hfresh).
    rewrite HD.
    destruct (select_unassigned_variable_total cw D (deref st asg))
      as [var Hsel]; [apply Hok|by exists v|].
    rewrite Hsel.
    apply select_unassigned_variable_Ok in Hsel
      as (Hvar & Hvfresh & dv & Hdv & _).
    destruct (order_domain_values_total cw D var (deref st asg))
      as [values Hvalues]; try done.
    rewrite Hvalues.
    apply order_domain_values_Ok in Hvalues as (dv' & Hdv' & Hperm & _).
    rewrite Hdv in Hdv'. injection Hdv' as <-.
    destruct (backtrack_values_search cw Hwf D Hok Hac sol Hsat n
                (backtrack n cw) IH asg var dv (deref st asg) values st)
      as (r & st' & Hbt & Hpost & Hcomp); try done.
    { apply Forall_forall. intros w Hw. by rewrite <- Hperm. }
    exists r, st'. split; [done|]. split; [done|].
    intros Hpart. apply Hcomp; [done|].
    destruct (Hkeep var Hvar) as (w & dv' & Hw & Hdv' & Hin).
    rewrite Hdv in Hdv'. injection Hdv' as <-.
    exists w. split; [done|]. by rewrite Hperm.
Qed.

(** ** The global pass keeps every satisfying assignment *)

Section wf_pass.
Context (cw : Crossword) (Hwf : wf_crossword cw).

Lemma ac3_loop_false (fuel : nat) (arcs : list arc) (D D' : Domains) :
  Forall (valid_arc cw) arcs →
  ac3_loop fuel cw arcs D = (Ok false, D') →
  ∃ x, x ∈ variables cw ∧ D' !! x = Some [].
Proof.
  revert arcs D. induction fuel as [|n IH]; intros [|[x y] arcs] D Harcs; simpl;
    try done.
  apply Forall_cons in Harcs as [Harc Harcs].
  destruct (revise cw x y D) as [[[]|e|] D1] eqn:Hrev; try done.
  - destruct (domain_of D1 x) as [dx|e|] eqn:Hdx; try done.
    case_decide as Hlen.
    + intros [= <-]. exists x. split; [apply Harc|].
      apply domain_of_Ok in Hdx. apply nil_length_inv in Hlen. by subst.
    + apply IH. apply Forall_app. split; [done|].
      apply new_arcs_valid; [done|apply Harc].
  - by apply IH.
Qed.

Lemma revise_keeps_solution (sol : Dict) (x y : Var.t) (D : Domains)
    (b : bool) (D' : Domains) :
  satisfying cw sol → keeps_solution cw sol D →
  revise cw x y D = (Ok b, D') → keeps_solution cw sol D'.
Proof.
  intros (_ & _ & Hs3) Hkeep
    (i & j & dx & dx' & Hij & Hdx & -> & Hchar & _)%revise_Ok v Hv.
  destruct (Hkeep v Hv) as (w & dv & Hw & Hdv & Hin).
  destruct (decide (x = v)) as [->|Hne].
  - exists w, dx'. rewrite lookup_insert_eq. split; [done|]. split; [done|].
    rewrite Hdx in Hdv. injection Hdv as <-. apply Hchar. split; [done|].
    destruct (wf_overlap_vars cw Hwf _ _ _ Hij) as [_ Hy].
    destruct (Hkeep y Hy) as (w' & dy & Hw' & Hdy & Hin').
    exists dy, w'. split; [done|]. split; [done|].
    by apply (Hs3 v y i j w w').
  - exists w, dv. by rewrite lookup_insert_ne.
Qed.

Lemma pruned_keeps_solution (sol : Dict) :
  satisfying cw sol →
  keeps_solution cw sol (enforce_node_consistency (init_domains cw)).
Proof.
  intros (Hs1 & _) v Hv. destruct (Hs1 v Hv) as (w & Hw & Hin & Hlen).
  exists w, (node_filter v (words cw)). split; [done|].
  split; [by apply pruned_lookup|].
  unfold node_filter. by apply list_elem_of_filter.
Qed.

Lemma pruned_words (v : Var.t) (dv : list string) (w : string) :
  enforce_node_consistency (init_domains cw) !! v = Some dv →
  w ∈ dv → w ∈ words cw.
Proof.
  rewrite enforce_node_consistency_lookup, init_domains_lookup.
  case_decide; [|done]. simpl. intros [= <-]. unfold node_filter.
  intros Hw%list_elem_of_filter. tauto.
Qed.
End wf_pass.

(** C3: when the structure has a satisfying assignment, [solve] returns
    one: a complete assignment of vocabulary words of the right lengths,
    pairwise distinct, that agree at every overlap. *)
Theorem solve_complete (cw : Crossword) (sol : Dict) :
  wf_crossword cw → satisfying cw sol →
  ∃ l st', solve cw (init cw) = (Ok (Some l), st') ∧
    assignment_complete cw (deref st' l) = true ∧
    satisfying cw (deref st' l).
Proof.
  intros Hwf Hsat. unfold solve, init. cbn [domains].
  pose proof (pruned_domains_ok cw) as Hok1.
  pose proof (pruned_keeps_solution cw sol Hsat) as Hkeep1.
  destruct (ac3_total cw Hwf None _ Hok1 I) as (b & D2 & Hac3). rewrite Hac3.
  pose proof (ac3_loop_shrinks _ _ _ _ _ _ Hac3) as Hs.
  pose proof (domains_ok_shrinks _ _ _ Hok1 Hs) as Hok2.
  assert (keeps_solution cw sol D2) as Hkeep2.
  { revert Hac3. unfold ac3.
    apply (ac3_loop_invariant cw (keeps_solution cw sol)); [|done].
    intros x y D b' D' HI Hrev. by eapply revise_keeps_solution. }
  assert (b = true) as ->.
  { destruct b; [done|]. exfalso.
    destruct (ac3_loop_false cw Hwf _ _ _ _ (all_arcs_valid cw) Hac3)
      as (x & Hx & Hempty).
    destruct (Hkeep2 x Hx) as (w & dv & _ & Hdv & Hin).
    rewrite Hempty in Hdv. injection Hdv as <-. by apply elem_of_nil in Hin. }
  pose proof (ac3_full_arc_consistent cw Hwf _ _ Hac3) as Hac2.
  unfold alloc, with_domains. cbn [domains heap fst snd].
  destruct (backtrack_search cw D2 sol Hwf Hok2 Hac2 Hsat Hkeep2
              (S (List.length (variables cw))) (List.length ([] : list Dict))
              (mkState D2 ([] ++ [[]])))
    as (r & st' & Hbt & (_ & _ & Hr) & Hcomp); try done.
  - simpl. lia.
  - split; [constructor|]. split; [by intros v ?%elem_of_nil|].
    split; [done|]. by intros v w ?%elem_of_nil.
  - unfold unassigned. cbn [deref heap lookup]. simpl.
    pose proof (length_list_difference_le (variables cw) []). lia.
  - destruct Hcomp as [l ->]; [by intros v w ?%elem_of_nil|].
    exists l, st'. split; [done|].
    destruct (Hr l eq_refl) as [Hl Hcomplete]. split; [done|].
    apply (search_assignment_satisfying cw Hwf D2); try done.
    intros v dv w Hdv Hw.
    destruct (shrinks_lookup _ _ _ _ Hs Hdv) as (d & Hd & Hsub).
    eapply pruned_words; [exact Hd|]. by apply Hsub.
Qed.

(** ** Checking a concrete structure *)

Lemma check_crossword_sound (cw : Crossword) :
  check_crossword cw = true → wf_crossword cw.
Proof.
  unfold check_crossword. rewrite !andb_true_iff, bool_decide_eq_true.
  intros [[Hnd Hnb] Hov].
  rewrite forallb_forall in Hnb, Hov.
  assert (∀ x y i j, overlaps cw !! (x, y) = Some (Some (i, j)) →
            x ∈ variables cw ∧ y ∈ variables cw ∧
            overlaps cw !! (y, x) = Some (Some (j, i)) ∧
            i < Var.length x ∧ x ≠ y) as Hov'.
  { intros x y i j Hij.
    assert (((x, y), Some (i, j)) ∈ map_to_list (overlaps cw)) as Hin
      by by apply elem_of_map_to_list.
    apply list_elem_of_In, Hov in Hin. simpl in Hin.
    rewrite !andb_true_iff, !bool_decide_eq_true in Hin. tauto. }
  assert (∀ x, x ∈ variables cw →
            (∀ y, y ∈ neighbors cw x → overlapping cw x y = true) ∧
            (∀ y, y ∈ variables cw → overlapping cw x y = true →
                  y ∈ neighbors cw x)) as Hnb'.
  { intros x Hx. apply list_elem_of_In, Hnb in Hx.
    unfold check_neighbors_of in Hx. rewrite andb_true_iff in Hx.
    destruct Hx as [H1 H2]. rewrite forallb_forall in H1, H2. split.
    - intros y Hy. by apply H1, list_elem_of_In.
    - intros y Hy Hxy. apply list_elem_of_In, H2 in Hy.
      rewrite Hxy in Hy. simpl in Hy. by apply bool_decide_eq_true in Hy. }
  assert (∀ x y, overlapping cw x y = true ↔
            ∃ ij, overlaps cw !! (x, y) = Some (Some ij)) as Hovl.
  { intros x y. unfold overlapping.
    destruct (overlaps cw !! (x, y)) as [[ij|]|]; split; try done;
      try by intros [? [=]]. by eexists. }
  split.
  - done.
  - intros x y Hx. destruct (Hnb' x Hx) as [H1 H2]. rewrite <- Hovl. split.
    + apply H1.
    + intros Hxy. apply H2; [|done].
      apply Hovl in Hxy as [[i j] Hij]. apply Hov' in Hij. tauto.
  - intros x y [i j] Hij. apply Hov' in Hij. tauto.
  - intros x y i j Hij. apply Hov' in Hij. tauto.
  - intros x y i j Hij. apply Hov' in Hij. tauto.
  - intros x [i j] Hij. apply Hov' in Hij. tauto.
Qed.

Lemma cross_wf (vocabulary : list string) :
  wf_crossword (Examples.cross vocabulary).
Proof. apply check_crossword_sound. by vm_compute. Qed.

Lemma puzzle_solution_satisfying :
  satisfying Examples.puzzle Examples.puzzle_solution.
Proof.
  assert (∀ v, v ∈ variables Examples.puzzle →
            v = Examples.across ∨ v = Examples.down) as Hvars.
  { intros v Hv. unfold Examples.puzzle, Examples.cross, crossword_of in Hv.
    simpl in Hv. apply elem_of_cons in Hv as [->|Hv]; [by left|].
    apply list_elem_of_singleton in Hv as ->. by right. }
  split; [|split].
  - intros v [->| ->]%Hvars.
    + exists "TEN"%string. split; [done|]. split; [|done]. by left.
    + exists "EEL"%string. split; [done|]. split; [|done].
      apply elem_of_cons. right. apply elem_of_cons. right. by left.
  - intros v1 v2 w [->| ->]%Hvars [->| ->]%Hvars H1 H2; try done;
      vm_compute in H1, H2; congruence.
  - intros x y i j wx wy [->| ->]%Hvars [->| ->]%Hvars Hij H1 H2;
      vm_compute in Hij; try done;
      injection Hij as <- <-; vm_compute in H1, H2;
      injection H1 as <-; injection H2 as <-;
      by exists "E"%char.
Qed.

(** ** The domain store during [solve] *)

Lemma backtrack_empty_domain_state (n : nat) (cw : Crossword) (asg : loc)
    (st : State) (v : Var.t) :
  v ∈ variables cw → v ∉ dict_keys (deref st asg) →
  domains st !! v = Some [] →
  (backtrack (S n) cw asg st).2 = st.
Proof.
  intros Hv Hfresh Hempty. simpl.
  destruct (assignment_complete cw (deref st asg)); [done|].
  destruct (select_unassigned_variable _ _ _) as [var|e|] eqn:Hsel; [|done..].
  apply select_unassigned_variable_Ok in Hsel as (_ & _ & dv & Hdv & Hmin).
  destruct (Hmin v Hv Hfresh) as (d & Hd & Hle).
  rewrite Hempty in Hd. injection Hd as <-.
  destruct dv as [|w dv]; [|simpl in Hle; lia].
  unfold order_domain_values. apply domain_of_Ok in Hdv. by rewrite Hdv.
Qed.

(** During [solve], the search leaves the domain store as the global pass
    of [ac3] left it: either that pass returned [True] and the store is arc
    consistent, or a domain is empty and no candidate is tried. *)
Lemma solve_search_keeps_domains (cw : Crossword) (st : State)
    (r : Res (option loc)) (st' : State) :
  wf_crossword cw → solve cw st = (r, st') →
  domains st' = (ac3 cw None (enforce_node_consistency (domains st))).2.
Proof.
  intros Hwf. unfold solve.
  destruct (ac3 _ _ _) as [[[]|e|] D2] eqn:Hac3;
    unfold alloc, with_domains; cbn [domains heap fst snd];
    try by intros [= _ <-].
  - intros Hbt. apply backtrack_domains in Hbt; [done..|].
    by eapply ac3_full_arc_consistent.
  - destruct (ac3_loop_false cw Hwf _ _ _ _ (all_arcs_valid cw) Hac3)
      as (x & Hx & Hempty).
    intros Hbt.
    pose proof (backtrack_empty_domain_state (List.length (variables cw)) cw
                  (List.length (heap st))
                  (mkState D2 (heap st ++ [[]])) x Hx) as Hst.
    rewrite Hbt in Hst. cbn [snd] in Hst. rewrite Hst; [done| |done].
    unfold deref. cbn [heap]. rewrite list_lookup_middle by done.
    apply not_elem_of_nil.
Qed.

(** ** The fuel of the model never runs out *)

Lemma bind_fuel {A B : Type} (m : Res A) (f : A → Res B) :
  m ≠ OutOfFuel → (∀ a, f a ≠ OutOfFuel) → bind m f ≠ OutOfFuel.
Proof. intros Hm Hf. destruct m; simpl; [apply Hf|done|done]. Qed.

Lemma getitem_fuel (w : string) (k : nat) : getitem w k ≠ OutOfFuel.
Proof. unfold getitem. by destruct (String.get k w). Qed.

Lemma unpack_overlap_fuel (cw : Crossword) (x y : Var.t) :
  unpack_overlap cw x y ≠ OutOfFuel.
Proof. unfold unpack_overlap. by destruct (overlaps cw !! (x, y)) as [[?|]|]. Qed.

Lemma domain_of_fuel (D : Domains) (x : Var.t) : domain_of D x ≠ OutOfFuel.
Proof. unfold domain_of. by destruct (D !! x). Qed.

Lemma check_neighbors_fuel (cw : Crossword) (a : Dict) (var : Var.t)
    (word : string) (ns : list Var.t) :
  check_neighbors cw a var word ns ≠ OutOfFuel.
Proof.
  induction ns as [|n ns IH]; simpl; [done|].
  destruct (dict_get a n); [|done].
  apply bind_fuel; [apply unpack_overlap_fuel|]. intros ij.
  apply bind_fuel; [apply getitem_fuel|]. intros c1.
  apply bind_fuel; [apply getitem_fuel|]. intros c2.
  by case_decide.
Qed.

Lemma check_items_fuel (cw : Crossword) (a items : Dict) :
  check_items cw a items ≠ OutOfFuel.
Proof.
  induction items as [|[var word] items IH]; simpl; [done|].
  case_decide; [done|].
  apply bind_fuel; [apply check_neighbors_fuel|]. by intros [].
Qed.

Lemma consistent_fuel (cw : Crossword) (a : Dict) : consistent cw a ≠ OutOfFuel.
Proof. unfold consistent. case_decide; [done|apply check_items_fuel]. Qed.

Lemma sorted_fuel {A : Type} (key : A → Res nat) (l : list A) :
  (∀ x, key x ≠ OutOfFuel) → sorted key l ≠ OutOfFuel.
Proof.
  intros Hkey. unfold sorted. apply bind_fuel; [|done].
  induction l as [|x l IH]; simpl; [done|].
  apply bind_fuel; [apply Hkey|]. intros k. by apply bind_fuel.
Qed.

Lemma select_unassigned_variable_fuel (cw : Crossword) (D : Domains) (a : Dict) :
  select_unassigned_variable cw D a ≠ OutOfFuel.
Proof.
  unfold select_unassigned_variable. apply bind_fuel.
  - apply sorted_fuel. intros x. apply bind_fuel; [apply domain_of_fuel|done].
  - by intros [|var l].
Qed.

Lemma count_in_domain_fuel (word : string) (i j : nat) (dn : list string)
    (c : nat) :
  count_in_domain word i j dn c ≠ OutOfFuel.
Proof.
  revert c. induction dn as [|w' dn IH]; simpl; intros c; [done|].
  apply bind_fuel; [apply getitem_fuel|]. intros c1.
  apply bind_fuel; [apply getitem_fuel|]. intros c2. apply IH.
Qed.

Lemma count_conflicts_fuel (cw : Crossword) (D : Domains) (a : Dict)
    (var : Var.t) (word : string) :
  count_conflicts cw D a var word ≠ OutOfFuel.
Proof.
  unfold count_conflicts. generalize 0 as c.
  induction (list_difference (neighbors cw var) (dict_keys a)) as [|n ns IH];
    simpl; intros c; [done|].
  apply bind_fuel; [apply unpack_overlap_fuel|]. intros ij.
  apply bind_fuel; [apply domain_of_fuel|]. intros dn.
  apply bind_fuel; [apply count_in_domain_fuel|]. intros c'. apply IH.
Qed.

Lemma order_domain_values_fuel (cw : Crossword) (D : Domains) (var : Var.t)
    (a : Dict) :
  order_domain_values cw D var a ≠ OutOfFuel.
Proof.
  unfold order_domain_values. apply bind_fuel; [apply domain_of_fuel|].
  intros dv. apply sorted_fuel. intros w. apply count_conflicts_fuel.
Qed.

Lemma ac3_loop_fuel (cw : Crossword) (M : nat) (fuel : nat) (arcs : list arc)
    (D : Domains) :
  (∀ x, is_Some (D !! x) → List.length (neighbors cw x) ≤ M) →
  List.length arcs + S M * total_size D < fuel →
  (ac3_loop fuel cw arcs D).1 ≠ OutOfFuel.
Proof.
  revert arcs D. induction fuel as [|n IH]; intros arcs D HM Hfuel; [lia|].
  destruct arcs as [|[x y] arcs]; [done|].
  cbn [ac3_loop]. rewrite length_cons in Hfuel.
  pose proof (revise_fuel cw x y D) as Hrev.
  destruct (revise cw x y D) as [[b|e|] D1] eqn:Hrevise; [|done|done].
  apply revise_Ok in Hrevise
    as (i & j & dx & dx' & _ & Hdx & -> & _ & Hf & Ht).
  pose proof (total_size_insert D x dx dx' Hdx) as Hsize.
  destruct b.
  - destruct Ht as [Hlt _]; [done|].
    unfold domain_of. rewrite lookup_insert_eq. case_decide; [done|].
    apply IH.
    + intros v Hv. apply HM. destruct (decide (x = v)) as [<-|Hne]; [by eauto|].
      by rewrite lookup_insert_ne in Hv.
    + rewrite length_app, length_fmap.
      pose proof (length_filter (.≠ y) (neighbors cw x)) as Hlen.
      assert (List.length (neighbors cw x) ≤ M) as HMx by (apply HM; by eauto).
      nia.
  - rewrite Hf by done. rewrite insert_id by done. apply IH; [done|lia].
Qed.

Lemma ac3_fuel_enough (cw : Crossword) (arcs : option (list arc)) (D : Domains) :
  (ac3 cw arcs D).1 ≠ OutOfFuel.
Proof.
  unfold ac3. apply (ac3_loop_fuel cw (max_degree cw D)).
  - apply max_degree_bound.
  - unfold ac3_fuel. lia.
Qed.

Section fuel.
Context (cw : Crossword) (n : nat).
Context (rec : loc → State → Res (option loc) * State).
Hypothesis rec_fuel : ∀ l st,
  l < List.length (heap st) →
  List.length (unassigned cw (deref st l)) < n →
  (rec l st).1 ≠ OutOfFuel.
Hypothesis rec_prefix : ∀ l st r st',
  rec l st = (r, st') → heap st `prefix_of` heap st'.

Lemma try_value_fuel (asg : loc) (var : Var.t) (value : string) (st : State) :
  var ∈ variables cw → var ∉ dict_keys (deref st asg) →
  List.length (unassigned cw (deref st asg)) < S n →
  (try_value cw rec asg var value st).1 ≠ OutOfFuel.
Proof.
  intros Hvar Hfresh Hfuel. rewrite try_value_unfold. cbv zeta.
  rewrite dict_set_fresh by done.
  pose proof (ac3_fuel_enough cw
                (Some ((λ neighbor, (neighbor, var)) <$> neighbors cw var))
                (domains st)) as Hac3.
  destruct (ac3 _ _ _) as [[inferences|e|] D']; [|done|done].
  pose proof (consistent_fuel cw (deref st asg ++ [(var, value)])) as Hc.
  destruct (consistent _ _) as [c|e|]; [|done|done].
  destruct (c && inferences); [|done].
  set (st3 := mkState D' _).
  pose proof (rec_fuel (List.length (heap st)) st3) as Hrec.
  destruct (rec _ st3) as [[result|e|] st4]; [|done|].
  - by destruct (truthy st4 result).
  - exfalso. apply Hrec; [| |done].
    + unfold st3. simpl. rewrite length_app. simpl. lia.
    + unfold st3, deref. simpl. rewrite list_lookup_middle by done. simpl.
      pose proof (unassigned_lt cw (deref st asg) var value Hvar Hfresh).
      unfold deref in *. lia.
Qed.

Lemma backtrack_values_fuel (asg : loc) (var : Var.t) (values : list string)
    (st : State) :
  asg < List.length (heap st) →
  var ∈ variables cw → var ∉ dict_keys (deref st asg) →
  List.length (unassigned cw (deref st asg)) < S n →
  (backtrack_values cw rec asg var values st).1 ≠ OutOfFuel.
Proof.
  intros Hasg Hvar. revert st Hasg.
  induction values as [|value values IH]; intros st Hasg Hfresh Hfuel; simpl;
    [done|].
  pose proof (try_value_fuel asg var value st Hvar Hfresh Hfuel) as Htry.
  destruct (try_value _ _ _ _ _ _) as [r1 st1] eqn:Heq.
  apply (try_value_heap_prefix cw rec rec_prefix) in Heq.
  destruct r1 as [[l|]|e|]; try done.
  assert (deref st1 asg = deref st asg) as Hd by by apply prefix_deref.
  apply IH.
  - apply prefix_length in Heq. lia.
  - by rewrite Hd.
  - by rewrite Hd.
Qed.
End fuel.

Lemma backtrack_fuel (cw : Crossword) (n : nat) (asg : loc) (st : State) :
  asg < List.length (heap st) →
  List.length (unassigned cw (deref st asg)) < n →
  (backtrack n cw asg st).1 ≠ OutOfFuel.
Proof.
  revert asg st. induction n as [|n IH]; intros asg st Hasg Hfuel; [lia|].
  cbn [backtrack].
  destruct (assignment_complete _ _); [done|].
  pose proof (select_unassigned_variable_fuel cw (domains st) (deref st asg))
    as Hsel.
  destruct (select_unassigned_variable _ _ _) as [var|e|] eqn:Hvar; [|done|done].
  apply select_unassigned_variable_Ok in Hvar as (Hvar & Hfresh & _).
  pose proof (order_domain_values_fuel cw (domains st) var (deref st asg))
    as Hodv.
  destruct (order_domain_values _ _ _ _) as [values|e|]; [|done|done].
  apply (backtrack_values_fuel cw n); try done.
  intros l st0 r st0'. apply backtrack_heap_prefix.
Qed.

(** [solve] gives a result or raises, on every structure and from every
    state: the fuel that the model gives to its loops is enough. *)
Lemma solve_fuel (cw : Crossword) (st : State) : (solve cw st).1 ≠ OutOfFuel.
Proof.
  unfold solve.
  pose proof (ac3_fuel_enough cw None (enforce_node_consistency (domains st)))
    as Hac3.
  destruct (ac3 _ _ _) as [[b|e|] D2]; [|done|done].
  unfold alloc, with_domains. cbn [domains heap fst snd].
  apply backtrack_fuel.
  - simpl. rewrite length_app. simpl. lia.
  - unfold deref, unassigned. simpl. rewrite list_lookup_middle by done. simpl.
    pose proof (length_list_difference_le (variables cw) []). lia.
Qed.

(** ** [letter_grid] *)

Lemma set_cell_Ok (g : Grid) (i j : nat) (ch : ascii) (g' : Grid) :
  set_cell g i j ch = Ok g' →
  ∃ row, g !! i = Some row ∧ j < List.length row ∧
         g' = <[i := <[j := Some ch]> row]> g.
Proof.
  unfold set_cell. destruct (g !! i) as [row|]; [|done].
  case_decide; [|done]. intros [= <-]. by exists row.
Qed.

Lemma set_cell_outcome (g : Grid) (i j : nat) (ch : ascii) :
  (∃ g', set_cell g i j ch = Ok g') ∨ set_cell g i j ch = Raise IndexError.
Proof.
  unfold set_cell. destruct (g !! i) as [row|]; [|by right].
  case_decide; [left; by eexists|by right].
Qed.

Lemma set_cell_shape (h w : nat) (g : Grid) (i j : nat) (ch : ascii) (g' : Grid) :
  grid_shape h w g → set_cell g i j ch = Ok g' →
  grid_shape h w g' ∧ i < h ∧ j < w.
Proof.
  intros [Hh Hw] (row & Hrow & Hj & ->)%set_cell_Ok.
  assert (List.length row = w) as Hlen.
  { rewrite Forall_forall in Hw. apply Hw. by eapply list_elem_of_lookup_2. }
  split; [|split].
  - split; [by rewrite length_insert|].
    apply Forall_insert; [done|]. by rewrite length_insert.
  - rewrite <- Hh. by eapply lookup_lt_Some.
  - lia.
Qed.

Lemma set_cell_total (h w : nat) (g : Grid) (i j : nat) (ch : ascii) :
  grid_shape h w g → i < h → j < w → ∃ g', set_cell g i j ch = Ok g'.
Proof.
  intros [Hh Hw] Hi Hj. unfold set_cell.
  destruct (lookup_lt_is_Some_2 g i) as [row Hrow]; [lia|]. rewrite Hrow.
  assert (List.length row = w) as Hlen.
  { rewrite Forall_forall in Hw. apply Hw. by eapply list_elem_of_lookup_2. }
  rewrite decide_True by lia. by eexists.
Qed.

Lemma set_cell_get (g : Grid) (i j : nat) (ch : ascii) (g' : Grid) (r c : nat) :
  set_cell g i j ch = Ok g' →
  grid_get g' r c
  = if decide ((i, j) = (r, c)) then Some (Some ch) else grid_get g r c.
Proof.
  intros (row & Hrow & Hj & ->)%set_cell_Ok. unfold grid_get.
  assert (i < List.length g) as Hi by by eapply lookup_lt_Some.
  destruct (decide (i = r)) as [<-|Hne].
  - rewrite list_lookup_insert_eq by done. rewrite Hrow. simpl.
    destruct (decide (j = c)) as [<-|Hnc].
    + rewrite decide_True by done. by rewrite list_lookup_insert_eq.
    + rewrite decide_False by congruence. by rewrite list_lookup_insert_ne.
  - rewrite decide_False by congruence. by rewrite list_lookup_insert_ne.
Qed.

Lemma getitem_outcome (w : string) (k : nat) :
  (∃ ch, getitem w k = Ok ch) ∨ getitem w k = Raise IndexError.
Proof.
  unfold getitem. destruct (String.get k w); [left; by eexists|by right].
Qed.

Lemma write_letters_Ok (h w : nat) (v : Var.t) (word : string) (ks : list nat)
    (g g' : Grid) :
  grid_shape h w g → write_letters v word ks g = Ok g' →
  grid_shape h w g' ∧
  (∀ k, k ∈ ks → (cell_of v k).1 < h ∧ (cell_of v k).2 < w) ∧
  ∀ r c,
    (∃ k ch, k ∈ ks ∧ cell_of v k = (r, c) ∧ String.get k word = Some ch ∧
             grid_get g' r c = Some (Some ch)) ∨
    ((∀ k, k ∈ ks → cell_of v k ≠ (r, c)) ∧ grid_get g' r c = grid_get g r c).
Proof.
  revert g. induction ks as [|k ks IH]; simpl; intros g Hshape.
  - intros [= <-]. split; [done|]. split; [by intros k ?%elem_of_nil|].
    intros r c. right. split; [by intros k ?%elem_of_nil|done].
  - intros (ch & Hch%getitem_Ok & (g1 & Hset & Hrest)%bind_Ok)%bind_Ok.
    destruct (set_cell_shape _ _ _ _ _ _ _ Hshape Hset) as (Hshape1 & Hi & Hj).
    destruct (IH g1 Hshape1 Hrest) as (Hshape' & Hin & Hcells).
    split; [done|]. split.
    + intros k' [->|Hk']%elem_of_cons; [by split|by apply Hin].
    + intros r c. destruct (Hcells r c) as [(k' & ch' & Hk' & Hc' & Hg' & Hget)|[Hno Hget]].
      * left. exists k', ch'. split; [by right|done].
      * rewrite (set_cell_get _ _ _ _ _ r c Hset) in Hget.
        case_decide as Heq.
        -- left. exists k, ch. split; [by left|]. split; [|done].
           by rewrite <- Heq.
        -- right. split; [|done].
           intros k' [->|Hk']%elem_of_cons; [|by apply Hno].
           intros Hk. apply Heq. exact Hk.
Qed.

Lemma write_letters_total (h w : nat) (v : Var.t) (word : string)
    (ks : list nat) (g : Grid) :
  grid_shape h w g →
  (∀ k, k ∈ ks → k < String.length word ∧
                 (cell_of v k).1 < h ∧ (cell_of v k).2 < w) →
  ∃ g', write_letters v word ks g = Ok g'.
Proof.
  revert g. induction ks as [|k ks IH]; simpl; intros g Hshape Hks.
  - by eexists.
  - destruct (Hks k) as (Hk & Hi & Hj); [by left|].
    destruct (getitem_in_bounds word k Hk) as [ch ->]. simpl.
    destruct (set_cell_total h w g _ _ ch Hshape Hi Hj) as [g1 Hset].
    rewrite Hset. simpl. apply IH.
    + by destruct (set_cell_shape _ _ _ _ _ _ _ Hshape Hset).
    + intros k' Hk'. apply Hks. by right.
Qed.

Lemma write_letters_outcome (v : Var.t) (word : string) (ks : list nat)
    (g : Grid) :
  (∃ g', write_letters v word ks g = Ok g') ∨
  write_letters v word ks g = Raise IndexError.
Proof.
  revert g. induction ks as [|k ks IH]; cbn [write_letters]; intros g;
    [left; by eexists|].
  destruct (getitem_outcome word k) as [[ch ->]| ->]; [|by right]. cbn [bind].
  destruct (set_cell_outcome g (cell_of v k).1 (cell_of v k).2 ch)
    as [[g1 ->]| ->]; [|by right].
  cbn [bind]. apply IH.
Qed.

Lemma place_words_Ok (h w : nat) (items : Dict) (g g' : Grid) :
  grid_shape h w g → place_words items g = Ok g' →
  grid_shape h w g' ∧ fits h w items ∧
  ∀ r c,
    (∃ item k ch, item ∈ items ∧ covers item k r c ∧
                  String.get k item.2 = Some ch ∧
                  grid_get g' r c = Some (Some ch)) ∨
    ((∀ item k, item ∈ items → ¬ covers item k r c) ∧
     grid_get g' r c = grid_get g r c).
Proof.
  revert g. induction items as [|[v word] items IH]; simpl; intros g Hshape.
  - intros [= <-]. split; [done|]. split; [by intros item k ?%elem_of_nil|].
    intros r c. right. split; [by intros item k ?%elem_of_nil|done].
  - intros (g1 & Hword & Hrest)%bind_Ok.
    destruct (write_letters_Ok _ _ _ _ _ _ _ Hshape Hword)
      as (Hshape1 & Hin & Hcells1).
    destruct (IH g1 Hshape1 Hrest) as (Hshape' & Hfits & Hcells).
    split; [done|]. split.
    + intros item k [->|Hitem]%elem_of_cons Hk; [|by apply Hfits].
      apply Hin. apply elem_of_seq. simpl in *. lia.
    + intros r c.
      destruct (Hcells r c) as [(item & k & ch & Hitem & Hc & Hch & Hget)|[Hno Hget]].
      * left. exists item, k, ch. split; [by right|done].
      * destruct (Hcells1 r c) as [(k & ch & Hk & Hc & Hch & Hget1)|[Hno1 Hget1]].
        -- left. exists (v, word), k, ch. split; [by left|].
           split; [|split; [done|congruence]].
           split; [|done]. apply elem_of_seq in Hk. simpl. lia.
        -- right. split; [|congruence].
           intros item k [->|Hitem]%elem_of_cons; [|by apply Hno].
           intros [Hk Hc]. simpl in *. apply (Hno1 k); [|done].
           apply elem_of_seq. lia.
Qed.

Lemma place_words_total (h w : nat) (items : Dict) (g : Grid) :
  grid_shape h w g → fits h w items → ∃ g', place_words items g = Ok g'.
Proof.
  revert g. induction items as [|[v word] items IH]; simpl; intros g Hshape Hfits.
  - by eexists.
  - destruct (write_letters_total h w v word (seq 0 (String.length word)) g)
      as [g1 Hword]; [done| |].
    + intros k Hk%elem_of_seq. split; [lia|].
      apply (Hfits (v, word) k); [by left|simpl; lia].
    + rewrite Hword. simpl. apply IH.
      * by destruct (write_letters_Ok _ _ _ _ _ _ _ Hshape Hword).
      * intros item k Hitem. apply Hfits. by right.
Qed.

Lemma place_words_outcome (items : Dict) (g : Grid) :
  (∃ g', place_words items g = Ok g') ∨ place_words items g = Raise IndexError.
Proof.
  revert g. induction items as [|[v word] items IH]; simpl; intros g;
    [left; by eexists|].
  destruct (write_letters_outcome v word (seq 0 (String.length word)) g)
    as [[g1 ->]| ->]; [|by right].
  simpl. apply IH.
Qed.

Lemma blank_grid_shape (h w : nat) :
  grid_shape h w (replicate h (replicate w None)).
Proof.
  split; [by rewrite length_replicate|].
  apply Forall_replicate. by rewrite length_replicate.
Qed.

Lemma blank_grid_get (h w r c : nat) :
  r < h → c < w → grid_get (replicate h (replicate w None)) r c = Some None.
Proof.
  intros Hr Hc. unfold grid_get. rewrite lookup_replicate_2 by done. simpl.
  by rewrite lookup_replicate_2.
Qed.

(** X1: [letter_grid] returns a grid exactly when every letter of every
    word of the assignment falls inside the [height] by [width] grid, and
    raises [IndexError] otherwise. *)
Theorem letter_grid_returns_iff_fits (height width : nat) (a : Dict) :
  ((∃ g, letter_grid height width a = Ok g) ↔ fits height width a) ∧
  (¬ fits height width a → letter_grid height width a = Raise IndexError).
Proof.
  unfold letter_grid.
  pose proof (blank_grid_shape height width) as Hshape.
  assert ((∃ g, place_words a (replicate height (replicate width None)) = Ok g)
          ↔ fits height width a) as Hiff.
  { split.
    - intros [g Hg]. by destruct (place_words_Ok _ _ _ _ _ Hshape Hg) as (_ & ? & _).
    - by apply place_words_total. }
  split; [done|]. intros Hnot.
  destruct (place_words_outcome a (replicate height (replicate width None)))
    as [Hok|Hraise]; [|done].
  exfalso. by apply Hnot, Hiff.
Qed.

(** X2: the grid that [letter_grid] returns has [height] rows of [width]
    cells; a cell that no letter of the assignment falls on is [None], and a
    cell that holds a letter holds a letter of an assigned word that falls
    on it. *)
Theorem letter_grid_cells (height width : nat) (a : Dict) (g : Grid) :
  letter_grid height width a = Ok g →
  grid_shape height width g ∧
  ∀ r c, r < height → c < width →
    ((∀ item k, item ∈ a → ¬ covers item k r c) → grid_get g r c = Some None) ∧
    (∀ ch, grid_get g r c = Some (Some ch) →
       ∃ item k, item ∈ a ∧ covers item k r c ∧ String.get k item.2 = Some ch).
Proof.
  unfold letter_grid. intros Hg.
  destruct (place_words_Ok _ _ _ _ _ (blank_grid_shape height width) Hg)
    as (Hshape & _ & Hcells).
  split; [done|]. intros r c Hr Hc.
  destruct (Hcells r c) as [(item & k & ch & Hitem & Hcov & Hch & Hget)|[Hno Hget]].
  - split.
    + intros Hnone. exfalso. by eapply Hnone.
    + intros ch'. rewrite Hget. intros [= <-]. by exists item, k.
  - rewrite blank_grid_get in Hget by done. split; [done|].
    intros ch. by rewrite Hget.
Qed.

(** X3: when the words of the assignment agree wherever two of their
    letters fall on the same cell, the grid that [letter_grid] returns shows
    every assigned word: the cell of the [k]-th letter of a variable holds
    the [k]-th letter of its word. *)
Theorem letter_grid_shows_words (height width : nat) (a : Dict) (g : Grid) :
  letter_grid height width a = Ok g →
  (∀ item1 item2 k1 k2 r c, item1 ∈ a → item2 ∈ a →
     covers item1 k1 r c → covers item2 k2 r c →
     String.get k1 item1.2 = String.get k2 item2.2) →
  ∀ item k, item ∈ a → k < String.length item.2 →
    grid_get g (cell_of item.1 k).1 (cell_of item.1 k).2
    = Some (String.get k item.2).
Proof.
  unfold letter_grid. intros Hg Hagree item k Hitem Hk.
  destruct (place_words_Ok _ _ _ _ _ (blank_grid_shape height width) Hg)
    as (_ & _ & Hcells).
  assert (covers item k (cell_of item.1 k).1 (cell_of item.1 k).2) as Hcov.
  { split; [done|]. by destruct (cell_of item.1 k). }
  destruct (Hcells (cell_of item.1 k).1 (cell_of item.1 k).2)
    as [(item' & k' & ch & Hitem' & Hcov' & Hch & Hget)|[Hno _]].
  - rewrite Hget. f_equal. rewrite <- Hch. symmetry. by eapply Hagree.
  - exfalso. by eapply Hno.
Qed.

(** ** More on node consistency *)

Lemma node_filter_idemp (v : Var.t) (ws : list string) :
  node_filter v (node_filter v ws) = node_filter v ws.
Proof.
  unfold node_filter. induction ws as [|w ws IH]; [done|].
  rewrite filter_cons. case_decide as Hlen; [|done].
  rewrite filter_cons. rewrite decide_True by done. by rewrite IH.
Qed.

(** X4: [enforce_node_consistency] is idempotent: a second call leaves the
    domain store as the first call left it. *)
Theorem enforce_node_consistency_idempotent (D : Domains) :
  enforce_node_consistency (enforce_node_consistency D)
  = enforce_node_consistency D.
Proof.
  apply map_eq. intros v. rewrite !enforce_node_consistency_lookup.
  destruct (D !! v) as [ws|]; simpl; [|done]. by rewrite node_filter_idemp.
Qed.

(** ** More on [revise] *)

(** X6: when [revise(x, y)] returns, only the domain of [x] may have
    changed, and it has only lost words; the call returns [True] when it
    removed a word and [False] when the domain of [x] is as it was. *)
Theorem revise_frame (cw : Crossword) (x y : Var.t) (D : Domains) (b : bool)
    (D' : Domains) :
  revise cw x y D = (Ok b, D') →
  (∀ v, v ≠ x → D' !! v = D !! v) ∧
  ∃ dx dx', D !! x = Some dx ∧ D' !! x = Some dx' ∧
    (∀ w, w ∈ dx' → w ∈ dx) ∧
    (b = true → List.length dx' < List.length dx) ∧
    (b = false → dx' = dx).
Proof.
  intros (i & j & dx & dx' & _ & Hdx & -> & Hchar & Hf & Ht)%revise_Ok. split.
  - intros v Hv. by rewrite lookup_insert_ne.
  - exists dx, dx'. rewrite lookup_insert_eq. split; [done|]. split; [done|].
    split; [|split; [|done]].
    + intros w Hw. by apply Hchar.
    + intros Hb. by apply Ht.
Qed.

(** X7: when [revise(x, y)] returns for two different variables, the words
    left in the domain of [x] are exactly the words it had that agree, at
    the overlap of [(x, y)], with some word of the domain of [y]. *)
Theorem revise_keeps_supported (cw : Crossword) (x y : Var.t) (D : Domains)
    (b : bool) (D' : Domains) :
  x ≠ y → revise cw x y D = (Ok b, D') →
  ∃ i j dx dx',
    overlaps cw !! (x, y) = Some (Some (i, j)) ∧
    D !! x = Some dx ∧ D' !! x = Some dx' ∧ D' !! y = D !! y ∧
    ∀ w, w ∈ dx' ↔
      w ∈ dx ∧ ∃ dy w' c, D' !! y = Some dy ∧ w' ∈ dy ∧
                          String.get i w = Some c ∧ String.get j w' = Some c.
Proof.
  intros Hne (i & j & dx & dx' & Hij & Hdx & -> & Hchar & _)%revise_Ok.
  exists i, j, dx, dx'. rewrite lookup_insert_eq, lookup_insert_ne by done.
  split; [done|]. split; [done|]. split; [done|]. split; [done|].
  intros w. rewrite Hchar. unfold supported, agree. split.
  - intros [Hw (dy & w' & Hdy & Hw' & c & Hc1 & Hc2)]. split; [done|].
    by exists dy, w', c.
  - intros [Hw (dy & w' & c & Hdy & Hw' & Hc1 & Hc2)]. split; [done|].
    exists dy, w'. split; [done|]. split; [done|]. by exists c.
Qed.

(** X8: a call of [revise] that raises leaves the domain store as it was. *)
Theorem revise_raise_keeps_store (cw : Crossword) (x y : Var.t) (D : Domains)
    (e : exn) (D' : Domains) :
  revise cw x y D = (Raise e, D') → D' = D.
Proof. apply revise_Raise. Qed.

(** ** More on [ac3] *)

(** X9: however [ac3] ends (with [True], [False] or an exception), the
    domain store has the keys it had, and no domain has gained a word. *)
Theorem ac3_only_removes (cw : Crossword) (arcs : option (list arc))
    (D : Domains) (r : Res bool) (D' : Domains) :
  ac3 cw arcs D = (r, D') →
  ∀ v, (D' !! v = None ↔ D !! v = None) ∧
       ∀ d', D' !! v = Some d' →
         ∃ d, D !! v = Some d ∧ ∀ w, w ∈ d' → w ∈ d.
Proof.
  unfold ac3. intros Hs%ac3_loop_shrinks v. specialize (Hs v).
  destruct (D !! v) as [d|], (D' !! v) as [d'|]; try done.
  split; [done|]. intros d0 [= <-]. by exists d.
Qed.

Lemma ac3_loop_false_empty (fuel : nat) (cw : Crossword) (arcs : list arc)
    (D D' : Domains) :
  ac3_loop fuel cw arcs D = (Ok false, D') → ∃ x, D' !! x = Some [].
Proof.
  revert arcs D. induction fuel as [|n IH]; intros [|[x y] arcs] D; simpl;
    try done.
  destruct (revise cw x y D) as [[[]|e|] D1] eqn:Hrev; try done.
  - destruct (domain_of D1 x) as [dx|e|] eqn:Hdx; try done.
    case_decide as Hlen; [|by apply IH].
    intros [= <-]. exists x. apply domain_of_Ok in Hdx.
    apply nil_length_inv in Hlen. by subst.
  - by apply IH.
Qed.

(** X10: [ac3] returns [False] only when a revision has emptied a domain:
    the store it leaves then has a variable with an empty domain. *)
Theorem ac3_false_empty_domain (cw : Crossword) (arcs : option (list arc))
    (D D' : Domains) :
  ac3 cw arcs D = (Ok false, D') → ∃ x, D' !! x = Some [].
Proof. unfold ac3. apply ac3_loop_false_empty. Qed.

Lemma all_arcs_consistent (cw : Crossword) (D : Domains) :
  wf_crossword cw → arc_consistent cw D →
  Forall (λ a, arc_consistent_at cw D a.1 a.2) (all_arcs cw).
Proof.
  intros Hwf Hac. pose proof (all_arcs_valid cw) as Hvalid.
  eapply Forall_impl; [exact Hvalid|]. intros [x y] Harc. simpl.
  destruct (valid_arc_overlap cw Hwf x y Harc) as (Hy & _).
  apply Hac; [apply Harc|done].
Qed.

(** X11: a store that [ac3()] has made arc consistent is a fixed point: on
    a node-consistent store of a well-formed structure, when [ac3()] returns
    [True], a second call returns [True] and changes nothing. *)
Theorem ac3_fixed_point (cw : Crossword) (D D' : Domains) :
  wf_crossword cw → domains_ok cw D →
  ac3 cw None D = (Ok true, D') →
  ac3 cw None D' = (Ok true, D').
Proof.
  intros Hwf Hok Hac3.
  pose proof (ac3_full_arc_consistent cw Hwf _ _ Hac3) as Hac.
  pose proof (domains_ok_shrinks _ _ _ Hok (ac3_loop_shrinks _ _ _ _ _ _ Hac3))
    as Hok'.
  destruct (ac3_total cw Hwf None D' Hok' I) as (b & D'' & Hagain).
  rewrite Hagain.
  destruct (ac3_loop_noop _ _ _ _ _ _ (all_arcs_consistent cw D' Hwf Hac) Hagain)
    as [-> Hb].
  by destruct b.
Qed.

(** X12: [ac3] never removes a word of a satisfying assignment: when the
    domains hold the words of a satisfying assignment before the call, they
    hold them after it, however the call ends. *)
Theorem ac3_keeps_solutions (cw : Crossword) (sol : Dict)
    (arcs : option (list arc)) (D : Domains) (r : Res bool) (D' : Domains) :
  wf_crossword cw → satisfying cw sol → keeps_solution cw sol D →
  ac3 cw arcs D = (r, D') → keeps_solution cw sol D'.
Proof.
  intros Hwf Hsat Hkeep. unfold ac3.
  apply (ac3_loop_invariant cw (keeps_solution cw sol)); [|done].
  intros x y D0 b D1 HI Hrev. by eapply revise_keeps_solution.
Qed.

(** X13: on a node-consistent domain store that has every variable of a
    well-formed structure as a key, [ac3()] returns a boolean: it does not
    raise. *)
Theorem ac3_returns (cw : Crossword) (D : Domains) :
  wf_crossword cw → domains_ok cw D →
  ∃ b D', ac3 cw None D = (Ok b, D').
Proof. intros Hwf Hok. by apply (ac3_total cw Hwf None). Qed.

Lemma ac3_loop_all_empty (fuel : nat) (cw : Crossword) (arcs : list arc)
    (D : Domains) :
  wf_crossword cw → Forall (valid_arc cw) arcs →
  (∀ v, v ∈ variables cw → D !! v = Some []) →
  List.length arcs < fuel →
  ac3_loop fuel cw arcs D = (Ok true, D).
Proof.
  intros Hwf Harcs Hempty. revert arcs Harcs.
  induction fuel as [|n IH]; intros arcs Harcs Hfuel; [lia|].
  destruct arcs as [|[x y] arcs]; [done|]. cbn [ac3_loop].
  apply Forall_cons in Harcs as [Harc Harcs]. simpl in Hfuel.
  destruct (valid_arc_overlap cw Hwf x y Harc) as (_ & _ & i & j & Hij & _).
  assert (revise cw x y D = (Ok false, D)) as ->.
  { unfold revise. apply unpack_overlap_Ok in Hij. rewrite Hij.
    unfold domain_of. rewrite (Hempty x) by apply Harc. simpl.
    rewrite insert_id; [done|]. apply Hempty, Harc. }
  apply IH; [done|lia].
Qed.

(** X14: when every variable of a well-formed structure has an empty
    domain, as with an empty vocabulary, [ac3()] returns [True] and leaves
    the store as it is: the empty domains are not reported. *)
Theorem ac3_all_empty (cw : Crossword) (D : Domains) :
  wf_crossword cw →
  (∀ v, v ∈ variables cw → D !! v = Some []) →
  ac3 cw None D = (Ok true, D).
Proof.
  intros Hwf Hempty. unfold ac3.
  apply ac3_loop_all_empty; [done|apply all_arcs_valid|done|].
  unfold ac3_fuel. lia.
Qed.

(** ** More on [consistent] *)

(** X15: [consistent] returns [True] exactly when the words of the
    assignment are pairwise distinct, each has the length of its variable,
    and every assigned variable agrees with each of its assigned neighbours
    at their overlap. *)
Theorem consistent_true_iff (cw : Crossword) (a : Dict) :
  consistent cw a = Ok true ↔
  NoDup (dict_values a) ∧
  (∀ v w, (v, w) ∈ a → String.length w = Var.length v) ∧
  (∀ v w n wn, (v, w) ∈ a → n ∈ neighbors cw v → dict_get a n = Some wn →
     ∃ i j c, overlaps cw !! (v, n) = Some (Some (i, j)) ∧
              String.get i w = Some c ∧ String.get j wn = Some c).
Proof. apply consistent_Ok_true. Qed.

(** X16: on a well-formed structure, every partial assignment that is a
    part of a satisfying assignment passes [consistent]. *)
Theorem partial_solution_consistent (cw : Crossword) (a sol : Dict) :
  wf_crossword cw → satisfying cw sol →
  NoDup (dict_keys a) → (∀ v, v ∈ dict_keys a → v ∈ variables cw) →
  (∀ v w, (v, w) ∈ a → dict_get sol v = Some w) →
  consistent cw a = Ok true.
Proof. intros Hwf Hsat Hnd Hkeys Hpart. by apply (part_of_consistent cw Hwf a sol). Qed.

(** ** More on [select_unassigned_variable] *)

Lemma sort_by_key_head {A : Type} (kl : list (nat * A)) (k : nat) (x : A)
    (rest : list (nat * A)) :
  sort_by_key kl = (k, x) :: rest →
  ∃ l1 l2, kl = l1 ++ (k, x) :: l2 ∧
    Forall (λ p, k < p.1) l1 ∧ Forall (λ p, k ≤ p.1) l2.
Proof.
  revert k x rest. induction kl as [|[k0 x0] kl IH]; intros k x rest; [done|].
  cbn [sort_by_key]. destruct (sort_by_key kl) as [|[k1 x1] r] eqn:Hs.
  - intros [= <- <- <-].
    pose proof (sort_by_key_perm kl) as Hperm. rewrite Hs in Hperm.
    apply Permutation_nil_l in Hperm as <-. by exists [], [].
  - destruct (IH k1 x1 r eq_refl) as (l1 & l2 & -> & Hl1 & Hl2).
    cbn [insert_by_key]. case_decide as Hle.
    + intros [= <- <- <-]. exists [], (l1 ++ (k1, x1) :: l2).
      split; [done|]. split; [constructor|].
      apply Forall_app. split; [|constructor].
      * eapply Forall_impl; [exact Hl1|]. simpl. intros p Hp. lia.
      * simpl. lia.
      * eapply Forall_impl; [exact Hl2|]. simpl. intros p Hp. lia.
    + intros [= <- <- <-]. exists ((k0, x0) :: l1), l2.
      split; [done|]. split; [|done]. constructor; [simpl; lia|done].
Qed.

(** X17: [select_unassigned_variable] returns the first variable, in the
    iteration order of the unassigned variables, that has a domain of the
    smallest size: the unassigned variables before it have larger domains,
    those after it have domains at least as large. *)
Theorem select_unassigned_variable_first_smallest (cw : Crossword)
    (D : Domains) (a : Dict) (var : Var.t) :
  select_unassigned_variable cw D a = Ok var →
  ∃ before after dv,
    list_difference (variables cw) (dict_keys a) = before ++ var :: after ∧
    D !! var = Some dv ∧
    (∀ v, v ∈ before → ∃ d, D !! v = Some d ∧ List.length dv < List.length d) ∧
    (∀ v, v ∈ after → ∃ d, D !! v = Some d ∧ List.length dv ≤ List.length d).
Proof.
  unfold select_unassigned_variable, sorted.
  intros (l & (kl & Hkl & [= <-])%bind_Ok & Hhd)%bind_Ok.
  destruct (with_keys_Ok _ _ _ Hkl) as [Hsnd Hkeys].
  destruct (sort_by_key kl) as [|[k var'] rest] eqn:Hs; [done|].
  simpl in Hhd. injection Hhd as ->.
  destruct (sort_by_key_head _ _ _ _ Hs) as (l1 & l2 & -> & Hl1 & Hl2).
  rewrite fmap_app, fmap_cons in Hsnd. simpl in Hsnd.
  apply Forall_app in Hkeys as [Hk1 Hk2].
  apply Forall_cons in Hk2 as [Hkvar Hk2]. simpl in Hkvar.
  apply bind_Ok in Hkvar as (dv & Hdv%domain_of_Ok & [= <-]).
  exists l1.*2, l2.*2, dv. split; [done|]. split; [done|].
  rewrite Forall_forall in Hl1, Hl2, Hk1, Hk2. split.
  - intros v ([kv v'] & -> & Hin)%list_elem_of_fmap. simpl.
    specialize (Hk1 _ Hin). specialize (Hl1 _ Hin). simpl in *.
    apply bind_Ok in Hk1 as (d & Hd%domain_of_Ok & [= <-]). by exists d.
  - intros v ([kv v'] & -> & Hin)%list_elem_of_fmap. simpl.
    specialize (Hk2 _ Hin). specialize (Hl2 _ Hin). simpl in *.
    apply bind_Ok in Hk2 as (d & Hd%domain_of_Ok & [= <-]). by exists d.
Qed.

Lemma list_difference_all (l k : list Var.t) :
  (∀ v, v ∈ l → v ∈ k) → list_difference l k = [].
Proof.
  induction l as [|x l IH]; intros Hall; [done|]. cbn [list_difference].
  destruct (decide_rel (∈) x k) as [_|Hx].
  - apply IH. intros v Hv. apply Hall. by right.
  - exfalso. apply Hx, Hall. by left.
Qed.

(** X18: when the assignment has every variable as a key, so that none is
    unassigned, [select_unassigned_variable] raises [IndexError]. *)
Theorem select_unassigned_variable_none_left (cw : Crossword) (D : Domains)
    (a : Dict) :
  (∀ v, v ∈ variables cw → v ∈ dict_keys a) →
  select_unassigned_variable cw D a = Raise IndexError.
Proof.
  intros Hall. unfold select_unassigned_variable.
  by rewrite list_difference_all.
Qed.

(** ** More on [backtrack] *)

Section extends.
Context (cw : Crossword) (rec : loc → State → Res (option loc) * State).
Hypothesis rec_prefix : ∀ l st r st',
  rec l st = (r, st') → heap st `prefix_of` heap st'.
Hypothesis rec_extends : ∀ l st l' st',
  l < List.length (heap st) → rec l st = (Ok (Some l'), st') →
  deref st l `prefix_of` deref st' l'.

Lemma try_value_extends (asg : loc) (var : Var.t) (value : string)
    (st : State) (l' : loc) (st' : State) :
  var ∉ dict_keys (deref st asg) →
  try_value cw rec asg var value st = (Ok (Some l'), st') →
  deref st asg `prefix_of` deref st' l'.
Proof.
  intros Hfresh. rewrite try_value_unfold. cbv zeta.
  rewrite dict_set_fresh by done.
  destruct (ac3 _ _ _) as [[inferences|e|] D']; [|done|done].
  destruct (consistent _ _) as [c|e|]; [|done|done].
  destruct (c && inferences); [|done].
  destruct (rec _ _) as [[result|e|] st4] eqn:Hrec; [|done|done].
  destruct (truthy st4 result); [|done]. intros [= -> ->].
  apply rec_extends in Hrec.
  - etrans; [|exact Hrec]. unfold deref at 2. simpl.
    rewrite list_lookup_middle by done. simpl. by apply prefix_app_r.
  - simpl. rewrite length_app. simpl. lia.
Qed.

Lemma backtrack_values_extends (asg : loc) (var : Var.t)
    (values : list string) (st : State) (l' : loc) (st' : State) :
  asg < List.length (heap st) → var ∉ dict_keys (deref st asg) →
  backtrack_values cw rec asg var values st = (Ok (Some l'), st') →
  deref st asg `prefix_of` deref st' l'.
Proof.
  revert st. induction values as [|value values IH]; simpl; intros st Hasg Hfresh;
    [done|].
  destruct (try_value _ _ _ _ _ _) as [r1 st1] eqn:Htry.
  destruct r1 as [[l|]|e|]; try done.
  - intros [= -> ->]. by eapply try_value_extends.
  - apply (try_value_heap_prefix cw rec rec_prefix) in Htry.
    assert (deref st1 asg = deref st asg) as Hd by by apply prefix_deref.
    intros Hrest. rewrite <- Hd. apply IH; [|by rewrite Hd|done].
    apply prefix_length in Htry. lia.
Qed.
End extends.

(** X19: the assignment that [backtrack] returns extends the one it was
    given: it starts with the entries of that assignment, in their order. *)
Theorem backtrack_extends (fuel : nat) (cw : Crossword) (asg : loc)
    (st : State) (l' : loc) (st' : State) :
  asg < List.length (heap st) →
  backtrack fuel cw asg st = (Ok (Some l'), st') →
  deref st asg `prefix_of` deref st' l'.
Proof.
  revert asg st l' st'. induction fuel as [|n IH]; simpl; intros asg st l' st' Hasg;
    [done|].
  destruct (assignment_complete _ _); [by intros [= <- <-]|].
  destruct (select_unassigned_variable _ _ _) as [var|e|] eqn:Hsel; [|done|done].
  apply select_unassigned_variable_Ok in Hsel as (_ & Hfresh & _).
  destruct (order_domain_values _ _ _ _) as [values|e|]; [|done|done].
  apply backtrack_values_extends; try done.
  intros l st0 r st0'. apply backtrack_heap_prefix.
Qed.

(** ** The words of the assignments of the search *)

Lemma vocabulary_store_shrinks (cw : Crossword) (D D' : Domains) :
  vocabulary_store cw D → shrinks D D' → vocabulary_store cw D'.
Proof.
  intros Hv Hs v dv' w Hdv' Hw.
  destruct (shrinks_lookup _ _ _ _ Hs Hdv') as (dv & Hdv & Hsub).
  eapply Hv; [exact Hdv|]. by apply Hsub.
Qed.

Lemma elem_of_dict_set (a : Dict) (var : Var.t) (value : string)
    (v : Var.t) (w : string) :
  (v, w) ∈ dict_set a var value → (v, w) = (var, value) ∨ (v, w) ∈ a.
Proof.
  induction a as [|[k x] a IH]; simpl.
  - intros ->%list_elem_of_singleton. by left.
  - case_decide as Hk.
    + intros [Heq|Hin]%elem_of_cons; [left; congruence|right; by right].
    + intros [Heq|Hin]%elem_of_cons; [right; rewrite Heq; by left|].
      destruct (IH Hin) as [?|?]; [by left|right; by right].
Qed.

Section vocabulary.
Context (cw : Crossword) (rec : loc → State → Res (option loc) * State).
Hypothesis rec_prefix : ∀ l st r st',
  rec l st = (r, st') → heap st `prefix_of` heap st'.
Hypothesis rec_vocabulary : ∀ l st r st',
  l < List.length (heap st) →
  vocabulary_store cw (domains st) → vocabulary_assignment cw (deref st l) →
  rec l st = (r, st') →
  vocabulary_store cw (domains st') ∧
  ∀ l', r = Ok (Some l') → vocabulary_assignment cw (deref st' l').

Lemma try_value_vocabulary (asg : loc) (var : Var.t) (value : string)
    (st : State) (r : Res (option loc)) (st' : State) :
  vocabulary_store cw (domains st) → vocabulary_assignment cw (deref st asg) →
  value ∈ words cw →
  try_value cw rec asg var value st = (r, st') →
  vocabulary_store cw (domains st') ∧
  ∀ l', r = Ok (Some l') → vocabulary_assignment cw (deref st' l').
Proof.
  intros Hstore Hasg Hvalue. rewrite try_value_unfold. cbv zeta.
  destruct (ac3 _ _ _) as [r0 D'] eqn:Hac3.
  assert (vocabulary_store cw D') as Hstore'.
  { eapply vocabulary_store_shrinks; [exact Hstore|].
    by eapply ac3_loop_shrinks. }
  destruct r0 as [inferences|e|]; [|by intros [= <- <-]..].
  destruct (consistent _ _) as [c|e|]; [|by intros [= <- <-]..].
  destruct (c && inferences); [|by intros [= <- <-]].
  destruct (rec _ _) as [r1 st4] eqn:Hrec.
  apply rec_vocabulary in Hrec as [Hstore4 Hres]; [| |done|].
  - destruct r1 as [result|e|]; [|by intros [= <- <-]..].
    destruct (truthy st4 result); intros [= <- <-]; [by split|].
    split; [done|]. by intros l' [=].
  - simpl. rewrite length_app. simpl. lia.
  - unfold deref at 1. simpl. rewrite list_lookup_middle by done. simpl.
    intros v w [[= -> ->]|Hin]%elem_of_dict_set; [done|by eapply Hasg].
Qed.

Lemma backtrack_values_vocabulary (asg : loc) (var : Var.t)
    (values : list string) (st : State) (r : Res (option loc)) (st' : State) :
  asg < List.length (heap st) →
  vocabulary_store cw (domains st) → vocabulary_assignment cw (deref st asg) →
  Forall (λ value, value ∈ words cw) values →
  backtrack_values cw rec asg var values st = (r, st') →
  vocabulary_store cw (domains st') ∧
  ∀ l', r = Ok (Some l') → vocabulary_assignment cw (deref st' l').
Proof.
  intros Hasg Hstore Ha Hvalues. revert st Hasg Hstore Ha.
  induction Hvalues as [|value values Hvalue _ IH]; simpl;
    intros st Hasg Hstore Ha.
  - intros [= <- <-]. split; [done|]. by intros l' [=].
  - destruct (try_value _ _ _ _ _ _) as [r1 st1] eqn:Htry.
    pose proof (try_value_heap_prefix cw rec rec_prefix _ _ _ _ _ _ Htry)
      as Hprefix.
    apply try_value_vocabulary in Htry as [Hstore1 Hres1]; [|done..].
    destruct r1 as [[l|]|e|]; try (intros [= <- <-]; split; [done|]; done).
    apply IH; [|done|].
    + apply prefix_length in Hprefix. lia.
    + by rewrite (prefix_deref st st1 asg).
Qed.
End vocabulary.

Lemma backtrack_vocabulary (fuel : nat) (cw : Crossword) (asg : loc)
    (st : State) (r : Res (option loc)) (st' : State) :
  asg < List.length (heap st) →
  vocabulary_store cw (domains st) → vocabulary_assignment cw (deref st asg) →
  backtrack fuel cw asg st = (r, st') →
  vocabulary_store cw (domains st') ∧
  ∀ l', r = Ok (Some l') → vocabulary_assignment cw (deref st' l').
Proof.
  revert asg st r st'. induction fuel as [|n IH]; simpl;
    intros asg st r st' Hasg Hstore Ha.
  - intros [= <- <-]. split; [done|]. by intros l' [=].
  - destruct (assignment_complete _ _).
    { intros [= <- <-]. split; [done|]. by intros l' [= <-]. }
    destruct (select_unassigned_variable _ _ _) as [var|e|];
      [|intros [= <- <-]; split; [done|]; done..].
    destruct (order_domain_values _ _ _ _) as [values|e|] eqn:Hodv;
      [|intros [= <- <-]; split; [done|]; done..].
    apply order_domain_values_Ok in Hodv as (dv & Hdv & Hperm & _).
    apply backtrack_values_vocabulary; try done.
    + intros l st0 r0 st0'. apply backtrack_heap_prefix.
    + apply Forall_forall. intros w Hw. rewrite Hperm in Hw. by eapply Hstore.
Qed.

(** ** More on [solve] *)

(** X20: every word of the assignment that [solve] returns is a word of
    the vocabulary. *)
Theorem solve_returns_vocabulary (cw : Crossword) (l : loc) (st' : State) :
  solve cw (init cw) = (Ok (Some l), st') →
  ∀ v w, (v, w) ∈ deref st' l → w ∈ words cw.
Proof.
  unfold solve, init. cbn [domains].
  destruct (ac3 _ _ _) as [[b|e|] D2] eqn:Hac3; [|done|done].
  unfold alloc, with_domains. cbn [domains heap fst snd].
  intros Hbt. apply backtrack_vocabulary in Hbt as [_ Hres].
  - by apply Hres.
  - simpl. lia.
  - simpl. eapply vocabulary_store_shrinks; [|by eapply ac3_loop_shrinks].
    intros v dv w. apply pruned_words.
  - by intros v w ?%elem_of_nil.
Qed.

(** X21: on a structure without variables, [solve] returns the empty
    assignment, not [None], whatever the vocabulary. *)
Theorem solve_no_variables (cw : Crossword) :
  variables cw = [] →
  ∃ l st', solve cw (init cw) = (Ok (Some l), st') ∧ deref st' l = [].
Proof.
  intros Hvars. unfold solve, ac3, all_arcs, ac3_fuel. rewrite Hvars.
  cbn [mbind list_bind ac3_loop].
  unfold alloc, with_domains. cbn [domains heap fst snd List.length].
  cbn [backtrack].
  set (st0 := mkState _ (heap (init cw) ++ [[]])).
  assert (deref st0 (List.length (heap (init cw))) = []) as Hd by done.
  rewrite Hd.
  assert (assignment_complete cw [] = true) as ->.
  { apply assignment_complete_true. intros v. by rewrite Hvars. }
  by eexists _, _.
Qed.

(** X22: on a well-formed structure, the search of [solve] leaves the
    domain store as the global pass of [ac3] left it: the inference that
    [backtrack] runs for each candidate removes no word. *)
Theorem solve_keeps_pruned_domains (cw : Crossword) (st : State)
    (r : Res (option loc)) (st' : State) :
  wf_crossword cw → solve cw st = (r, st') →
  domains st' = (ac3 cw None (enforce_node_consistency (domains st))).2.
Proof. apply solve_search_keeps_domains. Qed.

(** X23: [solve] drops the result of [ac3()], and loses nothing by it: on a
    well-formed structure, when the global pass returns [False], [solve]
    returns [None] without trying a candidate. *)
Theorem solve_after_failed_pass (cw : Crossword) (D2 : Domains) :
  wf_crossword cw →
  ac3 cw None (enforce_node_consistency (init_domains cw)) = (Ok false, D2) →
  solve cw (init cw) = (Ok None, mkState D2 [[]]).
Proof.
  intros Hwf Hac3. unfold solve, init. cbn [domains]. rewrite Hac3.
  unfold alloc, with_domains. cbn [domains heap fst snd List.length app].
  destruct (ac3_loop_false cw Hwf _ _ _ _ (all_arcs_valid cw) Hac3)
    as (x & Hx & Hempty).
  pose proof (domains_ok_shrinks _ _ _ (pruned_domains_ok cw)
                (ac3_loop_shrinks _ _ _ _ _ _ Hac3)) as [Hkeys _].
  apply (backtrack_empty_domain _ _ _ _ x); try done.
  apply not_elem_of_nil.
Qed.

(** X24: when an unassigned variable has an empty domain, and every
    variable has a domain, [backtrack] returns [None] at once: it tries no
    candidate and leaves the domains and the assignments as they are. *)
Theorem backtrack_dead_end (n : nat) (cw : Crossword) (asg : loc) (st : State)
    (v : Var.t) :
  (∀ x, x ∈ variables cw → is_Some (domains st !! x)) →
  v ∈ variables cw → v ∉ dict_keys (deref st asg) →
  domains st !! v = Some [] →
  backtrack (S n) cw asg st = (Ok None, st).
Proof. apply backtrack_empty_domain. Qed.

(** ** The search returns *)

Section returns.
Context (cw : Crossword) (Hwf : wf_crossword cw).
Context (D : Domains) (Hok : domains_ok cw D) (Hac : arc_consistent cw D).

Section step.
Context (n : nat) (rec : loc → State → Res (option loc) * State).
Hypothesis rec_returns : ∀ l st,
  domains st = D → l < List.length (heap st) →
  search_assignment cw D (deref st l) →
  List.length (unassigned cw (deref st l)) < n →
  ∃ r st', rec l st = (Ok r, st') ∧ search_post cw st r st'.

Lemma try_value_returns (asg : loc) (var : Var.t) (value : string)
    (st : State) (dv : list string) :
  domains st = D → asg < List.length (heap st) →
  search_assignment cw D (deref st asg) →
  var ∈ variables cw → var ∉ dict_keys (deref st asg) →
  D !! var = Some dv → value ∈ dv →
  List.length (unassigned cw (deref st asg)) < S n →
  ∃ r st', try_value cw rec asg var value st = (Ok r, st') ∧
           search_post cw st r st'.
Proof.
  intros HD Hasg Ha Hvar Hfresh Hdv Hvalue Hfuel.
  rewrite try_value_unfold. cbv zeta. rewrite dict_set_fresh by done.
  set (a := deref st asg) in *. set (a' := a ++ [(var, value)]).
  rewrite HD.
  destruct (ac3_total cw Hwf
              (Some ((λ neighbor, (neighbor, var)) <$> neighbors cw var)) D Hok)
    as (b & D' & Hac3); [by apply local_arcs_valid|].
  rewrite Hac3.
  destruct (ac3_local_noop _ _ _ _ _ Hwf Hac Hvar Hac3) as [-> Hb].
  destruct b; [|done]. clear Hb Hac3.
  pose proof (search_assignment_lengths cw D Hok a Ha) as Hlens.
  pose proof Ha as (Hnd & Hkeys & Hcons & Hfrom).
  assert (∀ v w, (v, w) ∈ a' →
            v ∈ variables cw ∧ String.length w = Var.length v) as Hlens'.
  { intros v w [Hin|Hin]%elem_of_app; [by apply Hlens|].
    apply list_elem_of_singleton in Hin. injection Hin as -> ->.
    split; [done|]. by eapply Hok. }
  assert (NoDup (dict_keys a') ∧ ∀ v, v ∈ dict_keys a' → v ∈ variables cw)
    as [Hnd' Hkeys'].
  { unfold a'. rewrite dict_keys_snoc. split.
    - apply NoDup_app. split; [done|]. split; [|apply NoDup_singleton].
      intros v Hv Hv'. apply list_elem_of_singleton in Hv' as ->. done.
    - intros v [Hv|Hv]%elem_of_app; [by apply Hkeys|].
      by apply list_elem_of_singleton in Hv as ->. }
  destruct (consistent_total cw Hwf a' Hlens') as [c Hc]. rewrite Hc.
  destruct c; simpl.
  - set (st3 := mkState D (heap st ++ [a'])).
    assert (deref st3 (List.length (heap st)) = a') as Hnew.
    { unfold deref. simpl. by rewrite list_lookup_middle. }
    destruct (rec_returns (List.length (heap st)) st3)
      as (r1 & st4 & Hrec & (Hd4 & Hh4 & Hr1)); [done| | | |].
    { simpl. rewrite length_app. simpl. lia. }
    { rewrite Hnew. split; [done|]. split; [done|]. split; [done|].
      intros v w [Hin|Hin]%elem_of_app; [by apply Hfrom|].
      apply list_elem_of_singleton in Hin. injection Hin as -> ->.
      by exists dv. }
    { rewrite Hnew. pose proof (unassigned_lt cw a var value Hvar Hfresh) as Hlt.
      fold a' in Hlt. lia. }
    rewrite Hrec. simpl in Hd4, Hh4, Hr1.
    assert (heap st `prefix_of` heap st4) as Hprefix.
    { etrans; [|exact Hh4]. by apply prefix_app_r. }
    destruct r1 as [l|]; simpl.
    + destruct (Hr1 l eq_refl) as [Hl Hcomplete].
      assert (deref st4 l ≠ []) as Hne.
      { pose proof (proj1 (assignment_complete_true _ _) Hcomplete var) as Hv.
        apply Hv in Hvar. unfold dict_keys in Hvar. intros Hnil.
        rewrite Hnil in Hvar. by apply elem_of_nil in Hvar. }
      rewrite bool_decide_eq_true_2 by done.
      exists (Some l), st4. split; [done|].
      split; [congruence|]. split; [done|].
      intros l' [= <-]. by rewrite HD.
    + eexists None, _. split; [done|].
      split; [simpl; congruence|]. split; [|done].
      simpl. by apply prefix_insert_ge.
  - eexists None, _. split; [done|].
    split; [simpl; congruence|]. split; [|done]. simpl. by apply prefix_app_r.
Qed.

Lemma backtrack_values_returns (asg : loc) (var : Var.t) (dv : list string)
    (a : Dict) (values : list string) (st : State) :
  domains st = D → asg < List.length (heap st) → deref st asg = a →
  search_assignment cw D a →
  var ∈ variables cw → var ∉ dict_keys a →
  D !! var = Some dv → Forall (λ value, value ∈ dv) values →
  List.length (unassigned cw a) < S n →
  ∃ r st', backtrack_values cw rec asg var values st = (Ok r, st') ∧
           search_post cw st r st'.
Proof.
  intros HD Hasg Hderef Ha Hvar Hfresh Hdv Hvalues Hfuel.
  revert st HD Hasg Hderef.
  induction Hvalues as [|value values Hvalue _ IH]; intros st HD Hasg Hderef;
    simpl.
  - eexists None, st. split; [done|]. split; [done|]. by split.
  - destruct (try_value_returns asg var value st dv)
      as (r1 & st1 & Htry & (Hd1 & Hh1 & Hr1)); try done;
      try by rewrite Hderef.
    rewrite Htry. destruct r1 as [l|].
    + exists (Some l), st1. by split.
    + destruct (IH st1) as (r & st' & Hrest & (Hd & Hh & Hr)).
      * by rewrite Hd1.
      * apply prefix_length in Hh1. lia.
      * rewrite <- Hderef. by apply prefix_deref.
      * exists r, st'. split; [done|].
        split; [by rewrite Hd|]. split; [by etrans|].
        intros l Hl. rewrite <- Hd1. by apply Hr.
Qed.
End step.

Lemma backtrack_returns (n : nat) (asg : loc) (st : State) :
  domains st = D → asg < List.length (heap st) →
  search_assignment cw D (deref st asg) →
  List.length (unassigned cw (deref st asg)) < n →
  ∃ r st', backtrack n cw asg st = (Ok r, st') ∧ search_post cw st r st'.
Proof.
  revert asg st. induction n as [|n IH]; intros asg st HD Hasg Ha Hfuel; [lia|].
  cbn [backtrack].
  destruct (assignment_complete cw (deref st asg)) eqn:Hc.
  - exists (Some asg), st. split; [done|].
    split; [done|]. split; [done|]. intros l [= <-]. by rewrite HD.
  - pose proof Ha as (Hnd & Hkeys & _).
    destruct (incomplete_unassigned cw _ Hkeys Hc) as (v & Hv & Hfresh).
    rewrite HD.
    destruct (select_unassigned_variable_total cw D (deref st asg))
      as [var Hsel]; [apply Hok|by exists v|].
    rewrite Hsel.
    apply select_unassigned_variable_Ok in Hsel
      as (Hvar & Hvfresh & dv & Hdv & _).
    destruct (order_domain_values_total cw D var (deref st asg))
      as [values Hvalues]; try done.
    rewrite Hvalues.
    apply order_domain_values_Ok in Hvalues as (dv' & Hdv' & Hperm & _).
    rewrite Hdv in Hdv'. injection Hdv' as <-.
    apply (backtrack_values_returns n (backtrack n cw) IH asg var dv
             (deref st asg)); try done.
    apply Forall_forall. intros w Hw. by rewrite <- Hperm.
Qed.
End returns.

(** What [solve] does on a fresh creator for a well-formed structure: it
    returns, and the result is [None] or a complete assignment of the
    search over the pruned domains. *)
Lemma solve_outcome (cw : Crossword) :
  wf_crossword cw →
  ∃ r st', solve cw (init cw) = (Ok r, st') ∧
    ∀ l, r = Some l →
      search_assignment cw (search_domains cw) (deref st' l) ∧
      assignment_complete cw (deref st' l) = true.
Proof.
  intros Hwf. unfold solve, init, search_domains. cbn [domains].
  pose proof (pruned_domains_ok cw) as Hok1.
  destruct (ac3_total cw Hwf None _ Hok1 I) as (b & D2 & Hac3). rewrite Hac3.
  pose proof (ac3_loop_shrinks _ _ _ _ _ _ Hac3) as Hs.
  pose proof (domains_ok_shrinks _ _ _ Hok1 Hs) as Hok2.
  unfold alloc, with_domains. cbn [domains heap fst snd List.length app].
  destruct b.
  - pose proof (ac3_full_arc_consistent cw Hwf _ _ Hac3) as Hac2.
    destruct (backtrack_returns cw Hwf D2 Hok2 Hac2
                (S (List.length (variables cw))) 0 (mkState D2 [[]]))
      as (r & st' & Hbt & (_ & _ & Hr)); try done.
    + simpl. lia.
    + split; [constructor|]. split; [by intros v ?%elem_of_nil|].
      split; [done|]. by intros v w ?%elem_of_nil.
    + unfold unassigned. simpl.
      pose proof (length_list_difference_le (variables cw) []). lia.
    + exists r, st'. split; [done|]. intros l Hl. by apply Hr.
  - destruct (ac3_loop_false cw Hwf _ _ _ _ (all_arcs_valid cw) Hac3)
      as (x & Hx & Hempty).
    exists None, (mkState D2 [[]]). split; [|done].
    apply (backtrack_empty_domain _ _ _ _ x); try done; [apply Hok2|].
    apply not_elem_of_nil.
Qed.

(** X25: on a well-formed structure, [solve] returns: an assignment or
    [None], and no exception leaves it. *)
Theorem solve_returns (cw : Crossword) :
  wf_crossword cw → ∃ r st', solve cw (init cw) = (Ok r, st').
Proof.
  intros Hwf. destruct (solve_outcome cw Hwf) as (r & st' & Hsolve & _).
  by exists r, st'.
Qed.

Lemma solve_finds (cw : Crossword) (sol : Dict) :
  wf_crossword cw → satisfying cw sol →
  ∃ l st', solve cw (init cw) = (Ok (Some l), st').
Proof.
  intros Hwf Hsat. unfold solve, init. cbn [domains].
  pose proof (pruned_domains_ok cw) as Hok1.
  pose proof (pruned_keeps_solution cw sol Hsat) as Hkeep1.
  destruct (ac3_total cw Hwf None _ Hok1 I) as (b & D2 & Hac3). rewrite Hac3.
  pose proof (ac3_loop_shrinks _ _ _ _ _ _ Hac3) as Hs.
  pose proof (domains_ok_shrinks _ _ _ Hok1 Hs) as Hok2.
  assert (keeps_solution cw sol D2) as Hkeep2.
  { revert Hac3. unfold ac3.
    apply (ac3_loop_invariant cw (keeps_solution cw sol)); [|done].
    intros x y D b' D' HI Hrev. by eapply revise_keeps_solution. }
  assert (b = true) as ->.
  { destruct b; [done|]. exfalso.
    destruct (ac3_loop_false cw Hwf _ _ _ _ (all_arcs_valid cw) Hac3)
      as (x & Hx & Hempty).
    destruct (Hkeep2 x Hx) as (w & dv & _ & Hdv & Hin).
    rewrite Hempty in Hdv. injection Hdv as <-. by apply elem_of_nil in Hin. }
  pose proof (ac3_full_arc_consistent cw Hwf _ _ Hac3) as Hac2.
  unfold alloc, with_domains. cbn [domains heap fst snd List.length app].
  destruct (backtrack_search cw D2 sol Hwf Hok2 Hac2 Hsat Hkeep2
              (S (List.length (variables cw))) 0 (mkState D2 [[]]))
    as (r & st' & Hbt & _ & Hcomp); try done.
  - simpl. lia.
  - split; [constructor|]. split; [by intros v ?%elem_of_nil|].
    split; [done|]. by intros v w ?%elem_of_nil.
  - unfold unassigned. simpl.
    pose proof (length_list_difference_le (variables cw) []). lia.
  - destruct Hcomp as [l ->]; [by intros v w ?%elem_of_nil|]. by exists l, st'.
Qed.

Lemma search_domains_vocabulary (cw : Crossword) :
  vocabulary_store cw (search_domains cw).
Proof.
  unfold search_domains.
  destruct (ac3 _ _ _) as [r D2] eqn:Hac3. simpl.
  eapply vocabulary_store_shrinks; [|by eapply ac3_loop_shrinks].
  intros v dv w. apply pruned_words.
Qed.

(** X26: on a well-formed structure, [solve] decides the puzzle: either it
    returns a satisfying assignment, or it returns [None] and the structure
    has no satisfying assignment with this vocabulary. *)
Theorem solve_decides (cw : Crossword) :
  wf_crossword cw →
  (∃ l st', solve cw (init cw) = (Ok (Some l), st') ∧
            satisfying cw (deref st' l)) ∨
  (∃ st', solve cw (init cw) = (Ok None, st') ∧ ∀ sol, ¬ satisfying cw sol).
Proof.
  intros Hwf. destruct (solve_outcome cw Hwf) as (r & st' & Hsolve & Hr).
  destruct r as [l|].
  - left. exists l, st'. split; [done|].
    destruct (Hr l eq_refl) as [Ha Hc].
    apply (search_assignment_satisfying cw Hwf (search_domains cw)); try done.
    apply search_domains_vocabulary.
  - right. exists st'. split; [done|]. intros sol Hsat.
    destruct (solve_finds cw sol Hwf Hsat) as (l & st'' & Hfound). congruence.
Qed.

(** ** Stability of [sorted] *)

Lemma insert_by_key_filter {A : Type} (k0 k : nat) (x : A)
    (l : list (nat * A)) :
  filter (λ p, p.1 = k0) (insert_by_key k x l)
  = filter (λ p, p.1 = k0) ((k, x) :: l).
Proof.
  induction l as [|[k' y] l IH]; [done|]. simpl.
  case_decide as Hle; [done|].
  rewrite (filter_cons _ (k', y)), IH, !(filter_cons _ (k, x)),
    (filter_cons _ (k', y)). simpl.
  repeat case_decide; try done; lia.
Qed.

Lemma sort_by_key_filter {A : Type} (k0 : nat) (l : list (nat * A)) :
  filter (λ p, p.1 = k0) (sort_by_key l) = filter (λ p, p.1 = k0) l.
Proof.
  induction l as [|[k x] l IH]; [done|]. simpl.
  by rewrite insert_by_key_filter, !(filter_cons _ (k, x)), IH.
Qed.

Lemma keyed_filter {A : Type} (score : A → nat) (k0 : nat)
    (kl : list (nat * A)) :
  Forall (λ p, p.1 = score p.2) kl →
  filter (λ x, score x = k0) (kl.*2) = (filter (λ p, p.1 = k0) kl).*2.
Proof.
  induction 1 as [|[k x] kl Hk _ IH]; [done|]. simpl in Hk. subst k.
  csimpl. rewrite (filter_cons _ x), (filter_cons _ (score x, x)), IH. simpl.
  by case_decide.
Qed.

Lemma sorted_stable {A : Type} (key : A → Res nat) (score : A → nat)
    (l l' : list A) (k0 : nat) :
  (∀ x k, key x = Ok k → k = score x) →
  sorted key l = Ok l' →
  filter (λ x, score x = k0) l' = filter (λ x, score x = k0) l.
Proof.
  intros Hscore. unfold sorted. intros (kl & Hkl & [= <-])%bind_Ok.
  destruct (with_keys_Ok _ _ _ Hkl) as [<- Hall].
  assert (Forall (λ p, p.1 = score p.2) kl) as Hkeys.
  { eapply Forall_impl; [exact Hall|]. intros p Hp. by apply Hscore. }
  rewrite !keyed_filter, ?sort_by_key_filter; [done|done|].
  by rewrite sort_by_key_perm.
Qed.

(** X27: [order_domain_values] is stable, as Python's [sorted] is: the
    candidates with one and the same number of conflicts come in the order
    in which the domain of the variable has them. *)
Theorem order_domain_values_stable (cw : Crossword) (D : Domains)
    (var : Var.t) (a : Dict) (dv l : list string) (k : nat) :
  D !! var = Some dv →
  order_domain_values cw D var a = Ok l →
  filter (λ w, lcv_score cw D a var w = k) l
  = filter (λ w, lcv_score cw D a var w = k) dv.
Proof.
  intros Hdv. unfold order_domain_values.
  intros (dv' & Hdv'%domain_of_Ok & Hsorted)%bind_Ok.
  assert (dv' = dv) as -> by congruence.
  eapply sorted_stable; [|exact Hsorted].
  intros w k'. apply count_conflicts_Ok.
Qed.

(** X28: for an assignment of variables of the puzzle, [assignment_complete]
    holds exactly when the assignment has as many entries as the puzzle has
    variables. *)
Theorem assignment_complete_iff_length (cw : Crossword) (a : Dict) :
  NoDup (variables cw) → NoDup (dict_keys a) →
  (∀ v, v ∈ dict_keys a → v ∈ variables cw) →
  assignment_complete cw a = true
  ↔ List.length a = List.length (variables cw).
Proof.
  intros Hvars Hkeys Hsub. rewrite assignment_complete_true.
  assert (List.length (dict_keys a) = List.length a) as <-
    by (unfold dict_keys; apply length_fmap).
  split.
  - intros Hsame. by apply Permutation_length, NoDup_Permutation.
  - intros Hlen.
    assert (dict_keys a ≡ₚ variables cw) as Hperm.
    { apply submseteq_length_Permutation; [|lia].
      by apply NoDup_submseteq. }
    intros v. by rewrite Hperm.
Qed.

(** ** The theorems at concrete inputs *)

Lemma enforce_node_consistency_spec_witness :
  init_domains (Examples.cross ["TEN"; "AT"]%string) !! Examples.across
    = Some ["TEN"; "AT"]%string ∧
  ∃ ws',
    enforce_node_consistency (init_domains (Examples.cross ["TEN"; "AT"]%string))
      !! Examples.across = Some ws' ∧
    (∀ w, w ∈ ws' →
       w ∈ ["TEN"; "AT"]%string ∧ String.length w = Var.length Examples.across) ∧
    (∀ w, w ∈ ["TEN"; "AT"]%string →
       (w ∉ ws' ↔ String.length w ≠ Var.length Examples.across)).
Proof.
  split; [by vm_compute|].
  apply enforce_node_consistency_spec. by vm_compute.
Defined.

Lemma solve_sound_witness :
  solve Examples.puzzle (init Examples.puzzle)
    = (Ok (Some 2), (solve Examples.puzzle (init Examples.puzzle)).2) ∧
  assignment_complete Examples.puzzle
    (deref (solve Examples.puzzle (init Examples.puzzle)).2 2) = true ∧
  (∀ v, v ∈ variables Examples.puzzle →
     ∃ w, dict_get (deref (solve Examples.puzzle (init Examples.puzzle)).2 2) v
          = Some w) ∧
  consistent Examples.puzzle
    (deref (solve Examples.puzzle (init Examples.puzzle)).2 2) = Ok true ∧
  consistent_spec Examples.puzzle
    (deref (solve Examples.puzzle (init Examples.puzzle)).2 2).
Proof.
  assert (solve Examples.puzzle (init Examples.puzzle)
          = (Ok (Some 2), (solve Examples.puzzle (init Examples.puzzle)).2))
    as Hsolve by by vm_compute.
  split; [exact Hsolve|]. exact (solve_sound _ _ _ _ Hsolve).
Defined.

Lemma solve_complete_witness :
  wf_crossword Examples.puzzle ∧
  satisfying Examples.puzzle Examples.puzzle_solution ∧
  ∃ l st', solve Examples.puzzle (init Examples.puzzle) = (Ok (Some l), st') ∧
    assignment_complete Examples.puzzle (deref st' l) = true ∧
    satisfying Examples.puzzle (deref st' l).
Proof.
  split; [apply cross_wf|]. split; [apply puzzle_solution_satisfying|].
  apply (solve_complete Examples.puzzle Examples.puzzle_solution).
  - apply check_crossword_sound. by vm_compute.
  - apply puzzle_solution_satisfying.
Defined.

Lemma ac3_arc_consistent_witness :
  wf_crossword Examples.puzzle ∧
  ac3 Examples.puzzle None
    (enforce_node_consistency (init_domains Examples.puzzle))
    = (Ok true, search_domains Examples.puzzle) ∧
  Examples.across ∈ variables Examples.puzzle ∧
  Examples.down ∈ variables Examples.puzzle ∧
  overlaps Examples.puzzle !! (Examples.across, Examples.down)
    = Some (Some (1, 0)) ∧
  search_domains Examples.puzzle !! Examples.across
    = Some ["TEN"; "ANT"; "EEL"; "NET"]%string ∧
  "ANT"%string ∈ ["TEN"; "ANT"; "EEL"; "NET"]%string ∧
  ∃ dy w' c,
    search_domains Examples.puzzle !! Examples.down = Some dy ∧ w' ∈ dy ∧
    String.get 1 "ANT" = Some c ∧ String.get 0 w' = Some c.
Proof.
  assert (wf_crossword Examples.puzzle) as Hwf
    by (apply check_crossword_sound; by vm_compute).
  assert (ac3 Examples.puzzle None
            (enforce_node_consistency (init_domains Examples.puzzle))
          = (Ok true, search_domains Examples.puzzle)) as Hac3 by by vm_compute.
  assert (Examples.across ∈ variables Examples.puzzle) as Hx by by_evaluation.
  assert (Examples.down ∈ variables Examples.puzzle) as Hy by by_evaluation.
  assert (overlaps Examples.puzzle !! (Examples.across, Examples.down)
          = Some (Some (1, 0))) as Hij by by vm_compute.
  assert (search_domains Examples.puzzle !! Examples.across
          = Some ["TEN"; "ANT"; "EEL"; "NET"]%string) as Hdx by by vm_compute.
  assert ("ANT"%string ∈ ["TEN"; "ANT"; "EEL"; "NET"]%string) as Hw
    by by_evaluation.
  repeat (split; [assumption|]).
  exact (ac3_arc_consistent _ _ _ Hwf Hac3 _ _ _ _ _ _ Hx Hy Hij Hdx Hw).
Defined.

Lemma solve_no_word_of_length_witness :
  wf_crossword Examples.short_words ∧
  Examples.across ∈ variables Examples.short_words ∧
  (∀ w, w ∈ words Examples.short_words →
     String.length w ≠ Var.length Examples.across) ∧
  ∃ st', solve Examples.short_words (init Examples.short_words) = (Ok None, st').
Proof.
  assert (wf_crossword Examples.short_words) as Hwf
    by (apply check_crossword_sound; by vm_compute).
  assert (Examples.across ∈ variables Examples.short_words) as Hv
    by by_evaluation.
  assert (∀ w, w ∈ words Examples.short_words →
            String.length w ≠ Var.length Examples.across) as Hnone.
  { apply Forall_forall. by_evaluation. }
  repeat (split; [assumption|]).
  exact (solve_no_word_of_length _ _ Hwf Hv Hnone).
Defined.

Lemma order_domain_values_spec_witness :
  wf_crossword Examples.puzzle ∧
  domains_ok Examples.puzzle
    (enforce_node_consistency (init_domains Examples.puzzle)) ∧
  Examples.across ∈ variables Examples.puzzle ∧
  ∃ dv l,
    enforce_node_consistency (init_domains Examples.puzzle) !! Examples.across
      = Some dv ∧
    order_domain_values Examples.puzzle
      (enforce_node_consistency (init_domains Examples.puzzle))
      Examples.across [] = Ok l ∧
    l ≡ₚ dv ∧
    StronglySorted
      (λ w1 w2,
         lcv_score Examples.puzzle
           (enforce_node_consistency (init_domains Examples.puzzle)) []
           Examples.across w1
         ≤ lcv_score Examples.puzzle
             (enforce_node_consistency (init_domains Examples.puzzle)) []
             Examples.across w2) l.
Proof.
  assert (wf_crossword Examples.puzzle) as Hwf
    by (apply check_crossword_sound; by vm_compute).
  assert (Examples.across ∈ variables Examples.puzzle) as Hv by by_evaluation.
  split; [assumption|]. split; [apply pruned_domains_ok|].
  split; [assumption|].
  exact (order_domain_values_spec _ _ _ [] Hwf
           (pruned_domains_ok Examples.puzzle) Hv).
Defined.

Lemma backtrack_preserves_assignment_witness :
  0 < List.length (heap (mkState (search_domains Examples.puzzle) [[]])) ∧
  backtrack 3 Examples.puzzle 0 (mkState (search_domains Examples.puzzle) [[]])
    = (Ok (Some 2),
       (backtrack 3 Examples.puzzle 0
          (mkState (search_domains Examples.puzzle) [[]])).2) ∧
  heap (backtrack 3 Examples.puzzle 0
          (mkState (search_domains Examples.puzzle) [[]])).2 !! 0
    = heap (mkState (search_domains Examples.puzzle) [[]]) !! 0 ∧
  deref (backtrack 3 Examples.puzzle 0
           (mkState (search_domains Examples.puzzle) [[]])).2 0
    = deref (mkState (search_domains Examples.puzzle) [[]]) 0.
Proof.
  assert (0 < List.length (heap (mkState (search_domains Examples.puzzle) [[]])))
    as Hasg by (simpl; lia).
  assert (backtrack 3 Examples.puzzle 0
            (mkState (search_domains Examples.puzzle) [[]])
          = (Ok (Some 2),
             (backtrack 3 Examples.puzzle 0
                (mkState (search_domains Examples.puzzle) [[]])).2))
    as Hbt by by vm_compute.
  split; [assumption|]. split; [assumption|].
  exact (backtrack_preserves_assignment _ _ _ _ _ _ Hasg Hbt).
Defined.

Lemma solve_branch_keeps_domains_witness :
  wf_crossword Examples.lone ∧
  ac3 Examples.lone None
    (enforce_node_consistency (init_domains Examples.lone))
    = (Ok true, search_domains Examples.lone) ∧
  domains (mkState (search_domains Examples.lone) [[]])
    = search_domains Examples.lone ∧
  Examples.across ∈ variables Examples.lone ∧
  try_value Examples.lone (backtrack 2 Examples.lone) 0 Examples.across "EEL"
    (mkState (search_domains Examples.lone) [[]])
    = (Ok None,
       (try_value Examples.lone (backtrack 2 Examples.lone) 0
          Examples.across "EEL"
          (mkState (search_domains Examples.lone) [[]])).2) ∧
  domains (try_value Examples.lone (backtrack 2 Examples.lone) 0
             Examples.across "EEL"
             (mkState (search_domains Examples.lone) [[]])).2
    = search_domains Examples.lone.
Proof.
  assert (wf_crossword Examples.lone) as Hwf
    by (apply check_crossword_sound; by vm_compute).
  assert (ac3 Examples.lone None
            (enforce_node_consistency (init_domains Examples.lone))
          = (Ok true, search_domains Examples.lone)) as Hpass by by vm_compute.
  assert (domains (mkState (search_domains Examples.lone) [[]])
          = search_domains Examples.lone) as Hst by reflexivity.
  assert (Examples.across ∈ variables Examples.lone) as Hv by by_evaluation.
  assert (try_value Examples.lone (backtrack 2 Examples.lone) 0
            Examples.across "EEL"
            (mkState (search_domains Examples.lone) [[]])
          = (Ok None,
             (try_value Examples.lone (backtrack 2 Examples.lone) 0
                Examples.across "EEL"
                (mkState (search_domains Examples.lone) [[]])).2))
    as Htry by by vm_compute.
  repeat (split; [assumption|]).
  exact (solve_branch_keeps_domains _ _ _ _ _ _ _ _ _ _ Hwf Hpass Hst Hv Htry).
Defined.

(** ** Further properties at concrete inputs *)

Lemma letter_grid_cells_witness :
  letter_grid 3 3 Examples.puzzle_solution = Ok Examples.puzzle_grid ∧
  grid_shape 3 3 Examples.puzzle_grid ∧
  ∀ r c, r < 3 → c < 3 →
    ((∀ item k, item ∈ Examples.puzzle_solution → ¬ covers item k r c) →
     grid_get Examples.puzzle_grid r c = Some None) ∧
    (∀ ch, grid_get Examples.puzzle_grid r c = Some (Some ch) →
       ∃ item k, item ∈ Examples.puzzle_solution ∧ covers item k r c ∧
                 String.get k item.2 = Some ch).
Proof.
  assert (letter_grid 3 3 Examples.puzzle_solution = Ok Examples.puzzle_grid)
    as Hgrid by by vm_compute.
  split; [assumption|]. exact (letter_grid_cells _ _ _ _ Hgrid).
Defined.

Lemma letter_grid_shows_words_witness :
  letter_grid 3 3 [(Examples.across, "TEN"%string)]
    = Ok [[Some "T"; Some "E"; Some "N"]; [None; None; None];
          [None; None; None]]%char ∧
  (∀ item1 item2 k1 k2 r c,
     item1 ∈ [(Examples.across, "TEN"%string)] →
     item2 ∈ [(Examples.across, "TEN"%string)] →
     covers item1 k1 r c → covers item2 k2 r c →
     String.get k1 item1.2 = String.get k2 item2.2) ∧
  ∀ item k, item ∈ [(Examples.across, "TEN"%string)] →
    k < String.length item.2 →
    grid_get [[Some "T"; Some "E"; Some "N"]; [None; None; None];
              [None; None; None]]%char
      (cell_of item.1 k).1 (cell_of item.1 k).2
    = Some (String.get k item.2).
Proof.
  assert (letter_grid 3 3 [(Examples.across, "TEN"%string)]
          = Ok [[Some "T"; Some "E"; Some "N"]; [None; None; None];
                [None; None; None]]%char) as Hgrid by by vm_compute.
  assert (∀ item1 item2 k1 k2 r c,
            item1 ∈ [(Examples.across, "TEN"%string)] →
            item2 ∈ [(Examples.across, "TEN"%string)] →
            covers item1 k1 r c → covers item2 k2 r c →
            String.get k1 item1.2 = String.get k2 item2.2) as Hagree.
  { intros item1 item2 k1 k2 r c H1 H2 [_ Hc1] [_ Hc2].
    apply list_elem_of_singleton in H1, H2. subst item1 item2.
    unfold cell_of in Hc1, Hc2. simpl in Hc1, Hc2.
    assert (k1 = k2) as -> by congruence. reflexivity. }
  split; [assumption|]. split; [assumption|].
  exact (letter_grid_shows_words _ _ _ _ Hgrid Hagree).
Defined.

Lemma revise_frame_witness :
  revise Examples.puzzle Examples.down Examples.across Examples.puzzle_domains
    = (Ok true, search_domains Examples.puzzle) ∧
  (∀ v, v ≠ Examples.down →
     search_domains Examples.puzzle !! v = Examples.puzzle_domains !! v) ∧
  ∃ dx dx',
    Examples.puzzle_domains !! Examples.down = Some dx ∧
    search_domains Examples.puzzle !! Examples.down = Some dx' ∧
    (∀ w, w ∈ dx' → w ∈ dx) ∧
    (true = true → List.length dx' < List.length dx) ∧
    (true = false → dx' = dx).
Proof.
  assert (revise Examples.puzzle Examples.down Examples.across
            Examples.puzzle_domains
          = (Ok true, search_domains Examples.puzzle)) as Hrev by by vm_compute.
  split; [assumption|]. exact (revise_frame _ _ _ _ _ _ Hrev).
Defined.

Lemma revise_keeps_supported_witness :
  Examples.down ≠ Examples.across ∧
  revise Examples.puzzle Examples.down Examples.across Examples.puzzle_domains
    = (Ok true, search_domains Examples.puzzle) ∧
  ∃ i j dx dx',
    overlaps Examples.puzzle !! (Examples.down, Examples.across)
      = Some (Some (i, j)) ∧
    Examples.puzzle_domains !! Examples.down = Some dx ∧
    search_domains Examples.puzzle !! Examples.down = Some dx' ∧
    search_domains Examples.puzzle !! Examples.across
      = Examples.puzzle_domains !! Examples.across ∧
    ∀ w, w ∈ dx' ↔
      w ∈ dx ∧ ∃ dy w' c,
        search_domains Examples.puzzle !! Examples.across = Some dy ∧ w' ∈ dy ∧
        String.get i w = Some c ∧ String.get j w' = Some c.
Proof.
  assert (Examples.down ≠ Examples.across) as Hne by by_evaluation.
  assert (revise Examples.puzzle Examples.down Examples.across
            Examples.puzzle_domains
          = (Ok true, search_domains Examples.puzzle)) as Hrev by by vm_compute.
  split; [assumption|]. split; [assumption|].
  exact (revise_keeps_supported _ _ _ _ _ _ Hne Hrev).
Defined.

Lemma revise_raise_keeps_store_witness :
  revise Examples.rows Examples.row0 Examples.row2 (init_domains Examples.rows)
    = (Raise TypeError,
       (revise Examples.rows Examples.row0 Examples.row2
          (init_domains Examples.rows)).2) ∧
  (revise Examples.rows Examples.row0 Examples.row2
     (init_domains Examples.rows)).2 = init_domains Examples.rows.
Proof.
  assert (revise Examples.rows Examples.row0 Examples.row2
            (init_domains Examples.rows)
          = (Raise TypeError,
             (revise Examples.rows Examples.row0 Examples.row2
                (init_domains Examples.rows)).2)) as Hrev by by vm_compute.
  split; [assumption|]. exact (revise_raise_keeps_store _ _ _ _ _ _ Hrev).
Defined.

Lemma ac3_only_removes_witness :
  ac3 Examples.puzzle None Examples.puzzle_domains
    = (Ok true, search_domains Examples.puzzle) ∧
  ∀ v, (search_domains Examples.puzzle !! v = None
        ↔ Examples.puzzle_domains !! v = None) ∧
       ∀ d', search_domains Examples.puzzle !! v = Some d' →
         ∃ d, Examples.puzzle_domains !! v = Some d ∧ ∀ w, w ∈ d' → w ∈ d.
Proof.
  assert (ac3 Examples.puzzle None Examples.puzzle_domains
          = (Ok true, search_domains Examples.puzzle)) as Hac3 by by vm_compute.
  split; [assumption|]. exact (ac3_only_removes _ _ _ _ _ Hac3).
Defined.

Lemma ac3_false_empty_domain_witness :
  ac3 Examples.stuck None
    (enforce_node_consistency (init_domains Examples.stuck))
    = (Ok false, search_domains Examples.stuck) ∧
  ∃ x, search_domains Examples.stuck !! x = Some [].
Proof.
  assert (ac3 Examples.stuck None
            (enforce_node_consistency (init_domains Examples.stuck))
          = (Ok false, search_domains Examples.stuck)) as Hac3 by by vm_compute.
  split; [assumption|]. exact (ac3_false_empty_domain _ _ _ _ Hac3).
Defined.

Lemma ac3_fixed_point_witness :
  wf_crossword Examples.puzzle ∧
  domains_ok Examples.puzzle Examples.puzzle_domains ∧
  ac3 Examples.puzzle None Examples.puzzle_domains
    = (Ok true, search_domains Examples.puzzle) ∧
  ac3 Examples.puzzle None (search_domains Examples.puzzle)
    = (Ok true, search_domains Examples.puzzle).
Proof.
  assert (wf_crossword Examples.puzzle) as Hwf
    by (apply check_crossword_sound; by vm_compute).
  assert (domains_ok Examples.puzzle Examples.puzzle_domains) as Hok
    by apply pruned_domains_ok.
  assert (ac3 Examples.puzzle None Examples.puzzle_domains
          = (Ok true, search_domains Examples.puzzle)) as Hac3 by by vm_compute.
  repeat (split; [assumption|]).
  exact (ac3_fixed_point _ _ _ Hwf Hok Hac3).
Defined.

Lemma ac3_keeps_solutions_witness :
  wf_crossword Examples.puzzle ∧
  satisfying Examples.puzzle Examples.puzzle_solution ∧
  keeps_solution Examples.puzzle Examples.puzzle_solution
    Examples.puzzle_domains ∧
  ac3 Examples.puzzle None Examples.puzzle_domains
    = (Ok true, search_domains Examples.puzzle) ∧
  keeps_solution Examples.puzzle Examples.puzzle_solution
    (search_domains Examples.puzzle).
Proof.
  assert (wf_crossword Examples.puzzle) as Hwf
    by (apply check_crossword_sound; by vm_compute).
  assert (satisfying Examples.puzzle Examples.puzzle_solution) as Hsat
    by apply puzzle_solution_satisfying.
  assert (keeps_solution Examples.puzzle Examples.puzzle_solution
            Examples.puzzle_domains) as Hkeep
    by (apply pruned_keeps_solution; apply puzzle_solution_satisfying).
  assert (ac3 Examples.puzzle None Examples.puzzle_domains
          = (Ok true, search_domains Examples.puzzle)) as Hac3 by by vm_compute.
  repeat (split; [assumption|]).
  exact (ac3_keeps_solutions _ _ _ _ _ _ Hwf Hsat Hkeep Hac3).
Defined.

Lemma ac3_returns_witness :
  wf_crossword Examples.puzzle ∧
  domains_ok Examples.puzzle Examples.puzzle_domains ∧
  ∃ b D', ac3 Examples.puzzle None Examples.puzzle_domains = (Ok b, D').
Proof.
  assert (wf_crossword Examples.puzzle) as Hwf
    by (apply check_crossword_sound; by vm_compute).
  assert (domains_ok Examples.puzzle Examples.puzzle_domains) as Hok
    by apply pruned_domains_ok.
  repeat (split; [assumption|]).
  exact (ac3_returns _ _ Hwf Hok).
Defined.

Lemma ac3_all_empty_witness :
  wf_crossword Examples.no_words ∧
  (∀ v, v ∈ variables Examples.no_words →
     enforce_node_consistency (init_domains Examples.no_words) !! v = Some []) ∧
  ac3 Examples.no_words None
    (enforce_node_consistency (init_domains Examples.no_words))
  = (Ok true, enforce_node_consistency (init_domains Examples.no_words)).
Proof.
  assert (wf_crossword Examples.no_words) as Hwf
    by (apply check_crossword_sound; by vm_compute).
  assert (∀ v, v ∈ variables Examples.no_words →
            enforce_node_consistency (init_domains Examples.no_words) !! v
            = Some []) as Hempty.
  { intros v Hv. by rewrite pruned_lookup. }
  repeat (split; [assumption|]).
  exact (ac3_all_empty _ _ Hwf Hempty).
Defined.

Lemma partial_solution_consistent_witness :
  wf_crossword Examples.puzzle ∧
  satisfying Examples.puzzle Examples.puzzle_solution ∧
  NoDup (dict_keys [(Examples.across, "TEN"%string)]) ∧
  (∀ v, v ∈ dict_keys [(Examples.across, "TEN"%string)] →
     v ∈ variables Examples.puzzle) ∧
  (∀ v w, (v, w) ∈ [(Examples.across, "TEN"%string)] →
     dict_get Examples.puzzle_solution v = Some w) ∧
  consistent Examples.puzzle [(Examples.across, "TEN"%string)] = Ok true.
Proof.
  assert (wf_crossword Examples.puzzle) as Hwf
    by (apply check_crossword_sound; by vm_compute).
  assert (satisfying Examples.puzzle Examples.puzzle_solution) as Hsat
    by apply puzzle_solution_satisfying.
  assert (NoDup (dict_keys [(Examples.across, "TEN"%string)])) as Hnd
    by by_evaluation.
  assert (∀ v, v ∈ dict_keys [(Examples.across, "TEN"%string)] →
            v ∈ variables Examples.puzzle) as Hkeys.
  { intros v Hv. apply list_elem_of_singleton in Hv as ->. by_evaluation. }
  assert (∀ v w, (v, w) ∈ [(Examples.across, "TEN"%string)] →
            dict_get Examples.puzzle_solution v = Some w) as Hpart.
  { intros v w Hvw. apply list_elem_of_singleton in Hvw.
    injection Hvw as -> ->. by vm_compute. }
  repeat (split; [assumption|]).
  exact (partial_solution_consistent _ _ _ Hwf Hsat Hnd Hkeys Hpart).
Defined.

Lemma select_unassigned_variable_first_smallest_witness :
  select_unassigned_variable Examples.puzzle (search_domains Examples.puzzle) []
    = Ok Examples.down ∧
  ∃ before after dv,
    list_difference (variables Examples.puzzle) (dict_keys [])
      = before ++ Examples.down :: after ∧
    search_domains Examples.puzzle !! Examples.down = Some dv ∧
    (∀ v, v ∈ before →
       ∃ d, search_domains Examples.puzzle !! v = Some d ∧
            List.length dv < List.length d) ∧
    (∀ v, v ∈ after →
       ∃ d, search_domains Examples.puzzle !! v = Some d ∧
            List.length dv ≤ List.length d).
Proof.
  assert (select_unassigned_variable Examples.puzzle
            (search_domains Examples.puzzle) [] = Ok Examples.down) as Hsel
    by by vm_compute.
  split; [assumption|].
  exact (select_unassigned_variable_first_smallest _ _ _ _ Hsel).
Defined.

Lemma select_unassigned_variable_none_left_witness :
  (∀ v, v ∈ variables Examples.puzzle →
     v ∈ dict_keys Examples.puzzle_solution) ∧
  select_unassigned_variable Examples.puzzle (search_domains Examples.puzzle)
    Examples.puzzle_solution = Raise IndexError.
Proof.
  assert (∀ v, v ∈ variables Examples.puzzle →
            v ∈ dict_keys Examples.puzzle_solution) as Hall.
  { assert (variables Examples.puzzle = dict_keys Examples.puzzle_solution)
      as Heq by by vm_compute.
    intros v Hv. by rewrite <- Heq. }
  split; [assumption|].
  exact (select_unassigned_variable_none_left _ _ _ Hall).
Defined.

Lemma backtrack_extends_witness :
  0 < List.length
        (heap (mkState (search_domains Examples.puzzle)
                 [[(Examples.down, "NET"%string)]])) ∧
  backtrack 3 Examples.puzzle 0
    (mkState (search_domains Examples.puzzle)
       [[(Examples.down, "NET"%string)]])
  = (Ok (Some 2),
     (backtrack 3 Examples.puzzle 0
        (mkState (search_domains Examples.puzzle)
           [[(Examples.down, "NET"%string)]])).2) ∧
  deref (mkState (search_domains Examples.puzzle)
           [[(Examples.down, "NET"%string)]]) 0
    `prefix_of`
  deref (backtrack 3 Examples.puzzle 0
           (mkState (search_domains Examples.puzzle)
              [[(Examples.down, "NET"%string)]])).2 2.
Proof.
  assert (0 < List.length
                (heap (mkState (search_domains Examples.puzzle)
                         [[(Examples.down, "NET"%string)]]))) as Hloc
    by (simpl; lia).
  assert (backtrack 3 Examples.puzzle 0
            (mkState (search_domains Examples.puzzle)
               [[(Examples.down, "NET"%string)]])
          = (Ok (Some 2),
             (backtrack 3 Examples.puzzle 0
                (mkState (search_domains Examples.puzzle)
                   [[(Examples.down, "NET"%string)]])).2)) as Hrun
    by by vm_compute.
  repeat (split; [assumption|]).
  exact (backtrack_extends _ _ _ _ _ _ Hloc Hrun).
Defined.

Lemma solve_returns_vocabulary_witness :
  solve Examples.puzzle (init Examples.puzzle)
    = (Ok (Some 2), (solve Examples.puzzle (init Examples.puzzle)).2) ∧
  ∀ v w, (v, w) ∈ deref (solve Examples.puzzle (init Examples.puzzle)).2 2 →
    w ∈ words Examples.puzzle.
Proof.
  assert (solve Examples.puzzle (init Examples.puzzle)
          = (Ok (Some 2), (solve Examples.puzzle (init Examples.puzzle)).2))
    as Hrun by by vm_compute.
  split; [assumption|].
  exact (solve_returns_vocabulary _ _ _ Hrun).
Defined.

Lemma solve_no_variables_witness :
  variables Examples.no_slots = [] ∧
  ∃ l st', solve Examples.no_slots (init Examples.no_slots)
             = (Ok (Some l), st') ∧ deref st' l = [].
Proof.
  assert (variables Examples.no_slots = []) as Hnone by reflexivity.
  split; [assumption|].
  exact (solve_no_variables _ Hnone).
Defined.

Lemma solve_keeps_pruned_domains_witness :
  wf_crossword Examples.puzzle ∧
  solve Examples.puzzle (init Examples.puzzle)
    = (Ok (Some 2), (solve Examples.puzzle (init Examples.puzzle)).2) ∧
  domains (solve Examples.puzzle (init Examples.puzzle)).2
  = (ac3 Examples.puzzle None
       (enforce_node_consistency (domains (init Examples.puzzle)))).2.
Proof.
  assert (wf_crossword Examples.puzzle) as Hwf
    by (apply check_crossword_sound; by vm_compute).
  assert (solve Examples.puzzle (init Examples.puzzle)
          = (Ok (Some 2), (solve Examples.puzzle (init Examples.puzzle)).2))
    as Hrun by by vm_compute.
  repeat (split; [assumption|]).
  exact (solve_keeps_pruned_domains _ _ _ _ Hwf Hrun).
Defined.

Lemma solve_after_failed_pass_witness :
  wf_crossword Examples.stuck ∧
  ac3 Examples.stuck None
    (enforce_node_consistency (init_domains Examples.stuck))
    = (Ok false, search_domains Examples.stuck) ∧
  solve Examples.stuck (init Examples.stuck)
  = (Ok None, mkState (search_domains Examples.stuck) [[]]).
Proof.
  assert (wf_crossword Examples.stuck) as Hwf
    by (apply check_crossword_sound; by vm_compute).
  assert (ac3 Examples.stuck None
            (enforce_node_consistency (init_domains Examples.stuck))
          = (Ok false, search_domains Examples.stuck)) as Hac3 by by vm_compute.
  repeat (split; [assumption|]).
  exact (solve_after_failed_pass _ _ Hwf Hac3).
Defined.

Lemma backtrack_dead_end_witness :
  (∀ x, x ∈ variables Examples.short_words →
     is_Some (domains
                (mkState (enforce_node_consistency
                            (init_domains Examples.short_words)) [[]]) !! x)) ∧
  Examples.across ∈ variables Examples.short_words ∧
  (Examples.across ∉
     dict_keys (deref (mkState (enforce_node_consistency
                                  (init_domains Examples.short_words)) [[]])
                  0)) ∧
  domains (mkState (enforce_node_consistency
                      (init_domains Examples.short_words)) [[]])
    !! Examples.across = Some [] ∧
  backtrack 1 Examples.short_words 0
    (mkState (enforce_node_consistency (init_domains Examples.short_words))
       [[]])
  = (Ok None,
     mkState (enforce_node_consistency (init_domains Examples.short_words))
       [[]]).
Proof.
  assert (∀ x, x ∈ variables Examples.short_words →
            is_Some (domains
                       (mkState (enforce_node_consistency
                                   (init_domains Examples.short_words)) [[]])
                     !! x)) as Hdom.
  { intros x Hx. cbn [domains]. rewrite pruned_lookup by done. by eexists. }
  assert (Examples.across ∈ variables Examples.short_words) as Hvar
    by by_evaluation.
  assert (Examples.across ∉
            dict_keys (deref (mkState (enforce_node_consistency
                                         (init_domains Examples.short_words))
                                [[]]) 0)) as Hfree
    by by_evaluation.
  assert (domains (mkState (enforce_node_consistency
                              (init_domains Examples.short_words)) [[]])
            !! Examples.across = Some []) as Hempty by by vm_compute.
  repeat (split; [assumption|]).
  exact (backtrack_dead_end 0 _ _ _ _ Hdom Hvar Hfree Hempty).
Defined.

Lemma solve_returns_witness :
  wf_crossword Examples.puzzle ∧
  ∃ r st', solve Examples.puzzle (init Examples.puzzle) = (Ok r, st').
Proof.
  assert (wf_crossword Examples.puzzle) as Hwf
    by (apply check_crossword_sound; by vm_compute).
  split; [assumption|].
  exact (solve_returns _ Hwf).
Defined.

Lemma solve_decides_witness :
  wf_crossword Examples.stuck ∧
  ((∃ l st', solve Examples.stuck (init Examples.stuck) = (Ok (Some l), st') ∧
             satisfying Examples.stuck (deref st' l)) ∨
   (∃ st', solve Examples.stuck (init Examples.stuck) = (Ok None, st') ∧
           ∀ sol, ¬ satisfying Examples.stuck sol)).
Proof.
  assert (wf_crossword Examples.stuck) as Hwf
    by (apply check_crossword_sound; by vm_compute).
  split; [assumption|].
  exact (solve_decides _ Hwf).
Defined.

Lemma order_domain_values_stable_witness :
  Examples.puzzle_domains !! Examples.down
    = Some ["TEN"; "ANT"; "EEL"; "NET"]%string ∧
  order_domain_values Examples.puzzle Examples.puzzle_domains Examples.down []
    = Ok ["EEL"; "NET"; "TEN"; "ANT"]%string ∧
  filter (λ w, lcv_score Examples.puzzle Examples.puzzle_domains []
                 Examples.down w = 4)
    ["EEL"; "NET"; "TEN"; "ANT"]%string
  = filter (λ w, lcv_score Examples.puzzle Examples.puzzle_domains []
                   Examples.down w = 4)
      ["TEN"; "ANT"; "EEL"; "NET"]%string.
Proof.
  assert (Examples.puzzle_domains !! Examples.down
          = Some ["TEN"; "ANT"; "EEL"; "NET"]%string) as Hdv by by vm_compute.
  assert (order_domain_values Examples.puzzle Examples.puzzle_domains
            Examples.down []
          = Ok ["EEL"; "NET"; "TEN"; "ANT"]%string) as Hodv by by vm_compute.
  repeat (split; [assumption|]).
  exact (order_domain_values_stable _ _ _ _ _ _ 4 Hdv Hodv).
Defined.

Lemma assignment_complete_iff_length_witness :
  NoDup (variables Examples.puzzle) ∧
  NoDup (dict_keys Examples.puzzle_solution) ∧
  (∀ v, v ∈ dict_keys Examples.puzzle_solution →
     v ∈ variables Examples.puzzle) ∧
  (assignment_complete Examples.puzzle Examples.puzzle_solution = true
   ↔ List.length Examples.puzzle_solution
     = List.length (variables Examples.puzzle)).
Proof.
  assert (NoDup (variables Examples.puzzle)) as Hvars by by_evaluation.
  assert (NoDup (dict_keys Examples.puzzle_solution)) as Hkeys
    by by_evaluation.
  assert (∀ v, v ∈ dict_keys Examples.puzzle_solution →
            v ∈ variables Examples.puzzle) as Hsub.
  { assert (dict_keys Examples.puzzle_solution = variables Examples.puzzle)
      as Heq by by vm_compute.
    intros v Hv. by rewrite <- Heq. }
  repeat (split; [assumption|]).
  exact (assignment_complete_iff_length _ _ Hvars Hkeys Hsub).
Defined.
